(** * Entra -> Action1 connector: name matcher, patch builder, sync engine

    A shallow embedding of [mapping/deviceMapper.js], [config/helpers.js],
    [sync/syncEngine.js] and the run mode of [index.js] from the parsed
    arguments on, and the properties of the design document that are about
    them.

    Conventions of the embedding.
    - A JavaScript string is a [string]; each [ascii] stands for one code
      unit in the range 0..255 (Latin-1).  [trim], [toLowerCase] and the
      regular-expression class [\s] are written out for that range.
    - A JavaScript value is a [JsValue].  Numbers are the integers ([Z]);
      [NaN], infinities and fractions are not represented.
    - A plain data object used as a record (a directory device, an
      endpoint, a patch body) is a [gmap string JsValue]; a property that is
      absent reads as [JsUndefined].  Only own data properties are read.
    - Arrays the functions receive are lists: the guards [xs || []] of the
      source, which turn a missing array into the empty one, are the
      identity on them.
    - The [logger] is a sink without effect on control flow; its calls are
      left out. *)

From Stdlib Require Import ZArith Ascii String Lia DecimalString Permutation.
From stdpp Require Import base strings list gmap fin_maps.

Local Open Scope string_scope.
Local Open Scope list_scope.
Local Open Scope Z_scope.

(** ** JavaScript strings *)

Module JsString.

  (** White space removed by [String.prototype.trim] and matched by [\s]:
      TAB, LF, VT, FF, CR, SPACE and NO-BREAK SPACE. *)
Definition is_space (c : ascii) : bool :=
    let n := nat_of_ascii c in
    ((9 <=? n)%nat && (n <=? 13)%nat) || (n =? 32)%nat || (n =? 160)%nat.

  (** Letters that [toLowerCase] changes: A-Z, and U+00C0..U+00DE without
      the multiplication sign U+00D7. *)
Definition is_upper (c : ascii) : bool :=
    let n := nat_of_ascii c in
    ((65 <=? n)%nat && (n <=? 90)%nat)
    || ((192 <=? n)%nat && (n <=? 222)%nat && negb (n =? 215)%nat).

Definition lower_char (c : ascii) : ascii :=
    if is_upper c then ascii_of_nat (nat_of_ascii c + 32) else c.

Fixpoint toLowerCase (s : string) : string :=
    match s with
    | EmptyString => EmptyString
    | String c r => String (lower_char c) (toLowerCase r)
    end.

Fixpoint trimStart (s : string) : string :=
    match s with
    | EmptyString => EmptyString
    | String c r => if is_space c then trimStart r else s
    end.

Fixpoint trimEnd (s : string) : string :=
    match s with
    | EmptyString => EmptyString
    | String c r =>
        match trimEnd r with
        | EmptyString => if is_space c then EmptyString else String c EmptyString
        | r' => String c r'
        end
    end.

Definition trim (s : string) : string := trimEnd (trimStart s).

  (** [s.startsWith(p)] *)
Fixpoint startsWith (s p : string) {struct p} : bool :=
    match p with
    | EmptyString => true
    | String a p' =>
        match s with
        | EmptyString => false
        | String b s' => Ascii.eqb b a && startsWith s' p'
        end
    end.

  (** [s.indexOf(c)] for a one-character needle: the position of its first
      occurrence, or [-1]. *)
Fixpoint indexOf (s : string) (c : ascii) : Z :=
    match s with
    | EmptyString => -1
    | String d r =>
        if Ascii.eqb d c then 0
        else let i := indexOf r c in if i <? 0 then -1 else i + 1
    end.

  (** [s.slice(0, n)] for [0 <= n]. *)
Fixpoint sliceTo (n : nat) (s : string) : string :=
    match n, s with
    | O, _ => EmptyString
    | S n', String c r => String c (sliceTo n' r)
    | S _, EmptyString => EmptyString
    end.

Definition is_empty (s : string) : bool :=
    match s with EmptyString => true | _ => false end.

  (** The decimal numeral of an integer, as [String(n)] and template
      literals print it. *)
Definition of_Z (z : Z) : string := NilZero.string_of_int (Z.to_int z).

  (** [s.replace(/\s+/g, '_')]: every maximal run of white space becomes one
      underscore.  [in_run] tells that the previous character was white
      space. *)
Fixpoint collapse_spaces (in_run : bool) (s : string) : string :=
    match s with
    | EmptyString => EmptyString
    | String c r =>
        if is_space c
        then if in_run then collapse_spaces true r
             else String "_" (collapse_spaces true r)
        else String c (collapse_spaces false r)
    end.

  (** The class [[a-zA-Z0-9._-]]. *)
Definition is_safe_char (c : ascii) : bool :=
    let n := nat_of_ascii c in
    ((97 <=? n)%nat && (n <=? 122)%nat)
    || ((65 <=? n)%nat && (n <=? 90)%nat)
    || ((48 <=? n)%nat && (n <=? 57)%nat)
    || (n =? 46)%nat || (n =? 95)%nat || (n =? 45)%nat.

  (** [s.replace(/[^a-zA-Z0-9._-]/g, '')] *)
Fixpoint keep_safe (s : string) : string :=
    match s with
    | EmptyString => EmptyString
    | String c r => if is_safe_char c then String c (keep_safe r) else keep_safe r
    end.

End JsString.

Import JsString.

(** ** JavaScript values *)

Inductive JsValue : Type :=
| JsUndefined
| JsNull
| JsBool (b : bool)
| JsNum (n : Z)
| JsStr (s : string)
| JsObj (tag : nat).   (* a plain object, opaque to this code *)

(** [Boolean(v)], the test of [if (v)], [!v] and [a || b]. *)
Definition truthy (v : JsValue) : bool :=
  match v with
  | JsUndefined | JsNull => false
  | JsBool b => b
  | JsNum n => negb (n =? 0)
  | JsStr s => negb (is_empty s)
  | JsObj _ => true
  end.

(** [a || b] *)
Definition js_or (a b : JsValue) : JsValue := if truthy a then a else b.

(** [String(v)] *)
Definition toStringJs (v : JsValue) : string :=
  match v with
  | JsUndefined => "undefined"
  | JsNull => "null"
  | JsBool true => "true"
  | JsBool false => "false"
  | JsNum n => of_Z n
  | JsStr s => s
  | JsObj _ => "[object Object]"
  end.

(** A record read from JSON: property name to value. *)
Abbreviation JsRecord := (gmap string JsValue).

(** [o.k] and [o[k]] *)
Definition getProp (o : JsRecord) (k : string) : JsValue :=
  default JsUndefined (o !! k).

(** ** mapping/deviceMapper.js *)

Definition normalizeName (str : JsValue) : string :=
  match str with
  | JsNull | JsUndefined => ""
  | _ => toLowerCase (trim (toStringJs str))
  end.

Definition stripFqdn (name : JsValue) : string :=
  let s := trim (toStringJs (js_or name (JsStr ""))) in
  let dot := indexOf s "." in
  if 0 <? dot then sliceTo (Z.to_nat dot) s else s.

Definition normalizeShortName (str : JsValue) : string :=
  normalizeName (JsStr (stripFqdn str)).

(** An endpoint is a record, so the guard
    [!endpoint || typeof endpoint !== 'object'] never fires. *)
Definition getAction1EndpointName (endpoint : JsRecord) : JsValue :=
  js_or (js_or (getProp endpoint "device_name") (getProp endpoint "name"))
        (JsStr "").

Definition toCustomKey (action1CustomAttribute : JsValue) : string :=
  let raw := trim (toStringJs (js_or action1CustomAttribute (JsStr ""))) in
  if is_empty raw then ""
  else if startsWith (toLowerCase raw) "custom:" then raw
  else "custom:" +:+ raw.

(** The index is a [Map] from a normalized name to the endpoints that carry
    it, in the order met. *)
Abbreviation EndpointIndex := (gmap string (list JsRecord)).

(** [if (!index.has(key)) index.set(key, []); index.get(key).push(ep);] *)
Definition pushIndex (key : string) (ep : JsRecord) (index : EndpointIndex)
  : EndpointIndex :=
  let index1 :=
    match index !! key with
    | Some _ => index
    | None => <[key := []]> index
    end in
  alter (fun eps => eps ++ [ep]) key index1.

Definition buildEndpointIndex (endpoints : list JsRecord) : EndpointIndex :=
  foldl (fun index ep =>
           let name := getAction1EndpointName ep in
           let key := normalizeName name in
           if is_empty key then index else pushIndex key ep index)
        ∅ endpoints.

Definition buildEndpointShortIndex (endpoints : list JsRecord) : EndpointIndex :=
  foldl (fun index ep =>
           let name := getAction1EndpointName ep in
           let key := normalizeShortName name in
           if is_empty key then index else pushIndex key ep index)
        ∅ endpoints.

Record MatchedPair := {
  pair_entraDevice : JsRecord;
  pair_endpoint : JsRecord;
  pair_matchType : string;
}.

Record AmbiguousEntry := {
  amb_entraDevice : JsRecord;
  amb_candidates : list JsRecord;
  amb_reason : string;
}.

Record MatchResult := {
  matched : list MatchedPair;
  unmatchedEntra : list JsRecord;
  ambiguous : list AmbiguousEntry;
}.

Definition push_matched (r : MatchResult) (p : MatchedPair) : MatchResult :=
  {| matched := matched r ++ [p];
     unmatchedEntra := unmatchedEntra r;
     ambiguous := ambiguous r |}.

Definition push_unmatched (r : MatchResult) (dev : JsRecord) : MatchResult :=
  {| matched := matched r;
     unmatchedEntra := unmatchedEntra r ++ [dev];
     ambiguous := ambiguous r |}.

Definition push_ambiguous (r : MatchResult) (a : AmbiguousEntry) : MatchResult :=
  {| matched := matched r;
     unmatchedEntra := unmatchedEntra r;
     ambiguous := ambiguous r ++ [a] |}.

(** One turn of the loop of [matchDevices] over the devices. *)
Definition matchStep (fullIndex shortIndex : EndpointIndex)
    (r : MatchResult) (dev : JsRecord) : MatchResult :=
  let entraName := js_or (getProp dev "displayName") (JsStr "") in
  let fullKey := normalizeName entraName in
  if is_empty fullKey then push_unmatched r dev
  else
    (* Phase 1: exact/full name match *)
    match fullIndex !! fullKey with
    | Some ((first :: _) as fullCandidates) =>
        if (1 <? length fullCandidates)%nat
        then push_ambiguous r
               {| amb_entraDevice := dev;
                  amb_candidates := fullCandidates;
                  amb_reason := "duplicate_full" |}
        else push_matched r
               {| pair_entraDevice := dev;
                  pair_endpoint := first;
                  pair_matchType := "full" |}
    | _ =>
        (* Phase 2: shortname match (FQDN fallback) *)
        let shortKey := normalizeShortName entraName in
        match shortIndex !! shortKey with
        | Some ((first :: _) as shortCandidates) =>
            if (1 <? length shortCandidates)%nat
            then push_ambiguous r
                   {| amb_entraDevice := dev;
                      amb_candidates := shortCandidates;
                      amb_reason := "duplicate_short" |}
            else push_matched r
                   {| pair_entraDevice := dev;
                      pair_endpoint := first;
                      pair_matchType := "short" |}
        | _ => push_unmatched r dev
        end
    end.

Definition emptyMatchResult : MatchResult :=
  {| matched := []; unmatchedEntra := []; ambiguous := [] |}.

Definition matchDevices (entraDevices action1Endpoints : list JsRecord)
  : MatchResult :=
  let fullIndex := buildEndpointIndex action1Endpoints in
  let shortIndex := buildEndpointShortIndex action1Endpoints in
  foldl (matchStep fullIndex shortIndex) emptyMatchResult entraDevices.

(** A property mapping of the configuration; both names are read as the
    JSON gives them. *)
Record Mapping := {
  entraProperty : JsValue;
  action1CustomAttribute : JsValue;
}.

(** [typeof value === 'string' && value.trim() === ''] *)
Definition is_blank_string (value : JsValue) : bool :=
  match value with
  | JsStr s => is_empty (trim s)
  | _ => false
  end.

(** One turn of the loop of [buildEndpointPatch] over the mappings. *)
Definition patchStep (entraDevice : JsRecord) (patch : JsRecord) (m : Mapping)
  : JsRecord :=
  let entraProp := entraProperty m in
  let action1Attr := action1CustomAttribute m in
  if negb (truthy entraProp) || negb (truthy action1Attr) then patch
  else
    let value := getProp entraDevice (toStringJs entraProp) in
    match value with
    | JsNull | JsUndefined => patch
    | _ =>
        if is_blank_string value then patch
        else
          let key := toCustomKey action1Attr in
          if is_empty key then patch
          else <[key := value]> patch
    end.

(** [null] is [None]. *)
Definition buildEndpointPatch (entraDevice : JsRecord) (mappings : list Mapping)
  : option JsRecord :=
  let patch := foldl (patchStep entraDevice) ∅ mappings in
  if (0 <? size patch)%nat then Some patch else None.

Record PatchItem := {
  endpointId : JsValue;
  endpointName : JsValue;
  entraName : JsValue;
  matchType : string;
  patch : JsRecord;
}.

Record MappingResult := {
  mr_matched : list MatchedPair;
  mr_patches : list PatchItem;
  mr_unmatchedEntra : list JsRecord;
  mr_ambiguous : list AmbiguousEntry;
}.

Definition mapDevicesToPatches (entraDevices action1Endpoints : list JsRecord)
    (mappings : list Mapping) : MappingResult :=
  let r := matchDevices entraDevices action1Endpoints in
  let patches :=
    foldl (fun patches pair =>
             match buildEndpointPatch (pair_entraDevice pair) mappings with
             | None => patches
             | Some patch =>
                 patches ++
                   [{| endpointId := getProp (pair_endpoint pair) "id";
                       endpointName := getAction1EndpointName (pair_endpoint pair);
                       entraName := getProp (pair_entraDevice pair) "displayName";
                       matchType := pair_matchType pair;
                       patch := patch |}]
             end)
          [] (matched r) in
  {| mr_matched := matched r;
     mr_patches := patches;
     mr_unmatchedEntra := unmatchedEntra r;
     mr_ambiguous := ambiguous r |}.

(** ** config/helpers.js *)

Record Target := {
  organizationIds : list string;
  target_mappings : list Mapping;
}.

Record Tenant := {
  tenant_name : string;
  tenantId : string;
  clientId : string;
  targets : list Target;
}.

Record Config := {
  action1 : JsRecord;
  tenants : list Tenant;
}.

Record SyncJob := {
  tenant : Tenant;
  organizationId : string;
  mappings : list Mapping;
}.

Definition getSyncJobs (config : Config) : list SyncJob :=
  foldl (fun jobs tenant =>
    foldl (fun jobs target =>
      foldl (fun jobs organizationId =>
               jobs ++ [{| tenant := tenant;
                           organizationId := organizationId;
                           mappings := target_mappings target |}])
            jobs (organizationIds target))
      jobs (targets tenant))
    [] (tenants config).

(** ** sync/syncEngine.js *)

(** The options object as the caller passes it; an option that is not given
    is [JsUndefined]. *)
Record RawOptions := {
  raw_dryRun : JsValue;
  raw_cacheEntraDevices : JsValue;
  raw_maxPatchesPerJob : JsValue;
  raw_maxTotalPatches : JsValue;
  raw_stopOnJobError : JsValue;
  raw_stopOnPatchError : JsValue;
  raw_endpointPageSize : JsValue;
}.

Record SyncOptions := {
  dryRun : bool;
  cacheEntraDevices : bool;
  maxPatchesPerJob : Z;
  maxTotalPatches : Z;
  stopOnJobError : bool;
  stopOnPatchError : bool;
  endpointPageSize : Z;
}.

(** [v !== undefined ? Boolean(v) : true] *)
Definition boolean_or_true (v : JsValue) : bool :=
  match v with
  | JsUndefined => true
  | _ => truthy v
  end.

(** [Number.isFinite(v) ? v : d] *)
Definition finite_or (v : JsValue) (d : Z) : Z :=
  match v with
  | JsNum n => n
  | _ => d
  end.

Definition normalizeOptions (options : RawOptions) : SyncOptions :=
  {| dryRun := boolean_or_true (raw_dryRun options);
     cacheEntraDevices := boolean_or_true (raw_cacheEntraDevices options);
     maxPatchesPerJob := finite_or (raw_maxPatchesPerJob options) 50;
     maxTotalPatches := finite_or (raw_maxTotalPatches options) 200;
     stopOnJobError := truthy (raw_stopOnJobError options);
     stopOnPatchError := truthy (raw_stopOnPatchError options);
     endpointPageSize := finite_or (raw_endpointPageSize options) 50 |}.

(** What a collaborator throws: an [Error] object, or any other value. *)
Inductive Thrown : Type :=
| ThrownError (name message : string)
| ThrownValue (v : JsValue).

(** [err?.message ? err.message : String(err)]; an [Error] whose message is
    empty prints as its name. *)
Definition errMsg (err : Thrown) : string :=
  match err with
  | ThrownError name message => if is_empty message then name else message
  | ThrownValue v => toStringJs v
  end.

Record PatchError := {
  pe_endpointId : JsValue;
  pe_error : string;
}.

(** The result of a job that went through its [try] block. *)
Record JobDone := {
  jr_tenantName : string;
  jr_organizationId : string;
  jr_entraDevices : Z;
  jr_action1Endpoints : Z;
  jr_matched : Z;
  jr_unmatchedEntra : Z;
  jr_ambiguous : Z;
  jr_patchesPlanned : Z;
  jr_patchesToProcess : Z;
  jr_patchesApplied : Z;
  jr_patchErrors : list PatchError;
  jr_limitedBy : option string;
  jr_dryRun : bool;
  jr_samplePatches : list PatchItem;
}.

(** The result pushed by the [catch] block of a job. *)
Record JobFailure := {
  jf_tenantName : string;
  jf_organizationId : string;
  jf_error : string;
  jf_dryRun : bool;
}.

Inductive JobResult : Type :=
| JobOk (r : JobDone)
| JobFailed (f : JobFailure).

(** Reading a property of a job result; [None] is [undefined]. *)
Definition patchesPlanned (r : JobResult) : option Z :=
  match r with
  | JobOk d => Some (jr_patchesPlanned d)
  | JobFailed _ => None
  end.

Definition patchesApplied (r : JobResult) : option Z :=
  match r with
  | JobOk d => Some (jr_patchesApplied d)
  | JobFailed _ => None
  end.

Definition resultTenantName (r : JobResult) : string :=
  match r with
  | JobOk d => jr_tenantName d
  | JobFailed f => jf_tenantName f
  end.

Definition resultOrganizationId (r : JobResult) : string :=
  match r with
  | JobOk d => jr_organizationId d
  | JobFailed f => jf_organizationId f
  end.

Record Summary := {
  sum_dryRun : bool;
  sum_jobs : Z;
  sum_totalPlannedPatches : Z;
  sum_totalAppliedPatches : Z;
  sum_results : list JobResult;
}.

(** [xs.slice(0, n)] for an integer [n]; a negative [n] counts from the
    end. *)
Definition slice0 {A : Type} (xs : list A) (n : Z) : list A :=
  if n <? 0
  then take (Z.to_nat (Z.max 0 (Z.of_nat (length xs) + n))) xs
  else take (Z.to_nat n) xs.

(** The safety limits of [runSync]: the per-job limit, then the global one.
    Returns [patchesToProcess] and [limitedBy]. *)
Definition safetyLimits (opts : SyncOptions) (totalAppliedPatches : Z)
    (patches : list PatchItem) : list PatchItem * option string :=
  let patchesToProcess := patches in
  let limitedBy : option string := None in
  let '(patchesToProcess, limitedBy) :=
    if Z.of_nat (length patchesToProcess) >? maxPatchesPerJob opts
    then (slice0 patchesToProcess (maxPatchesPerJob opts),
          Some ("maxPatchesPerJob=" +:+ of_Z (maxPatchesPerJob opts)))
    else (patchesToProcess, limitedBy) in
  if totalAppliedPatches + Z.of_nat (length patchesToProcess)
       >? maxTotalPatches opts
  then
    let allowed := Z.max 0 (maxTotalPatches opts - totalAppliedPatches) in
    (slice0 patchesToProcess allowed,
     Some (match limitedBy with
           | Some l => l +:+ ", maxTotalPatches=" +:+ of_Z (maxTotalPatches opts)
           | None => "maxTotalPatches=" +:+ of_Z (maxTotalPatches opts)
           end))
  else (patchesToProcess, limitedBy).

(** The key of the device cache.  [includeName] is the test toggle
    [process.env.CACHE_KEY_INCLUDE_TENANT_NAME === '1']. *)
Definition tenantCacheKey (includeName : bool) (t : Tenant) : string :=
  let baseKey := tenantId t +:+ ":" +:+ clientId t in
  let tenantNameSafe :=
    keep_safe (collapse_spaces false (trim (tenant_name t))) in
  if includeName then baseKey +:+ ":" +:+ tenantNameSafe else baseKey.

(** A call of a collaborator, as the run makes it. *)
Inductive Event : Type :=
| EvGetToken (failed : option Thrown)
| EvListDevices (t : Tenant) (failed : option Thrown)
| EvListEndpoints (org : string) (limit : Z) (failed : option Thrown)
| EvPatch (org : string) (id : JsValue) (body : JsRecord) (failed : option Thrown).

Definition failure_of {A : Type} (r : Thrown + A) : option Thrown :=
  match r with
  | inl e => Some e
  | inr _ => None
  end.

Definition is_patch_call (e : Event) : bool :=
  match e with
  | EvPatch _ _ _ _ => true
  | _ => false
  end.

Definition is_patch_ok (e : Event) : bool :=
  match e with
  | EvPatch _ _ _ None => true
  | _ => false
  end.

Section SyncEngine.

  (** The outside world of a run: the directory and the platform.  A
      collaborator answers from the current world and leaves a new one. *)
  Context {World : Type}.

  (** [getAccessToken(action1, logger)] of the platform client. *)
  Variable getAction1AccessToken :
    JsRecord -> World -> (Thrown + JsValue) * World.
  (** [listDevicesWithGroups(tenant, logger)] *)
  Variable listDevicesWithGroups :
    Tenant -> World -> (Thrown + list JsRecord) * World.
  (** [listManagedEndpoints(action1, token, orgId, { limit }, logger)] *)
  Variable listManagedEndpoints :
    JsRecord -> JsValue -> string -> Z -> World ->
    (Thrown + list JsRecord) * World.
  (** [patchManagedEndpoint(action1, token, orgId, endpointId, patch, logger)];
      the record it returns is not used. *)
  Variable patchManagedEndpoint :
    JsRecord -> JsValue -> string -> JsValue -> JsRecord -> World ->
    (Thrown + unit) * World.
  (** [process.env.CACHE_KEY_INCLUDE_TENANT_NAME === '1'] *)
  Variable includeName : bool.

  (** The world, the calls made so far, and the variables of [runSync] that
      the job loop updates. *)
Record RunState := {
    world : World;
    trace : list Event;
    jobResults : list JobResult;
    entraDevicesCache : option (gmap string (list JsRecord));
    totalPlannedPatches : Z;
    totalAppliedPatches : Z;
  }.

  (** A computation that may throw; the state it leaves is kept either
      way. *)
Definition M (A : Type) : Type := RunState -> (Thrown + A) * RunState.

Definition ret {A : Type} (a : A) : M A := fun st => (inr a, st).

Definition bind {A B : Type} (m : M A) (k : A -> M B) : M B :=
    fun st =>
      match m st with
      | (inl e, st') => (inl e, st')
      | (inr a, st') => k a st'
      end.

Definition throw {A : Type} (e : Thrown) : M A := fun st => (inl e, st).

  (** [try { m } catch (err) { ... }]: what [m] threw is handed over as a
      value. *)
Definition try_ {A : Type} (m : M A) : M (Thrown + A) :=
    fun st => let '(r, st') := m st in (inr r, st').

Definition gets {A : Type} (f : RunState -> A) : M A :=
    fun st => (inr (f st), st).

Definition modify (f : RunState -> RunState) : M unit :=
    fun st => (inr tt, f st).

  Declare Scope sync_scope.
  Delimit Scope sync_scope with sync.
  Notation "x <- m ;; k" := (bind m (fun x => k))
    (at level 100, m at next level, right associativity) : sync_scope.
  Notation "m ;; k" := (bind m (fun _ => k))
    (at level 100, right associativity) : sync_scope.
  Local Open Scope sync_scope.

Definition with_world (st : RunState) (w : World) (e : Event) : RunState :=
    {| world := w;
       trace := trace st ++ [e];
       jobResults := jobResults st;
       entraDevicesCache := entraDevicesCache st;
       totalPlannedPatches := totalPlannedPatches st;
       totalAppliedPatches := totalAppliedPatches st |}.

Definition callGetToken (a1 : JsRecord) : M JsValue :=
    fun st =>
      let '(r, w) := getAction1AccessToken a1 (world st) in
      (r, with_world st w (EvGetToken (failure_of r))).

Definition callListDevices (t : Tenant) : M (list JsRecord) :=
    fun st =>
      let '(r, w) := listDevicesWithGroups t (world st) in
      (r, with_world st w (EvListDevices t (failure_of r))).

Definition callListEndpoints (a1 : JsRecord) (token : JsValue)
      (org : string) (limit : Z) : M (list JsRecord) :=
    fun st =>
      let '(r, w) := listManagedEndpoints a1 token org limit (world st) in
      (r, with_world st w (EvListEndpoints org limit (failure_of r))).

Definition callPatch (a1 : JsRecord) (token : JsValue) (org : string)
      (id : JsValue) (body : JsRecord) : M unit :=
    fun st =>
      let '(r, w) := patchManagedEndpoint a1 token org id body (world st) in
      (r, with_world st w (EvPatch org id body (failure_of r))).

Definition cacheSet (key : string) (devices : list JsRecord) : M unit :=
    modify (fun st =>
      {| world := world st;
         trace := trace st;
         jobResults := jobResults st;
         entraDevicesCache := insert key devices <$> entraDevicesCache st;
         totalPlannedPatches := totalPlannedPatches st;
         totalAppliedPatches := totalAppliedPatches st |}).

Definition addPlanned (n : Z) : M unit :=
    modify (fun st =>
      {| world := world st;
         trace := trace st;
         jobResults := jobResults st;
         entraDevicesCache := entraDevicesCache st;
         totalPlannedPatches := totalPlannedPatches st + n;
         totalAppliedPatches := totalAppliedPatches st |}).

Definition addApplied (n : Z) : M unit :=
    modify (fun st =>
      {| world := world st;
         trace := trace st;
         jobResults := jobResults st;
         entraDevicesCache := entraDevicesCache st;
         totalPlannedPatches := totalPlannedPatches st;
         totalAppliedPatches := totalAppliedPatches st + n |}).

Definition pushResult (r : JobResult) : M unit :=
    modify (fun st =>
      {| world := world st;
         trace := trace st;
         jobResults := jobResults st ++ [r];
         entraDevicesCache := entraDevicesCache st;
         totalPlannedPatches := totalPlannedPatches st;
         totalAppliedPatches := totalAppliedPatches st |}).

  Section Run.

    Variable config : Config.
    Variable opts : SyncOptions.
    Variable action1Token : JsValue.

    (** Step 1 of a job: the directory devices, from the cache when there
        is one.  A cached array is truthy even when empty. *)
Definition fetchEntraDevices (job : SyncJob) : M (list JsRecord) :=
      cache <- gets entraDevicesCache ;;
      match cache with
      | None => callListDevices (tenant job)
      | Some cache =>
          let tenantKey := tenantCacheKey includeName (tenant job) in
          match cache !! tenantKey with
          | Some entraDevices => ret entraDevices
          | None =>
              entraDevices <- callListDevices (tenant job) ;;
              cacheSet tenantKey entraDevices ;;
              ret entraDevices
          end
      end.

    (** The [try] block around one patch.  [true]: the patch was sent and
        counted; [false]: its body was empty and it was skipped.  A patch
        item is a record with a record as body, so of the validity test only
        [!p.endpointId] can fire. *)
Definition applyPatch (job : SyncJob) (p : PatchItem) : M bool :=
      if negb (truthy (endpointId p))
      then throw (ThrownError "Error"
                    "Invalid patch item: missing endpointId or patch object")
      else if (size (patch p) =? 0)%nat then ret false
      else
        callPatch (action1 config) action1Token (organizationId job)
                  (endpointId p) (patch p) ;;
        addApplied 1 ;;
        ret true.

    (** The loop over [patchesToProcess]; [applied] and [patchErrors] are
        the two arrays it fills. *)
Fixpoint patchLoop (job : SyncJob) (patchesToProcess : list PatchItem)
        (applied : list JsValue) (patchErrors : list PatchError)
      : M (list JsValue * list PatchError) :=
      match patchesToProcess with
      | [] => ret (applied, patchErrors)
      | p :: rest =>
          r <- try_ (applyPatch job p) ;;
          match r with
          | inr true => patchLoop job rest (applied ++ [endpointId p]) patchErrors
          | inr false => patchLoop job rest applied patchErrors
          | inl err =>
              let msg := errMsg err in
              let patchErrors :=
                patchErrors ++ [{| pe_endpointId := endpointId p;
                                   pe_error := msg |}] in
              if stopOnPatchError opts then ret (applied, patchErrors)
              else patchLoop job rest applied patchErrors
          end
      end.

    (** The [try] block of one job. *)
Definition jobBody (job : SyncJob) : M unit :=
      (* 1) Fetch Entra devices (with groups) *)
      entraDevices <- fetchEntraDevices job ;;
      (* 2) Fetch Action1 endpoints *)
      endpoints <- callListEndpoints (action1 config) action1Token
                     (organizationId job) (endpointPageSize opts) ;;
      (* 3) Map -> patches *)
      let mappingResult :=
        mapDevicesToPatches entraDevices endpoints (mappings job) in
      let planned := Z.of_nat (length (mr_patches mappingResult)) in
      addPlanned planned ;;
      (* Safety limits *)
      totalApplied <- gets totalAppliedPatches ;;
      let limited := safetyLimits opts totalApplied (mr_patches mappingResult) in
      let patchesToProcess := fst limited in
      let limitedBy := snd limited in
      (* 4) Apply patches (or dry run) *)
      out <- (if dryRun opts then ret ([], [])
              else patchLoop job patchesToProcess [] []) ;;
      let applied := fst out in
      let patchErrors := snd out in
      pushResult (JobOk
        {| jr_tenantName := tenant_name (tenant job);
           jr_organizationId := organizationId job;
           jr_entraDevices := Z.of_nat (length entraDevices);
           jr_action1Endpoints := Z.of_nat (length endpoints);
           jr_matched := Z.of_nat (length (mr_matched mappingResult));
           jr_unmatchedEntra := Z.of_nat (length (mr_unmatchedEntra mappingResult));
           jr_ambiguous := Z.of_nat (length (mr_ambiguous mappingResult));
           jr_patchesPlanned := planned;
           jr_patchesToProcess := Z.of_nat (length patchesToProcess);
           jr_patchesApplied :=
             if dryRun opts then 0 else Z.of_nat (length applied);
           jr_patchErrors := patchErrors;
           jr_limitedBy := limitedBy;
           jr_dryRun := dryRun opts;
           jr_samplePatches := slice0 (mr_patches mappingResult) 3 |}).

    (** One turn of the job loop: the [try] block and its [catch].  The
        answer is [false] when the loop is left by [break]. *)
Definition jobIteration (job : SyncJob) : M bool :=
      r <- try_ (jobBody job) ;;
      match r with
      | inr _ => ret true
      | inl err =>
          let msg := errMsg err in
          pushResult (JobFailed
            {| jf_tenantName := tenant_name (tenant job);
               jf_organizationId := organizationId job;
               jf_error := msg;
               jf_dryRun := dryRun opts |}) ;;
          if stopOnJobError opts then ret false else ret true
      end.

Fixpoint jobLoop (jobs : list SyncJob) : M unit :=
      match jobs with
      | [] => ret tt
      | job :: rest =>
          continue <- jobIteration job ;;
          if continue then jobLoop rest else ret tt
      end.

  End Run.

  (** The variables [runSync] declares before the job loop. *)
Definition initLocals (opts : SyncOptions) : M unit :=
    modify (fun st =>
      {| world := world st;
         trace := trace st;
         jobResults := [];
         entraDevicesCache :=
           if cacheEntraDevices opts then Some ∅ else None;
         totalPlannedPatches := 0;
         totalAppliedPatches := 0 |}).

Definition runSync (config : Config) (options : RawOptions) : M Summary :=
    let opts := normalizeOptions options in
    let jobs := getSyncJobs config in
    (* Shared Action1 token across all jobs *)
    action1Token <- callGetToken (action1 config) ;;
    initLocals opts ;;
    jobLoop config opts action1Token jobs ;;
    st <- gets (fun st => st) ;;
    ret {| sum_dryRun := dryRun opts;
           sum_jobs := Z.of_nat (length jobs);
           sum_totalPlannedPatches := totalPlannedPatches st;
           sum_totalAppliedPatches := totalAppliedPatches st;
           sum_results := jobResults st |}.

  (** The state in which a run starts: no call made yet. *)
Definition startState (w : World) : RunState :=
    {| world := w;
       trace := [];
       jobResults := [];
       entraDevicesCache := None;
       totalPlannedPatches := 0;
       totalAppliedPatches := 0 |}.

End SyncEngine.


(** ** index.js: the run mode of the command line *)

(** What [parseArgs] returns, as far as the run uses it.  The flags are
    booleans: [parseArgs] sets them to [true] or [false] only.  A numeric
    argument is [JsUndefined] when it was not given. *)
Record ParsedArgs := {
  parsed_dryRun : bool;
  parsed_cacheEntraDevices : bool;
  parsed_maxPatchesPerJob : JsValue;
  parsed_maxTotalPatches : JsValue;
  parsed_endpointPageSize : JsValue;
  parsed_stopOnJobError : bool;
  parsed_stopOnPatchError : bool;
}.

(** [Number.isFinite(n) && n > 0 && Number.isInteger(n)] *)
Definition isFinitePositiveInt (n : JsValue) : bool :=
  match n with
  | JsNum z => 0 <? z
  | _ => false
  end.

(** [v !== undefined] *)
Definition is_defined (v : JsValue) : bool :=
  match v with
  | JsUndefined => false
  | _ => true
  end.

(** The validation of the numeric arguments in [main]: the message printed
    before [process.exit(1)], if any. *)
Definition checkNumericArgs (parsed : ParsedArgs) : option string :=
  if is_defined (parsed_maxPatchesPerJob parsed)
     && negb (isFinitePositiveInt (parsed_maxPatchesPerJob parsed))
  then Some "Error: --max-patches-per-job must be a positive integer"
  else if is_defined (parsed_maxTotalPatches parsed)
          && negb (isFinitePositiveInt (parsed_maxTotalPatches parsed))
  then Some "Error: --max-total-patches must be a positive integer"
  else if is_defined (parsed_endpointPageSize parsed)
          && negb (isFinitePositiveInt (parsed_endpointPageSize parsed))
  then Some "Error: --endpoint-page-size must be a positive integer"
  else None.

Definition MAX_SAFE_INTEGER : Z := 9007199254740991.

(** The options [main] hands to [runSync]: in apply mode the two limits
    are lifted unless the user gave them. *)
Definition cliOptions (parsed : ParsedArgs) : RawOptions :=
  let isApply := negb (parsed_dryRun parsed) in
  {| raw_dryRun := JsBool (parsed_dryRun parsed);
     raw_cacheEntraDevices := JsBool (parsed_cacheEntraDevices parsed);
     raw_maxPatchesPerJob :=
       if is_defined (parsed_maxPatchesPerJob parsed)
       then parsed_maxPatchesPerJob parsed
       else if isApply then JsNum MAX_SAFE_INTEGER else JsUndefined;
     raw_maxTotalPatches :=
       if is_defined (parsed_maxTotalPatches parsed)
       then parsed_maxTotalPatches parsed
       else if isApply then JsNum MAX_SAFE_INTEGER else JsUndefined;
     raw_stopOnJobError := JsBool (parsed_stopOnJobError parsed);
     raw_stopOnPatchError := JsBool (parsed_stopOnPatchError parsed);
     raw_endpointPageSize := parsed_endpointPageSize parsed |}.

(** [r.error] and [r.patchErrors?.length] of a job result. *)
Definition resultError (r : JobResult) : JsValue :=
  match r with
  | JobFailed f => JsStr (jf_error f)
  | JobOk _ => JsUndefined
  end.

Definition patchErrorsLength (r : JobResult) : option Z :=
  match r with
  | JobOk d => Some (Z.of_nat (length (jr_patchErrors d)))
  | JobFailed _ => None
  end.

(** The object [main] prints under RUN SUMMARY. *)
Record CliReport := {
  rep_dryRun : bool;
  rep_jobs : Z;
  rep_jobsFailed : Z;
  rep_patchesPlanned : Z;
  rep_patchesApplied : Z;
  rep_patchErrors : Z;
}.

Definition cliReport (summary : Summary) : CliReport :=
  let planned :=
    foldl (fun acc r => acc + default 0 (patchesPlanned r)) 0
          (sum_results summary) in
  let applied :=
    foldl (fun acc r => acc + default 0 (patchesApplied r)) 0
          (sum_results summary) in
  let jobsFailed :=
    Z.of_nat (length (filter (fun r => truthy (resultError r) = true)
                             (sum_results summary))) in
  let patchErrors :=
    foldl (fun acc r => acc + default 0 (patchErrorsLength r)) 0
          (sum_results summary) in
  {| rep_dryRun := sum_dryRun summary;
     rep_jobs := sum_jobs summary;
     rep_jobsFailed := jobsFailed;
     rep_patchesPlanned := planned;
     rep_patchesApplied := applied;
     rep_patchErrors := patchErrors |}.

(** The exit code of a run that got its summary: 2 if a job failed, 3 if a
    patch failed when applying, 0 when [main] returns. *)
Definition exitCode (summary : Summary) : Z :=
  let report := cliReport summary in
  if rep_jobsFailed report >? 0 then 2
  else if negb (sum_dryRun summary) && (rep_patchErrors report >? 0) then 3
  else 0.
(** ** Vocabulary of the properties *)

(** A string that does not begin with white space. *)
Definition no_lead_space (s : string) : Prop :=
  match s with
  | EmptyString => True
  | String c _ => is_space c = false
  end.

(** The value a mapping reads off a device. *)
Definition sourceValue (entraDevice : JsRecord) (m : Mapping) : JsValue :=
  getProp entraDevice (toStringJs (entraProperty m)).

(** The values the patch builder filters: [null], [undefined], and strings
    that are empty or white space only. *)
Definition is_blank (value : JsValue) : bool :=
  match value with
  | JsNull | JsUndefined => true
  | _ => is_blank_string value
  end.

(** The mapping names a directory property and a platform attribute that
    gives a key. *)
Definition well_formed_mapping (m : Mapping) : bool :=
  truthy (entraProperty m) && negb (is_empty (toCustomKey (action1CustomAttribute m))).

(** The mapping passes every test of the loop body for this device. *)
Definition writes (entraDevice : JsRecord) (m : Mapping) : bool :=
  well_formed_mapping m && negb (is_blank (sourceValue entraDevice m)).

(** [dev?.displayName || ''] and its normal form, the key of Phase 1. *)
Definition displayNameOf (dev : JsRecord) : JsValue :=
  js_or (getProp dev "displayName") (JsStr "").

Definition fullKeyOf (dev : JsRecord) : string :=
  normalizeName (displayNameOf dev).

Definition shortKeyOf (dev : JsRecord) : string :=
  normalizeShortName (displayNameOf dev).

(** The endpoints whose normalized full name is [k]. *)
Definition endpointsNamed (k : string) (endpoints : list JsRecord) : list JsRecord :=
  filter (fun ep => normalizeName (getAction1EndpointName ep) = k) endpoints.

(** The devices of the three buckets. *)
Definition devicesOf (r : MatchResult) : list JsRecord :=
  map pair_entraDevice (matched r) ++ unmatchedEntra r
    ++ map amb_entraDevice (ambiguous r).

(** A lookup that gives no candidate. *)
Definition no_candidates (o : option (list JsRecord)) : Prop :=
  o = None \/ o = Some [].

(** The full-name table lists two or more endpoints for the device. *)
Definition full_duplicate (fullIndex : EndpointIndex) (dev : JsRecord) : Prop :=
  exists cands, fullIndex !! fullKeyOf dev = Some cands /\ (2 <= length cands)%nat.

(** The six ways a turn of the matching loop can end. *)
Inductive StepShape (fullIndex shortIndex : EndpointIndex)
    (r : MatchResult) (dev : JsRecord) : MatchResult -> Prop :=
| shape_no_name :
    fullKeyOf dev = "" ->
    StepShape fullIndex shortIndex r dev (push_unmatched r dev)
| shape_duplicate_full cands :
    fullKeyOf dev <> "" ->
    fullIndex !! fullKeyOf dev = Some cands -> (2 <= length cands)%nat ->
    StepShape fullIndex shortIndex r dev
      (push_ambiguous r {| amb_entraDevice := dev; amb_candidates := cands;
                           amb_reason := "duplicate_full" |})
| shape_full ep :
    fullKeyOf dev <> "" ->
    fullIndex !! fullKeyOf dev = Some [ep] ->
    StepShape fullIndex shortIndex r dev
      (push_matched r {| pair_entraDevice := dev; pair_endpoint := ep;
                         pair_matchType := "full" |})
| shape_duplicate_short cands :
    fullKeyOf dev <> "" ->
    no_candidates (fullIndex !! fullKeyOf dev) ->
    shortIndex !! shortKeyOf dev = Some cands -> (2 <= length cands)%nat ->
    StepShape fullIndex shortIndex r dev
      (push_ambiguous r {| amb_entraDevice := dev; amb_candidates := cands;
                           amb_reason := "duplicate_short" |})
| shape_short ep :
    fullKeyOf dev <> "" ->
    no_candidates (fullIndex !! fullKeyOf dev) ->
    shortIndex !! shortKeyOf dev = Some [ep] ->
    StepShape fullIndex shortIndex r dev
      (push_matched r {| pair_entraDevice := dev; pair_endpoint := ep;
                         pair_matchType := "short" |})
| shape_none :
    fullKeyOf dev <> "" ->
    no_candidates (fullIndex !! fullKeyOf dev) ->
    no_candidates (shortIndex !! shortKeyOf dev) ->
    StepShape fullIndex shortIndex r dev (push_unmatched r dev).

(** What holds of the entries of each bucket. *)
Definition matched_ok (fullIndex : EndpointIndex) (p : MatchedPair) : Prop :=
  fullKeyOf (pair_entraDevice p) <> ""
  /\ ~ full_duplicate fullIndex (pair_entraDevice p).

Definition unmatched_ok (fullIndex : EndpointIndex) (dev : JsRecord) : Prop :=
  ~ full_duplicate fullIndex dev.

Definition ambiguous_ok (fullIndex : EndpointIndex) (a : AmbiguousEntry) : Prop :=
  fullKeyOf (amb_entraDevice a) <> ""
  /\ forall cands,
       fullIndex !! fullKeyOf (amb_entraDevice a) = Some cands ->
       (2 <= length cands)%nat ->
       amb_candidates a = cands /\ amb_reason a = "duplicate_full".

Definition buckets_ok (fullIndex : EndpointIndex) (r : MatchResult) : Prop :=
  Forall (matched_ok fullIndex) (matched r)
  /\ Forall (unmatched_ok fullIndex) (unmatchedEntra r)
  /\ Forall (ambiguous_ok fullIndex) (ambiguous r).

(** An index built by one of the two loops of the mapper, for either key. *)
Definition indexBy (keyOf : JsValue -> string) (index0 : EndpointIndex)
    (endpoints : list JsRecord) : EndpointIndex :=
  foldl (fun index ep =>
           let name := getAction1EndpointName ep in
           let key := keyOf name in
           if is_empty key then index else pushIndex key ep index)
        index0 endpoints.

(** What a job result adds to the two totals; a failed job has neither
    count, and adds nothing ([r.patchesPlanned || 0]). *)
Definition sumPlanned (rs : list JobResult) : Z :=
  foldr (fun r acc => default 0 (patchesPlanned r) + acc) 0 rs.

Definition sumApplied (rs : list JobResult) : Z :=
  foldr (fun r acc => default 0 (patchesApplied r) + acc) 0 rs.

(** The calls of [patchManagedEndpoint] that returned. *)
Definition countPatchOk (evs : list Event) : Z :=
  foldr (fun e acc => (if is_patch_ok e then 1 else 0) + acc) 0 evs.

Definition countPatchCalls (evs : list Event) : Z :=
  foldr (fun e acc => (if is_patch_call e then 1 else 0) + acc) 0 evs.

(** The tenant and organization a result, or a job, is about. *)
Definition resultIdentity (r : JobResult) : string * string :=
  (resultTenantName r, resultOrganizationId r).

Definition jobIdentity (job : SyncJob) : string * string :=
  (tenant_name (tenant job), organizationId job).

(** A failed call has its entry in the results: a failed patch in the
    [patchErrors] of a job result, a failed listing in a failed-job result. *)
Definition failure_recorded (rs : list JobResult) (e : Event) : Prop :=
  match e with
  | EvPatch _ id _ (Some err) =>
      exists d, JobOk d ∈ rs
                /\ {| pe_endpointId := id; pe_error := errMsg err |} ∈ jr_patchErrors d
  | EvListDevices _ (Some err) | EvListEndpoints _ _ (Some err) =>
      exists f, JobFailed f ∈ rs /\ jf_error f = errMsg err
  | _ => True
  end.

(** A failed-job result and nothing else: the four properties of the
    [catch] block. *)
Definition minimalResult (job : SyncJob) (opts : SyncOptions) (err : Thrown)
  : JobResult :=
  JobFailed {| jf_tenantName := tenant_name (tenant job);
               jf_organizationId := organizationId job;
               jf_error := errMsg err;
               jf_dryRun := dryRun opts |}.

(** The calls of a fetch: no patch, and a failed one is what the fetch
    threw. *)
Definition fetch_event {A : Type} (r : Thrown + A) (e : Event) : Prop :=
  is_patch_call e = false
  /\ match e with
     | EvListDevices _ (Some err) | EvListEndpoints _ _ (Some err) =>
         r = inl err
     | _ => True
     end.

(** The calls of the patch loop: patches only, and a failed one has its
    entry among the errors the loop recorded. *)
Definition patch_event (errs : list PatchError) (e : Event) : Prop :=
  match e with
  | EvPatch _ id _ (Some err) =>
      {| pe_endpointId := id; pe_error := errMsg err |} ∈ errs
  | EvPatch _ _ _ None => True
  | _ => False
  end.

(** The result of a job that got through its fetches shows the safety
    limits at work: its counts are those of a planned list cut by
    [safetyLimits] with [total] patches applied before the job. *)
Definition job_limited (opts : SyncOptions) (total : Z) (r : JobResult) : Prop :=
  match r with
  | JobOk d =>
      exists planned : list PatchItem,
        jr_patchesPlanned d = Z.of_nat (length planned)
        /\ jr_patchesToProcess d
           = Z.of_nat (length (fst (safetyLimits opts total planned)))
        /\ jr_limitedBy d = snd (safetyLimits opts total planned)
        /\ 0 <= jr_patchesApplied d <= jr_patchesToProcess d
  | JobFailed _ => True
  end.

(** The same for the results of consecutive jobs, the first of which
    started with [total] patches applied. *)
Fixpoint limits_ok (opts : SyncOptions) (total : Z) (rs : list JobResult) : Prop :=
  match rs with
  | [] => True
  | r :: rest =>
      job_limited opts total r
      /\ limits_ok opts (total + default 0 (patchesApplied r)) rest
  end.

Section RunVocabulary.

  Context {World : Type}.
  Variable listDevicesWithGroups :
    Tenant -> World -> (Thrown + list JsRecord) * World.
  Variable listManagedEndpoints :
    JsRecord -> JsValue -> string -> Z -> World ->
    (Thrown + list JsRecord) * World.
  Variable patchManagedEndpoint :
    JsRecord -> JsValue -> string -> JsValue -> JsRecord -> World ->
    (Thrown + unit) * World.
  Variable includeName : bool.
  Variable config : Config.
  Variable opts : SyncOptions.
  Variable action1Token : JsValue.

  (** Steps 1 and 2 of a job: the two fetches that may throw. *)
Definition fetchStage (job : SyncJob) : M (list JsRecord * list JsRecord) :=
    bind (fetchEntraDevices listDevicesWithGroups includeName job)
      (fun entraDevices =>
         bind (callListEndpoints listManagedEndpoints (action1 config)
                 action1Token (organizationId job) (endpointPageSize opts))
           (fun endpoints => ret (entraDevices, endpoints))).

  (** The patches a job plans from what it fetched. *)
Definition plannedPatches (job : SyncJob)
      (entraDevices endpoints : list JsRecord) : list PatchItem :=
    mr_patches (mapDevicesToPatches entraDevices endpoints (mappings job)).

  (** The variables of the job loop are as before; only the world, the
      trace and the cache moved on. *)
Definition same_totals (st st' : @RunState World) : Prop :=
    jobResults st' = jobResults st
    /\ totalPlannedPatches st' = totalPlannedPatches st
    /\ totalAppliedPatches st' = totalAppliedPatches st.

  (** Steps 3 and 4 of a job, and its result: what follows the two
      fetches in the [try] block. *)
Definition applyStage (job : SyncJob)
      (entraDevices endpoints : list JsRecord) : M unit :=
    let mappingResult :=
      mapDevicesToPatches entraDevices endpoints (mappings job) in
    let planned := Z.of_nat (length (mr_patches mappingResult)) in
    bind (addPlanned planned) (fun _ =>
    bind (gets totalAppliedPatches) (fun totalApplied =>
    let limited := safetyLimits opts totalApplied (mr_patches mappingResult) in
    let patchesToProcess := fst limited in
    let limitedBy := snd limited in
    bind (if dryRun opts then ret ([], [])
          else patchLoop patchManagedEndpoint config opts action1Token
                 job patchesToProcess [] [])
      (fun out =>
    let applied := fst out in
    let patchErrors := snd out in
    pushResult (JobOk
      {| jr_tenantName := tenant_name (tenant job);
         jr_organizationId := organizationId job;
         jr_entraDevices := Z.of_nat (length entraDevices);
         jr_action1Endpoints := Z.of_nat (length endpoints);
         jr_matched := Z.of_nat (length (mr_matched mappingResult));
         jr_unmatchedEntra := Z.of_nat (length (mr_unmatchedEntra mappingResult));
         jr_ambiguous := Z.of_nat (length (mr_ambiguous mappingResult));
         jr_patchesPlanned := planned;
         jr_patchesToProcess := Z.of_nat (length patchesToProcess);
         jr_patchesApplied :=
           if dryRun opts then 0 else Z.of_nat (length applied);
         jr_patchErrors := patchErrors;
         jr_limitedBy := limitedBy;
         jr_dryRun := dryRun opts;
         jr_samplePatches := slice0 (mr_patches mappingResult) 3 |})))).

  (** What a run, or a part of it, did to the state: the results [rs] it
      pushed and the calls [evs] it made. *)
Record Effect (st st' : @RunState World)
      (rs : list JobResult) (evs : list Event) : Prop := {
    eff_results : jobResults st' = jobResults st ++ rs;
    eff_trace : trace st' = trace st ++ evs;
    eff_planned :
      totalPlannedPatches st' = totalPlannedPatches st + sumPlanned rs;
    eff_applied :
      totalAppliedPatches st' = totalAppliedPatches st + sumApplied rs;
    eff_dispatched : sumApplied rs = countPatchOk evs;
    eff_limit :
      totalAppliedPatches st <= maxTotalPatches opts ->
      totalAppliedPatches st' <= maxTotalPatches opts;
    eff_dry_calls : dryRun opts = true -> countPatchCalls evs = 0;
    eff_dry_results :
      dryRun opts = true ->
      forall d, JobOk d ∈ rs -> jr_patchesApplied d = 0;
    eff_failures : Forall (failure_recorded rs) evs;
    eff_limits : limits_ok opts (totalAppliedPatches st) rs;
  }.

End RunVocabulary.

(** The state in which the job loop starts: the token was acquired by the
    first call, and the variables of [runSync] are as declared. *)
Definition loopStart {World : Type} (opts : SyncOptions) (w : World)
  : @RunState World :=
  {| world := w;
     trace := [EvGetToken None];
     jobResults := [];
     entraDevicesCache := if cacheEntraDevices opts then Some ∅ else None;
     totalPlannedPatches := 0;
     totalAppliedPatches := 0 |}.

(** The entry [patchErrors] gets for a patch item. *)
Definition patchErrorOf (p : PatchItem) (msg : string) : PatchError :=
  {| pe_endpointId := endpointId p; pe_error := msg |}.

Definition invalidItemMessage : string :=
  "Invalid patch item: missing endpointId or patch object".

(** What the patch loop does with the list [patchesToProcess] it is handed,
    item by item from the first: the calls it makes for the organization
    [org], the endpoint ids it counts as applied, and the entries it adds to
    [patchErrors].  An item without endpoint id is an error without a call;
    an item with an empty body is skipped; a call that throws is an error;
    after an error the loop stops when [stopOnPatchError] is set. *)
Inductive PatchRun (opts : SyncOptions) (org : string)
  : list PatchItem -> list Event -> list JsValue -> list PatchError -> Prop :=
| run_done :
    PatchRun opts org [] [] [] []
| run_invalid_stop p rest :
    truthy (endpointId p) = false ->
    stopOnPatchError opts = true ->
    PatchRun opts org (p :: rest) [] [] [patchErrorOf p invalidItemMessage]
| run_invalid_next p rest evs applied errs :
    truthy (endpointId p) = false ->
    stopOnPatchError opts = false ->
    PatchRun opts org rest evs applied errs ->
    PatchRun opts org (p :: rest) evs applied
      (patchErrorOf p invalidItemMessage :: errs)
| run_empty p rest evs applied errs :
    truthy (endpointId p) = true ->
    patch p = ∅ ->
    PatchRun opts org rest evs applied errs ->
    PatchRun opts org (p :: rest) evs applied errs
| run_applied p rest evs applied errs :
    truthy (endpointId p) = true ->
    patch p <> ∅ ->
    PatchRun opts org rest evs applied errs ->
    PatchRun opts org (p :: rest)
      (EvPatch org (endpointId p) (patch p) None :: evs)
      (endpointId p :: applied) errs
| run_refused_stop p rest err :
    truthy (endpointId p) = true ->
    patch p <> ∅ ->
    stopOnPatchError opts = true ->
    PatchRun opts org (p :: rest)
      [EvPatch org (endpointId p) (patch p) (Some err)] []
      [patchErrorOf p (errMsg err)]
| run_refused_next p rest err evs applied errs :
    truthy (endpointId p) = true ->
    patch p <> ∅ ->
    stopOnPatchError opts = false ->
    PatchRun opts org rest evs applied errs ->
    PatchRun opts org (p :: rest)
      (EvPatch org (endpointId p) (patch p) (Some err) :: evs) applied
      (patchErrorOf p (errMsg err) :: errs).

(** A patch item without endpoint id among the patches to process is on
    record: with [stopOnPatchError] the loop may have stopped before it, at
    an earlier error, so some error is recorded; without, its own entry
    is. *)
Definition invalid_items_recorded (opts : SyncOptions)
    (todo : list PatchItem) (d : JobDone) : Prop :=
  forall p, p ∈ todo -> truthy (endpointId p) = false ->
    if stopOnPatchError opts
    then jr_patchErrors d <> []
    else patchErrorOf p invalidItemMessage ∈ jr_patchErrors d.

(** What a job that got through its two fetches shows of its patch phase:
    in a dry run no call and no error; otherwise the patch loop on [todo],
    the patches to process. *)
Definition patchPhase (opts : SyncOptions) (org : string)
    (todo : list PatchItem) (evs : list Event) (d : JobDone) : Prop :=
  if dryRun opts
  then evs = [] /\ jr_patchErrors d = [] /\ jr_patchesApplied d = 0
  else exists applied,
         PatchRun opts org todo evs applied (jr_patchErrors d)
         /\ jr_patchesApplied d = Z.of_nat (length applied).

(** ** A small world for the examples

    One tenant, machines named [pc-0], [pc-1], ... known to the directory and
    to the platform under the same names, a platform that accepts every
    patch, and an organization whose endpoint listing can be made to fail. *)
Module Sample.

Definition device (name : string) : JsRecord :=
    <["displayName" := JsStr name]> (<["memberOf" := JsStr "Laptops"]> ∅).

Definition endpoint (name : string) : JsRecord :=
    <["id" := JsStr ("id-" +:+ name)]> (<["name" := JsStr name]> ∅).

Definition machines (n : nat) : list string :=
    map (fun i => "pc-" +:+ of_Z (Z.of_nat i)) (seq 0 n).

Definition devices (n : nat) : list JsRecord := map device (machines n).

Definition endpoints (n : nat) : list JsRecord := map endpoint (machines n).

Definition groupMapping : Mapping :=
    {| entraProperty := JsStr "memberOf";
       action1CustomAttribute := JsStr "Entra Groups" |}.

Definition contoso (orgs : list string) : Tenant :=
    {| tenant_name := "Contoso";
       tenantId := "tenant-1";
       clientId := "app-1";
       targets := [{| organizationIds := orgs;
                      target_mappings := [groupMapping] |}] |}.

Definition config (orgs : list string) : Config :=
    {| action1 := ∅; tenants := [contoso orgs] |}.

Definition options (dry perJob total : JsValue) : RawOptions :=
    {| raw_dryRun := dry;
       raw_cacheEntraDevices := JsUndefined;
       raw_maxPatchesPerJob := perJob;
       raw_maxTotalPatches := total;
       raw_stopOnJobError := JsUndefined;
       raw_stopOnPatchError := JsUndefined;
       raw_endpointPageSize := JsUndefined |}.

Definition getToken (a1 : JsRecord) (w : unit) : (Thrown + JsValue) * unit :=
    (inr (JsStr "token"), w).

Definition listDevices (n : nat) (t : Tenant) (w : unit)
    : (Thrown + list JsRecord) * unit :=
    (inr (devices n), w).

  (** The listing of the organization [failing] throws. *)
Definition listEndpoints (n : nat) (failing : string)
      (a1 : JsRecord) (token : JsValue) (org : string) (limit : Z) (w : unit)
    : (Thrown + list JsRecord) * unit :=
    if String.eqb org failing
    then (inl (ThrownError "Error" "listing failed"), w)
    else (inr (endpoints n), w).

Definition patchOk (a1 : JsRecord) (token : JsValue) (org : string)
      (id : JsValue) (body : JsRecord) (w : unit) : (Thrown + unit) * unit :=
    (inr tt, w).

  (** A run over [n] machines and the organizations [orgs]. *)
Definition run (n : nat) (failing : string) (orgs : list string)
      (opts : RawOptions) : (Thrown + Summary) * @RunState unit :=
    runSync getToken (listDevices n) (listEndpoints n failing) patchOk false
      (config orgs) opts (startState tt).

End Sample.

(** ** Vocabulary of the further properties *)

(** The endpoints whose normalized short name is [k]. *)
Definition endpointsShortNamed (k : string) (endpoints : list JsRecord)
  : list JsRecord :=
  filter (fun ep => normalizeShortName (getAction1EndpointName ep) = k) endpoints.

(** What one device adds to the buckets: a turn of the matching loop on
    empty buckets. *)
Definition classifyDevice (fullIndex shortIndex : EndpointIndex)
    (dev : JsRecord) : MatchResult :=
  matchStep fullIndex shortIndex emptyMatchResult dev.

(** Bucket by bucket, the entries of [r] followed by those of [r']. *)
Definition appendResults (r r' : MatchResult) : MatchResult :=
  {| matched := matched r ++ matched r';
     unmatchedEntra := unmatchedEntra r ++ unmatchedEntra r';
     ambiguous := ambiguous r ++ ambiguous r' |}.

(** The patch item [mapDevicesToPatches] makes of a matched pair, if the
    pair gives a patch. *)
Definition patchItemOf (mappings : list Mapping) (pair : MatchedPair)
  : option PatchItem :=
  match buildEndpointPatch (pair_entraDevice pair) mappings with
  | None => None
  | Some body =>
      Some {| endpointId := getProp (pair_endpoint pair) "id";
              endpointName := getAction1EndpointName (pair_endpoint pair);
              entraName := getProp (pair_entraDevice pair) "displayName";
              matchType := pair_matchType pair;
              patch := body |}
  end.

(** Every key of a patch body is a custom-attribute key. *)
Definition custom_keys (body : JsRecord) : Prop :=
  forall k, is_Some (body !! k) -> startsWith (toLowerCase k) "custom:" = true.


(** ** Vocabulary of the further properties of a run *)

(** A patch item whose body has a key, and custom-attribute keys only. *)
Definition body_ok (p : PatchItem) : Prop :=
  patch p <> ∅ /\ custom_keys (patch p).

(** The calls a job may make: the directory of its tenant, the endpoints of
    its organization with the configured page size and, outside a dry run,
    patches of its organization that name an endpoint and carry a body of
    custom attributes that is not empty.  A job asks for no token. *)
Definition job_event (opts : SyncOptions) (job : SyncJob) (e : Event) : Prop :=
  match e with
  | EvGetToken _ => False
  | EvListDevices t _ => t = tenant job
  | EvListEndpoints org limit _ =>
      org = organizationId job /\ limit = endpointPageSize opts
  | EvPatch org id body _ =>
      dryRun opts = false /\ org = organizationId job
      /\ truthy id = true /\ body <> ∅ /\ custom_keys body
  end.

Definition is_failure (r : JobResult) : bool :=
  match r with
  | JobFailed _ => true
  | JobOk _ => false
  end.

(** The counts of a job result fit together. *)
Definition counts_ok (d : JobDone) : Prop :=
  jr_matched d + jr_unmatchedEntra d + jr_ambiguous d = jr_entraDevices d
  /\ 0 <= jr_patchesApplied d <= jr_patchesToProcess d
  /\ jr_patchesToProcess d <= jr_patchesPlanned d
  /\ jr_patchesPlanned d <= jr_matched d
  /\ Z.of_nat (length (jr_samplePatches d)) = Z.min 3 (jr_patchesPlanned d).

(** Every patch the job was to process is accounted for: applied, or in
    [patchErrors]; after an error with [stopOnPatchError] the rest is
    dropped. *)
Definition accounted (opts : SyncOptions) (d : JobDone) : Prop :=
  let errors := Z.of_nat (length (jr_patchErrors d)) in
  if dryRun opts
  then jr_patchesApplied d = 0 /\ jr_patchErrors d = []
  else if stopOnPatchError opts
  then errors <= 1
       /\ (errors = 0 -> jr_patchesApplied d = jr_patchesToProcess d)
       /\ jr_patchesApplied d + errors <= jr_patchesToProcess d
  else jr_patchesApplied d + errors = jr_patchesToProcess d.

Definition result_ok (opts : SyncOptions) (r : JobResult) : Prop :=
  match r with
  | JobOk d => jr_dryRun d = dryRun opts /\ counts_ok d /\ accounted opts d
  | JobFailed f => jf_dryRun f = dryRun opts
  end.

(** The job loop leaves early only by the [break] of [stopOnJobError], and
    then the failed job is the last one with a result. *)
Definition stops_at_failure (opts : SyncOptions) (jobs : list SyncJob)
    (rs : list JobResult) : Prop :=
  (length rs <= length jobs)%nat
  /\ ((length rs < length jobs)%nat ->
      stopOnJobError opts = true /\ exists f, last rs = Some (JobFailed f))
  /\ (stopOnJobError opts = true ->
      forall i f, rs !! i = Some (JobFailed f) -> S i = length rs).

(** The cache key of a directory listing that returned. *)
Definition listed_key (includeName : bool) (e : Event) : option string :=
  match e with
  | EvListDevices t None => Some (tenantCacheKey includeName t)
  | _ => None
  end.

Definition is_listing (e : Event) : bool :=
  match e with
  | EvListDevices _ _ => true
  | _ => false
  end.

(** The directory listings among the calls. *)
Definition countListings (evs : list Event) : nat :=
  length (filter (fun e => is_listing e = true) evs).

(** How a part of the run uses the device cache [cache] it starts with:
    without a cache there is none afterwards; with one, the listings that
    returned were for keys the cache did not hold, each key once, and the
    cache holds them afterwards with all it held before. *)
Definition cache_use (includeName : bool)
    (cache cache' : option (gmap string (list JsRecord)))
    (evs : list Event) : Prop :=
  match cache with
  | None => cache' = None
  | Some c =>
      exists c', cache' = Some c'
        /\ (forall k, is_Some (c !! k) -> is_Some (c' !! k))
        /\ NoDup (omap (listed_key includeName) evs)
        /\ (forall k, k ∈ omap (listed_key includeName) evs ->
              c !! k = None /\ is_Some (c' !! k))
  end.

(** ** The sample world with faults

    The platform refuses the patch of one endpoint, and the options carry
    the two stop flags. *)
Module SampleFaults.

Definition patchRefusing (refused : string)
    (a1 : JsRecord) (token : JsValue) (org : string)
    (id : JsValue) (body : JsRecord) (w : unit) : (Thrown + unit) * unit :=
  if String.eqb (toStringJs id) refused
  then (inl (ThrownError "Error" "PATCH failed: 409"), w)
  else (inr tt, w).

Definition options (dry stopOnJob stopOnPatch : bool) : RawOptions :=
  {| raw_dryRun := JsBool dry;
     raw_cacheEntraDevices := JsUndefined;
     raw_maxPatchesPerJob := JsUndefined;
     raw_maxTotalPatches := JsUndefined;
     raw_stopOnJobError := JsBool stopOnJob;
     raw_stopOnPatchError := JsBool stopOnPatch;
     raw_endpointPageSize := JsUndefined |}.

(** A run over [n] machines and the organizations [orgs], in which the
    listing of [failing] throws and the patch of [refused] is refused. *)
Definition run (n : nat) (failing refused : string) (orgs : list string)
    (opts : RawOptions) : (Thrown + Summary) * @RunState unit :=
  runSync Sample.getToken (Sample.listDevices n)
    (Sample.listEndpoints n failing) (patchRefusing refused) false
    (Sample.config orgs) opts (startState tt).

(** Endpoints as a platform without ids would list them: the name only. *)
Definition listEndpointsNoId (n : nat)
    (a1 : JsRecord) (token : JsValue) (org : string) (limit : Z) (w : unit)
  : (Thrown + list JsRecord) * unit :=
  (inr (map (fun name => <["name" := JsStr name]> ∅) (Sample.machines n)), w).

(** The arguments of [--apply] without limits. *)
Definition applyArgs : ParsedArgs :=
  {| parsed_dryRun := false;
     parsed_cacheEntraDevices := true;
     parsed_maxPatchesPerJob := JsUndefined;
     parsed_maxTotalPatches := JsUndefined;
     parsed_endpointPageSize := JsNum 100;
     parsed_stopOnJobError := false;
     parsed_stopOnPatchError := false |}.

End SampleFaults.
(** * Properties *)

(** ** Strings *)

Module JsStringFacts.

Lemma trimStart_no_lead s : no_lead_space (trimStart s).
  Proof.
    induction s as [|c r IH]; simpl; [exact I|].
    destruct (is_space c) eqn:Hc; [exact IH|exact Hc].
  Qed.

Lemma trimStart_fixed s : no_lead_space s -> trimStart s = s.
  Proof. destruct s as [|c r]; simpl; [reflexivity|]. intros ->. reflexivity. Qed.

Lemma trimEnd_no_lead s : no_lead_space s -> no_lead_space (trimEnd s).
  Proof.
    destruct s as [|c r]; simpl; [tauto|]. intros Hc.
    destruct (trimEnd r); rewrite ?Hc; simpl; exact Hc.
  Qed.

Lemma trimEnd_cons c r :
    trimEnd (String c r) =
      match trimEnd r with
      | EmptyString => if is_space c then EmptyString else String c EmptyString
      | r' => String c r'
      end.
  Proof. reflexivity. Qed.

Lemma trimEnd_idem s : trimEnd (trimEnd s) = trimEnd s.
  Proof.
    induction s as [|c r IH]; [reflexivity|].
    rewrite trimEnd_cons. destruct (trimEnd r) as [|d r'] eqn:Hr.
    - destruct (is_space c) eqn:Hc; [reflexivity|].
      rewrite trimEnd_cons. simpl. rewrite Hc. reflexivity.
    - rewrite trimEnd_cons, IH. reflexivity.
  Qed.

Lemma trim_no_lead s : no_lead_space (trim s).
  Proof. apply trimEnd_no_lead, trimStart_no_lead. Qed.

Lemma trim_idem s : trim (trim s) = trim s.
  Proof.
    unfold trim at 1. rewrite (trimStart_fixed (trim s)) by apply trim_no_lead.
    apply trimEnd_idem.
  Qed.

  (** A trimmed, non-empty string stays trimmed when a character is put
      before it. *)
Lemma trimEnd_cons_fixed c r :
    trimEnd r = r -> is_empty r = false -> trimEnd (String c r) = String c r.
  Proof.
    intros Hr Hne. rewrite trimEnd_cons, Hr. destruct r; [discriminate|reflexivity].
  Qed.

Lemma trimEnd_app_fixed p r :
    trimEnd r = r -> is_empty r = false ->
    trimEnd (p +:+ r) = p +:+ r /\ is_empty (p +:+ r) = false.
  Proof.
    intros Hr Hne. induction p as [|c p [IH1 IH2]]; [split; assumption|].
    split; [|reflexivity].
    change (String c p +:+ r) with (String c (p +:+ r)).
    apply trimEnd_cons_fixed; assumption.
  Qed.

Lemma trim_custom_prefix r :
    trim r = r -> is_empty r = false -> trim ("custom:" +:+ r) = "custom:" +:+ r.
  Proof.
    intros Hr Hne.
    assert (He : trimEnd r = r).
    { rewrite <- Hr at 1. unfold trim. rewrite trimEnd_idem. exact Hr. }
    unfold trim. simpl trimStart.
    apply (trimEnd_app_fixed "custom:" r He Hne).
  Qed.

Lemma startsWith_custom_prefix r :
    startsWith (toLowerCase ("custom:" +:+ r)) "custom:" = true.
  Proof. vm_compute. reflexivity. Qed.

Lemma is_empty_true s : is_empty s = true <-> s = "".
  Proof. destruct s; simpl; split; congruence. Qed.

Lemma is_empty_false s : is_empty s = false <-> s <> "".
  Proof. destruct s; simpl; split; congruence. Qed.

End JsStringFacts.

Import JsStringFacts.

(** ** Patch builder *)

Lemma js_or_str_empty (s : string) : toStringJs (js_or (JsStr s) (JsStr "")) = s.
Proof. destruct s; reflexivity. Qed.

Lemma toCustomKey_unfold v :
  toCustomKey v =
    let raw := trim (toStringJs (js_or v (JsStr ""))) in
    if is_empty raw then ""
    else if startsWith (toLowerCase raw) "custom:" then raw
    else "custom:" +:+ raw.
Proof. reflexivity. Qed.

Lemma toCustomKey_trimmed (s : string) :
  trim s = s -> startsWith (toLowerCase s) "custom:" = true ->
  toCustomKey (JsStr s) = s.
Proof.
  intros Ht Hp. rewrite toCustomKey_unfold, js_or_str_empty. cbv zeta.
  rewrite Ht, Hp. destruct s; reflexivity.
Qed.

Lemma toCustomKey_truthy v :
  is_empty (toCustomKey v) = false -> truthy v = true.
Proof.
  rewrite toCustomKey_unfold. unfold js_or.
  destruct (truthy v); [reflexivity|]. vm_compute. congruence.
Qed.

Lemma toCustomKey_custom v :
  is_empty (toCustomKey v) = false ->
  startsWith (toLowerCase (toCustomKey v)) "custom:" = true.
Proof.
  rewrite toCustomKey_unfold. cbv zeta.
  set (raw := trim (toStringJs (js_or v (JsStr "")))).
  destruct (is_empty raw) eqn:He; [discriminate|].
  destruct (startsWith (toLowerCase raw) "custom:") eqn:Hp; intros _; [exact Hp|].
  apply startsWith_custom_prefix.
Qed.

Lemma toCustomKey_idem v : toCustomKey (JsStr (toCustomKey v)) = toCustomKey v.
Proof.
  rewrite (toCustomKey_unfold v). cbv zeta.
  set (raw := trim (toStringJs (js_or v (JsStr "")))).
  assert (Hraw : trim raw = raw) by apply trim_idem.
  destruct (is_empty raw) eqn:He; [reflexivity|].
  destruct (startsWith (toLowerCase raw) "custom:") eqn:Hp.
  - apply toCustomKey_trimmed; assumption.
  - apply toCustomKey_trimmed.
    + apply trim_custom_prefix; assumption.
    + apply startsWith_custom_prefix.
Qed.

(** The loop body of [buildEndpointPatch], by cases. *)
Lemma patchStep_spec dev p m :
  patchStep dev p m =
    if writes dev m
    then <[toCustomKey (action1CustomAttribute m) := sourceValue dev m]> p
    else p.
Proof.
  unfold patchStep, writes, well_formed_mapping, sourceValue.
  destruct (truthy (entraProperty m)) eqn:Hp; simpl.
  - destruct (is_empty (toCustomKey (action1CustomAttribute m))) eqn:Hk; simpl.
    + destruct (truthy (action1CustomAttribute m)); simpl; [|reflexivity].
      destruct (getProp dev _) as [| | | |s|]; simpl; try reflexivity.
      destruct (is_empty (trim s)); reflexivity.
    + rewrite (toCustomKey_truthy _ Hk). simpl.
      destruct (getProp dev _) as [| | | |s|]; simpl; try reflexivity.
      destruct (is_empty (trim s)); reflexivity.
  - reflexivity.
Qed.

Lemma patch_fold_invariant (P : JsRecord -> Prop) dev :
  (forall p m, P p -> P (patchStep dev p m)) ->
  forall ms p, P p -> P (foldl (patchStep dev) p ms).
Proof.
  intros Hstep ms. induction ms as [|m ms IH]; intros p Hp; simpl; auto.
Qed.

Lemma patch_fold_skip_blank dev ms : forall p,
  foldl (patchStep dev) p ms =
  foldl (patchStep dev) p (filter (fun m => is_blank (sourceValue dev m) = false) ms).
Proof.
  induction ms as [|m ms IH]; intros p; [reflexivity|].
  rewrite filter_cons. destruct (decide _) as [Hb|Hb]; simpl.
  - apply IH.
  - rewrite patchStep_spec. unfold writes.
    destruct (is_blank (sourceValue dev m)); [|congruence].
    rewrite andb_false_r. apply IH.
Qed.

Lemma patch_fold_entries dev ms : forall p0 k v,
  foldl (patchStep dev) p0 ms !! k = Some v ->
  p0 !! k = Some v \/
  exists m, m ∈ ms /\ writes dev m = true /\
            toCustomKey (action1CustomAttribute m) = k /\ sourceValue dev m = v.
Proof.
  induction ms as [|m ms IH]; intros p0 k v H; simpl in H; [left; exact H|].
  apply IH in H as [H|(m' & Hin & Hm')].
  - rewrite patchStep_spec in H. destruct (writes dev m) eqn:Hw; [|left; exact H].
    destruct (decide (toCustomKey (action1CustomAttribute m) = k)) as [<-|Hne].
    + rewrite lookup_insert_eq in H. right. exists m.
      split; [left|]. split; [exact Hw|]. split; congruence.
    + rewrite lookup_insert_ne in H by exact Hne. left; exact H.
  - right. exists m'. split; [right; exact Hin|exact Hm'].
Qed.

Lemma patch_fold_keeps_key dev ms : forall p k,
  is_Some (p !! k) -> is_Some (foldl (patchStep dev) p ms !! k).
Proof.
  intros p k Hk.
  apply (patch_fold_invariant (fun p => is_Some (p !! k))); [|exact Hk].
  clear p Hk. intros p m Hp. rewrite patchStep_spec. destruct (writes dev m); [|exact Hp].
  rewrite lookup_insert. destruct (decide _); [eauto|exact Hp].
Qed.

Lemma patch_fold_keeps_value dev ms k v : forall p,
  Forall (fun m => toCustomKey (action1CustomAttribute m) <> k) ms ->
  p !! k = Some v -> foldl (patchStep dev) p ms !! k = Some v.
Proof.
  induction ms as [|m ms IH]; intros p Hall Hp; [exact Hp|].
  inversion Hall as [|? ? Hm Hms]; subst. simpl. apply IH; [exact Hms|].
  rewrite patchStep_spec. destruct (writes dev m); [|exact Hp].
  rewrite lookup_insert_ne by exact Hm. exact Hp.
Qed.

Lemma buildEndpointPatch_Some dev ms p :
  buildEndpointPatch dev ms = Some p -> p = foldl (patchStep dev) ∅ ms.
Proof.
  unfold buildEndpointPatch. destruct (0 <? size _)%nat; congruence.
Qed.

Lemma buildEndpointPatch_of_key dev ms k :
  is_Some (foldl (patchStep dev) ∅ ms !! k) ->
  buildEndpointPatch dev ms = Some (foldl (patchStep dev) ∅ ms).
Proof.
  intros [v Hv]. unfold buildEndpointPatch.
  destruct (0 <? size _)%nat eqn:Hs; [reflexivity|].
  apply Nat.ltb_ge in Hs.
  assert (Hz : size (foldl (patchStep dev) ∅ ms) = 0%nat) by lia.
  apply map_size_empty_iff in Hz. rewrite Hz in Hv.
  rewrite lookup_empty in Hv. discriminate.
Qed.

Lemma is_blank_iff v :
  is_blank v = true <->
  (v = JsNull \/ v = JsUndefined \/ exists s, v = JsStr s /\ trim s = "").
Proof.
  split.
  - destruct v as [| | | |s|]; simpl; try discriminate; auto.
    intros H. right; right. exists s. split; [reflexivity|].
    apply is_empty_true, H.
  - intros [->|[->|(s & -> & Hs)]]; simpl; try reflexivity.
    rewrite Hs. reflexivity.
Qed.

(** C9. Custom-key normalization is idempotent and case-insensitive on the
    prefix: [toCustomKey] applied to its own result gives that result again;
    an attribute name that, once trimmed, begins with [custom:] in any letter
    case is returned as trimmed, without a second prefix (so a trimmed one is
    returned unchanged); and every key of a built patch begins, case being
    ignored, with [custom:]. *)
Theorem toCustomKey_idempotent_custom_prefix :
  (forall v : JsValue, toCustomKey (JsStr (toCustomKey v)) = toCustomKey v)
  /\ (forall s : string,
        startsWith (toLowerCase (trim s)) "custom:" = true ->
        toCustomKey (JsStr s) = trim s
        /\ (trim s = s -> toCustomKey (JsStr s) = s))
  /\ (forall (dev : JsRecord) (mappings : list Mapping) (p : JsRecord) (key : string),
        buildEndpointPatch dev mappings = Some p ->
        is_Some (p !! key) ->
        startsWith (toLowerCase key) "custom:" = true).
Proof.
  split; [exact toCustomKey_idem|]. split.
  - intros s Hp.
    assert (H : toCustomKey (JsStr s) = trim s).
    { rewrite toCustomKey_unfold, js_or_str_empty. cbv zeta. rewrite Hp.
      destruct (trim s); [discriminate Hp|reflexivity]. }
    split; [exact H|]. intros Ht. rewrite H. exact Ht.
  - intros dev mappings p key Hb [v Hv].
    apply buildEndpointPatch_Some in Hb. subst p.
    apply patch_fold_entries in Hv as [Hv|(m & _ & Hw & <- & _)].
    + rewrite lookup_empty in Hv. discriminate.
    + apply toCustomKey_custom.
      unfold writes, well_formed_mapping in Hw.
      apply andb_prop in Hw as [Hw _]. apply andb_prop in Hw as [_ Hw].
      apply negb_true_iff in Hw. exact Hw.
Qed.

(** C6. Patch blank-skip: a mapping whose source value is [null],
    [undefined] or an empty or white-space-only string is never written, so
    the patch is the one built from the other mappings alone and every value
    in it is the non-blank source value of a mapping; a mapping whose source
    value is [0] or [false] is written under its custom key, and the value
    stays unless a later mapping targets the same key. *)
Theorem buildEndpointPatch_blank_skip (dev : JsRecord) (mappings : list Mapping) :
  (forall v, is_blank v = true <->
             (v = JsNull \/ v = JsUndefined \/ exists s, v = JsStr s /\ trim s = ""))
  /\ buildEndpointPatch dev mappings =
     buildEndpointPatch dev
       (filter (fun m => is_blank (sourceValue dev m) = false) mappings)
  /\ (forall p k v,
        buildEndpointPatch dev mappings = Some p -> p !! k = Some v ->
        is_blank v = false
        /\ exists m, m ∈ mappings
                     /\ toCustomKey (action1CustomAttribute m) = k
                     /\ sourceValue dev m = v)
  /\ (forall before m after v,
        mappings = before ++ m :: after ->
        well_formed_mapping m = true ->
        sourceValue dev m = v ->
        v = JsNum 0 \/ v = JsBool false ->
        let key := toCustomKey (action1CustomAttribute m) in
        let sofar := foldl (patchStep dev) ∅ before in
        patchStep dev sofar m = <[key := v]> sofar
        /\ exists p, buildEndpointPatch dev mappings = Some p
                     /\ is_Some (p !! key)
                     /\ (Forall (fun m' => toCustomKey (action1CustomAttribute m') <> key)
                                after ->
                         p !! key = Some v)).
Proof.
  split; [exact is_blank_iff|]. split.
  { unfold buildEndpointPatch. rewrite <- patch_fold_skip_blank. reflexivity. }
  split.
  - intros p k v Hb Hv. apply buildEndpointPatch_Some in Hb. subst p.
    apply patch_fold_entries in Hv as [Hv|(m & Hin & Hw & Hk & Hs)].
    + rewrite lookup_empty in Hv. discriminate.
    + split; [|exists m; auto].
      unfold writes in Hw. apply andb_prop in Hw as [_ Hw].
      apply negb_true_iff in Hw. congruence.
  - intros before m after v -> Hwf Hs Hv key sofar.
    assert (Hw : writes dev m = true).
    { unfold writes. rewrite Hwf, Hs. destruct Hv as [->| ->]; reflexivity. }
    assert (Hstep : patchStep dev sofar m = <[key := v]> sofar).
    { rewrite patchStep_spec, Hw, Hs. reflexivity. }
    split; [exact Hstep|].
    assert (Hfold : foldl (patchStep dev) ∅ (before ++ m :: after)
                    = foldl (patchStep dev) (<[key := v]> sofar) after).
    { rewrite foldl_app. simpl. fold sofar. rewrite Hstep. reflexivity. }
    assert (Hkey : is_Some (foldl (patchStep dev) ∅ (before ++ m :: after) !! key)).
    { rewrite Hfold. apply patch_fold_keeps_key. rewrite lookup_insert_eq. eauto. }
    exists (foldl (patchStep dev) ∅ (before ++ m :: after)).
    split; [eapply buildEndpointPatch_of_key; exact Hkey|].
    split; [exact Hkey|].
    intros Hall. rewrite Hfold. apply patch_fold_keeps_value; [exact Hall|].
    apply lookup_insert_eq.
Qed.

(** ** Name matcher *)

Lemma pushIndex_lookup key ep (index : EndpointIndex) k :
  pushIndex key ep index !! k =
    if decide (key = k) then Some (default [] (index !! k) ++ [ep])
    else index !! k.
Proof.
  unfold pushIndex. destruct (decide (key = k)) as [<-|Hne].
  - rewrite lookup_alter_eq. destruct (index !! key) as [l|] eqn:Hl; simpl.
    + rewrite Hl. reflexivity.
    + rewrite lookup_insert_eq. reflexivity.
  - rewrite lookup_alter_ne by exact Hne.
    destruct (index !! key); [reflexivity|].
    rewrite lookup_insert_ne by exact Hne. reflexivity.
Qed.

Lemma indexBy_lookup keyOf endpoints k : forall index0,
  k <> "" ->
  indexBy keyOf index0 endpoints !! k =
    match index0 !! k,
          filter (fun ep => keyOf (getAction1EndpointName ep) = k) endpoints with
    | None, [] => None
    | o, l => Some (default [] o ++ l)
    end.
Proof.
  induction endpoints as [|ep eps IH]; intros index0 Hk.
  - simpl. destruct (index0 !! k); simpl; [rewrite app_nil_r|]; reflexivity.
  - unfold indexBy in *. simpl foldl. rewrite filter_cons.
    destruct (decide (keyOf (getAction1EndpointName ep) = k)) as [Heq|Hne].
    + rewrite Heq. apply is_empty_false in Hk as Hk'. rewrite Hk'.
      rewrite IH by exact Hk. rewrite pushIndex_lookup.
      destruct (decide (k = k)); [|congruence].
      destruct (index0 !! k); simpl; rewrite <- ?app_assoc; reflexivity.
    + destruct (is_empty (keyOf (getAction1EndpointName ep))).
      * apply IH, Hk.
      * rewrite IH by exact Hk. rewrite pushIndex_lookup.
        destruct (decide _); [congruence|reflexivity].
Qed.

Lemma indexBy_lookup_empty keyOf endpoints : forall index0,
  indexBy keyOf index0 endpoints !! "" = index0 !! "".
Proof.
  induction endpoints as [|ep eps IH]; intros index0; [reflexivity|].
  unfold indexBy in *. simpl foldl.
  destruct (is_empty (keyOf (getAction1EndpointName ep))) eqn:He; [apply IH|].
  rewrite IH, pushIndex_lookup. destruct (decide _) as [Heq|]; [|reflexivity].
  rewrite Heq in He. discriminate.
Qed.

(** The full-name table, entry by entry: under a non-empty key it lists the
    endpoints with that normalized name, in order, and nothing under a key
    no endpoint has. *)
Lemma buildEndpointIndex_lookup endpoints k :
  k <> "" ->
  buildEndpointIndex endpoints !! k =
    match endpointsNamed k endpoints with
    | [] => None
    | l => Some l
    end.
Proof.
  intros Hk. change (buildEndpointIndex endpoints) with (indexBy normalizeName ∅ endpoints).
  rewrite indexBy_lookup by exact Hk. rewrite lookup_empty. reflexivity.
Qed.

Lemma buildEndpointIndex_no_empty_key endpoints :
  buildEndpointIndex endpoints !! "" = None.
Proof.
  change (buildEndpointIndex endpoints) with (indexBy normalizeName ∅ endpoints).
  rewrite indexBy_lookup_empty. apply lookup_empty.
Qed.

Lemma matchStep_shape fi si r dev : StepShape fi si r dev (matchStep fi si r dev).
Proof.
  unfold matchStep. fold (displayNameOf dev). fold (fullKeyOf dev) (shortKeyOf dev).
  destruct (is_empty (fullKeyOf dev)) eqn:He.
  { apply shape_no_name, is_empty_true, He. }
  apply is_empty_false in He.
  assert (Hphase2 : no_candidates (fi !! fullKeyOf dev) ->
    StepShape fi si r dev
      match si !! shortKeyOf dev with
      | Some ((first :: _) as shortCandidates) =>
          if (1 <? length shortCandidates)%nat
          then push_ambiguous r
                 {| amb_entraDevice := dev; amb_candidates := shortCandidates;
                    amb_reason := "duplicate_short" |}
          else push_matched r
                 {| pair_entraDevice := dev; pair_endpoint := first;
                    pair_matchType := "short" |}
      | _ => push_unmatched r dev
      end).
  { intros Hno. destruct (si !! shortKeyOf dev) as [[|ep [|ep' l]]|] eqn:Hs.
    - apply shape_none; [assumption..|right; exact Hs].
    - simpl. apply shape_short; assumption.
    - simpl. eapply shape_duplicate_short; try eassumption. simpl; lia.
    - apply shape_none; [assumption..|left; exact Hs]. }
  destruct (fi !! fullKeyOf dev) as [[|ep [|ep' l]]|] eqn:Hf.
  - apply Hphase2. right; reflexivity.
  - simpl. apply shape_full; assumption.
  - simpl. eapply shape_duplicate_full; try eassumption. simpl; lia.
  - apply Hphase2. left; reflexivity.
Qed.

Lemma no_candidates_not_duplicate fi dev :
  no_candidates (fi !! fullKeyOf dev) -> ~ full_duplicate fi dev.
Proof.
  intros [H|H] (cands & Hc & Hl); rewrite H in Hc; [discriminate|].
  injection Hc as <-. simpl in Hl. lia.
Qed.

Lemma step_lengths fi si r dev r' :
  StepShape fi si r dev r' ->
  (length (matched r') + length (unmatchedEntra r') + length (ambiguous r')
   = S (length (matched r) + length (unmatchedEntra r) + length (ambiguous r)))%nat.
Proof.
  intros H; destruct H; simpl; rewrite ?length_app; simpl; lia.
Qed.

Lemma step_devices fi si r dev r' :
  StepShape fi si r dev r' -> Permutation (devicesOf r') (devicesOf r ++ [dev]).
Proof.
  assert (Hun : Permutation (devicesOf (push_unmatched r dev)) (devicesOf r ++ [dev])).
  { unfold devicesOf; simpl. rewrite <- !app_assoc.
    do 2 apply Permutation_app_head. apply Permutation_app_comm. }
  assert (Hma : forall p, pair_entraDevice p = dev ->
            Permutation (devicesOf (push_matched r p)) (devicesOf r ++ [dev])).
  { intros p <-. unfold devicesOf; simpl. rewrite map_app, <- !app_assoc. simpl.
    apply Permutation_app_head.
    rewrite (app_assoc (unmatchedEntra r)). apply Permutation_cons_append. }
  assert (Ham : forall a, amb_entraDevice a = dev ->
            Permutation (devicesOf (push_ambiguous r a)) (devicesOf r ++ [dev])).
  { intros a <-. unfold devicesOf; simpl. rewrite map_app, <- !app_assoc.
    reflexivity. }
  intros H; destruct H; auto.
Qed.

Lemma step_buckets fi si r dev r' :
  fi !! "" = None ->
  StepShape fi si r dev r' -> buckets_ok fi r -> buckets_ok fi r'.
Proof.
  intros Hempty H (Hm & Hu & Ha).
  destruct H as [Hk|cands Hk Hf Hl|ep Hk Hf|cands Hk Hno Hs Hl|ep Hk Hno Hs|Hk Hno Hs];
    unfold buckets_ok; simpl; repeat split; try assumption;
    apply Forall_app; (split; [assumption|]); apply Forall_singleton.
  - intros (cands & Hc & _). rewrite Hk, Hempty in Hc. discriminate.
  - split; [exact Hk|]. simpl. intros cands' Hc _. split; congruence.
  - split; [exact Hk|]. simpl. intros (cands & Hc & Hl).
    rewrite Hf in Hc. injection Hc as <-. simpl in Hl. lia.
  - split; [exact Hk|]. simpl. intros cands' Hc Hl'.
    exfalso. eapply no_candidates_not_duplicate; [exact Hno|].
    exists cands'. split; assumption.
  - split; [exact Hk|]. simpl. apply no_candidates_not_duplicate, Hno.
  - apply no_candidates_not_duplicate, Hno.
Qed.

Lemma buckets_ok_empty fi : buckets_ok fi emptyMatchResult.
Proof. repeat split; constructor. Qed.

Lemma matchFold_invariant fi si devs : forall r,
  fi !! "" = None ->
  buckets_ok fi r ->
  let r' := foldl (matchStep fi si) r devs in
  buckets_ok fi r'
  /\ (length (matched r') + length (unmatchedEntra r') + length (ambiguous r')
      = length (matched r) + length (unmatchedEntra r) + length (ambiguous r)
        + length devs)%nat
  /\ Permutation (devicesOf r') (devicesOf r ++ devs).
Proof.
  induction devs as [|dev devs IH]; intros r Hempty Hok; simpl.
  - split; [exact Hok|]. split; [lia|]. rewrite app_nil_r. reflexivity.
  - pose proof (matchStep_shape fi si r dev) as Hshape.
    destruct (IH (matchStep fi si r dev) Hempty
                 (step_buckets _ _ _ _ _ Hempty Hshape Hok)) as (Hok' & Hlen & Hperm).
    split; [exact Hok'|]. split.
    + rewrite Hlen, (step_lengths _ _ _ _ _ Hshape). lia.
    + rewrite Hperm, (step_devices _ _ _ _ _ Hshape), <- app_assoc. reflexivity.
Qed.

Lemma matchDevices_invariant devs eps :
  let r := matchDevices devs eps in
  buckets_ok (buildEndpointIndex eps) r
  /\ (length (matched r) + length (unmatchedEntra r) + length (ambiguous r)
      = length devs)%nat
  /\ Permutation (devicesOf r) devs.
Proof.
  destruct (matchFold_invariant (buildEndpointIndex eps)
              (buildEndpointShortIndex eps) devs emptyMatchResult
              (buildEndpointIndex_no_empty_key eps)
              (buckets_ok_empty _)) as (Hok & Hlen & Hperm).
  split; [exact Hok|]. split; [exact Hlen|exact Hperm].
Qed.

Lemma in_matched_devices r dev :
  dev ∈ map pair_entraDevice (matched r) ->
  exists p, p ∈ matched r /\ pair_entraDevice p = dev.
Proof.
  intros H. apply list_elem_of_fmap in H as (p & -> & Hp). eauto.
Qed.

Lemma in_ambiguous_devices r dev :
  dev ∈ map amb_entraDevice (ambiguous r) ->
  exists a, a ∈ ambiguous r /\ amb_entraDevice a = dev.
Proof.
  intros H. apply list_elem_of_fmap in H as (a & -> & Ha). eauto.
Qed.

Lemma device_lands devs eps dev :
  dev ∈ devs ->
  let r := matchDevices devs eps in
  (dev ∈ map pair_entraDevice (matched r))
  \/ (dev ∈ unmatchedEntra r)
  \/ (dev ∈ map amb_entraDevice (ambiguous r)).
Proof.
  intros Hin r. destruct (matchDevices_invariant devs eps) as (_ & _ & Hperm).
  fold r in Hperm. rewrite <- Hperm in Hin. unfold devicesOf in Hin.
  rewrite !elem_of_app in Hin. exact Hin.
Qed.

(** C1. Matching totality: the three buckets of [matchDevices] hold the
    devices of the input, each occurrence once, so their lengths add up to
    the number of devices; and a device whose normalized display name is
    empty is in [unmatchedEntra] and in no other bucket. *)
Theorem matchDevices_total (devices endpoints : list JsRecord) :
  let r := matchDevices devices endpoints in
  (length (matched r) + length (unmatchedEntra r) + length (ambiguous r)
   = length devices)%nat
  /\ Permutation
       (map pair_entraDevice (matched r) ++ unmatchedEntra r
          ++ map amb_entraDevice (ambiguous r))
       devices
  /\ (forall dev,
        dev ∈ devices ->
        normalizeName (js_or (getProp dev "displayName") (JsStr "")) = "" ->
        (dev ∈ unmatchedEntra r)
        /\ (dev ∉ map pair_entraDevice (matched r))
        /\ (dev ∉ map amb_entraDevice (ambiguous r))).
Proof.
  intros r. destruct (matchDevices_invariant devices endpoints) as (Hok & Hlen & Hperm).
  fold r in Hok, Hlen, Hperm. split; [exact Hlen|]. split; [exact Hperm|].
  intros dev Hin Hname. destruct Hok as (Hm & _ & Ha).
  assert (Hnm : dev ∉ map pair_entraDevice (matched r)).
  { intros H. apply in_matched_devices in H as (p & Hp & <-).
    rewrite Forall_forall in Hm. destruct (Hm p Hp) as [Hne _]. exact (Hne Hname). }
  assert (Hna : dev ∉ map amb_entraDevice (ambiguous r)).
  { intros H. apply in_ambiguous_devices in H as (a & Hin' & <-).
    rewrite Forall_forall in Ha. destruct (Ha a Hin') as [Hne _]. exact (Hne Hname). }
  split; [|split; assumption].
  destruct (device_lands devices endpoints dev Hin) as [H|[H|H]];
    [contradiction|exact H|contradiction].
Qed.

(** C2. Ambiguity precedence: a device whose normalized display name (not
    empty: a device without a name is unmatched, see C1) is the normalized
    full name of two or more endpoints is in [ambiguous], with these
    endpoints as candidates and the reason [duplicate_full], and in no other
    bucket; the turn of the loop that files it gives the same result
    whatever the short-name table holds, so Phase 2 is not consulted. *)
Theorem matchDevices_ambiguity_precedence
    (devices endpoints : list JsRecord) (dev : JsRecord) (cands : list JsRecord) :
  dev ∈ devices ->
  normalizeName (js_or (getProp dev "displayName") (JsStr "")) <> "" ->
  cands = endpointsNamed
            (normalizeName (js_or (getProp dev "displayName") (JsStr "")))
            endpoints ->
  (2 <= length cands)%nat ->
  let r := matchDevices devices endpoints in
  let entry := {| amb_entraDevice := dev; amb_candidates := cands;
                  amb_reason := "duplicate_full" |} in
  (entry ∈ ambiguous r)
  /\ (forall a, a ∈ ambiguous r -> amb_entraDevice a = dev -> a = entry)
  /\ (dev ∉ map pair_entraDevice (matched r))
  /\ (dev ∉ unmatchedEntra r)
  /\ (forall shortIndex acc,
        matchStep (buildEndpointIndex endpoints) shortIndex acc dev
        = push_ambiguous acc entry).
Proof.
  intros Hin Hne Hc Hl r entry.
  change (normalizeName (js_or (getProp dev "displayName") (JsStr "")))
    with (fullKeyOf dev) in Hne, Hc.
  assert (Hidx : buildEndpointIndex endpoints !! fullKeyOf dev = Some cands).
  { rewrite buildEndpointIndex_lookup by exact Hne. rewrite <- Hc.
    destruct cands; [simpl in Hl; lia|reflexivity]. }
  assert (Hdup : full_duplicate (buildEndpointIndex endpoints) dev).
  { exists cands. split; assumption. }
  destruct (matchDevices_invariant devices endpoints) as ((Hm & Hu & Ha) & _ & _).
  fold r in Hm, Hu, Ha.
  assert (Hnm : dev ∉ map pair_entraDevice (matched r)).
  { intros H. apply in_matched_devices in H as (p & Hp & <-).
    rewrite Forall_forall in Hm. destruct (Hm p Hp) as [_ Hnd]. exact (Hnd Hdup). }
  assert (Hnu : dev ∉ unmatchedEntra r).
  { intros H. rewrite Forall_forall in Hu. exact (Hu dev H Hdup). }
  assert (Huniq : forall a, a ∈ ambiguous r -> amb_entraDevice a = dev -> a = entry).
  { intros a Ha' Hd. rewrite Forall_forall in Ha.
    destruct (Ha a Ha') as [_ Hspec]. rewrite Hd in Hspec.
    destruct (Hspec cands Hidx Hl) as [Hcs Hr].
    destruct a as [d c rs]; simpl in *. unfold entry. congruence. }
  split.
  { destruct (device_lands devices endpoints dev Hin) as [H|[H|H]];
      [contradiction|contradiction|].
    apply in_ambiguous_devices in H as (a & Ha' & Hd).
    rewrite <- (Huniq a Ha' Hd). exact Ha'. }
  split; [exact Huniq|]. split; [exact Hnm|]. split; [exact Hnu|].
  intros shortIndex acc.
  pose proof (matchStep_shape (buildEndpointIndex endpoints) shortIndex acc dev) as Hs.
  inversion Hs as [Hk|cands' Hk Hf Hl'|ep Hk Hf|cands' Hk Hno _ _|ep Hk Hno _|Hk Hno _].
  - contradiction.
  - rewrite Hidx in Hf. injection Hf as <-. reflexivity.
  - rewrite Hidx in Hf. injection Hf as ->. simpl in Hl. lia.
  - exfalso. exact (no_candidates_not_duplicate _ _ Hno Hdup).
  - exfalso. exact (no_candidates_not_duplicate _ _ Hno Hdup).
  - exfalso. exact (no_candidates_not_duplicate _ _ Hno Hdup).
Qed.

(** ** Safety limits *)

Lemma slice0_nonneg {A : Type} (xs : list A) (n : Z) :
  0 <= n -> slice0 xs n = take (Z.to_nat n) xs.
Proof. intros Hn. unfold slice0. destruct (n <? 0) eqn:H; [lia|reflexivity]. Qed.

Lemma slice0_is_take {A : Type} (xs : list A) (n : Z) :
  exists k, slice0 xs n = take k xs.
Proof. unfold slice0. destruct (n <? 0); eauto. Qed.

Lemma take_take_min {A : Type} (xs : list A) (a b : nat) :
  take a (take b xs) = take (Nat.min a b) xs.
Proof. apply take_take. Qed.

(** The list that goes to the apply phase is a prefix of the planned
    one. *)
Lemma safetyLimits_prefix opts total patches :
  exists k, fst (safetyLimits opts total patches) = take k patches.
Proof.
  unfold safetyLimits.
  destruct (Z.of_nat (length patches) >? maxPatchesPerJob opts).
  - destruct (slice0_is_take patches (maxPatchesPerJob opts)) as [k Hk].
    rewrite Hk. destruct (_ >? maxTotalPatches opts); simpl; [|eauto].
    destruct (slice0_is_take (take k patches)
                (Z.max 0 (maxTotalPatches opts - total))) as [k' Hk'].
    rewrite Hk', take_take. eauto.
  - destruct (_ >? maxTotalPatches opts); simpl.
    + apply slice0_is_take.
    + exists (length patches). rewrite firstn_all. reflexivity.
Qed.

(** The global limit: what goes to the apply phase fits in what is left of
    [maxTotalPatches]. *)
Lemma safetyLimits_remaining opts total patches :
  Z.of_nat (length (fst (safetyLimits opts total patches)))
  <= Z.max 0 (maxTotalPatches opts - total).
Proof.
  unfold safetyLimits.
  set (step1 := if Z.of_nat (length patches) >? maxPatchesPerJob opts
                then _ else _).
  destruct step1 as [ps lb].
  destruct (total + Z.of_nat (length ps) >? maxTotalPatches opts) eqn:Hg; simpl.
  - rewrite slice0_nonneg by lia. rewrite length_take. lia.
  - lia.
Qed.

Lemma safetyLimits_length opts total patches :
  (length (fst (safetyLimits opts total patches)) <= length patches)%nat.
Proof.
  destruct (safetyLimits_prefix opts total patches) as [k ->].
  rewrite length_take. lia.
Qed.

(** The per-job limit, when more is planned than it allows. *)
Lemma safetyLimits_per_job opts total patches :
  0 <= maxPatchesPerJob opts ->
  Z.of_nat (length patches) > maxPatchesPerJob opts ->
  let n := maxPatchesPerJob opts in
  let room := Z.max 0 (maxTotalPatches opts - total) in
  fst (safetyLimits opts total patches) = take (Z.to_nat (Z.min n room)) patches
  /\ (total + n <= maxTotalPatches opts ->
      safetyLimits opts total patches
      = (take (Z.to_nat n) patches, Some ("maxPatchesPerJob=" +:+ of_Z n)))
  /\ (total + n > maxTotalPatches opts ->
      snd (safetyLimits opts total patches)
      = Some (("maxPatchesPerJob=" +:+ of_Z n) +:+ ", maxTotalPatches="
                +:+ of_Z (maxTotalPatches opts))).
Proof.
  intros Hn Hlen n room. unfold safetyLimits.
  assert (Hgt : (Z.of_nat (length patches) >? maxPatchesPerJob opts) = true)
    by (apply Z.gtb_lt; lia).
  rewrite Hgt. rewrite (slice0_nonneg patches) by exact Hn.
  assert (Hl1 : Z.of_nat (length (take (Z.to_nat (maxPatchesPerJob opts)) patches)) = n).
  { rewrite length_take. unfold n. lia. }
  rewrite Hl1.
  destruct (total + n >? maxTotalPatches opts) eqn:Hg.
  - apply Z.gtb_lt in Hg. simpl. rewrite slice0_nonneg by lia. rewrite take_take.
    split; [|split; [lia|reflexivity]].
    f_equal. unfold room, n. lia.
  - assert (Hle : total + n <= maxTotalPatches opts).
    { destruct (Z.gtb_spec (total + n) (maxTotalPatches opts)); [discriminate|lia]. }
    simpl. split; [|split; [reflexivity|lia]].
    f_equal. unfold room, n. lia.
Qed.

(** ** Sync engine *)

Lemma sumPlanned_app rs1 rs2 : sumPlanned (rs1 ++ rs2) = sumPlanned rs1 + sumPlanned rs2.
Proof. induction rs1 as [|r rs1 IH]; simpl; [reflexivity|]. rewrite IH. lia. Qed.

Lemma sumApplied_app rs1 rs2 : sumApplied (rs1 ++ rs2) = sumApplied rs1 + sumApplied rs2.
Proof. induction rs1 as [|r rs1 IH]; simpl; [reflexivity|]. rewrite IH. lia. Qed.

Lemma countPatchOk_app evs1 evs2 :
  countPatchOk (evs1 ++ evs2) = countPatchOk evs1 + countPatchOk evs2.
Proof. induction evs1 as [|e evs1 IH]; simpl; [reflexivity|]. rewrite IH. lia. Qed.

Lemma countPatchCalls_app evs1 evs2 :
  countPatchCalls (evs1 ++ evs2) = countPatchCalls evs1 + countPatchCalls evs2.
Proof. induction evs1 as [|e evs1 IH]; simpl; [reflexivity|]. rewrite IH. lia. Qed.

Lemma countPatchCalls_nonneg evs : 0 <= countPatchCalls evs.
Proof. induction evs as [|e evs IH]; simpl; [lia|]. destruct (is_patch_call e); lia. Qed.

Lemma countPatchOk_le_calls evs : 0 <= countPatchOk evs <= countPatchCalls evs.
Proof.
  induction evs as [|e evs IH]; simpl; [lia|].
  destruct e as [| | |? ? ? [?|]]; simpl; lia.
Qed.

Lemma failure_recorded_mono rs rs' e :
  (forall r, r ∈ rs -> r ∈ rs') -> failure_recorded rs e -> failure_recorded rs' e.
Proof.
  intros Hsub. destruct e as [?|? [?|]|? ? [?|]|? ? ? [?|]]; simpl; auto.
  - intros (f & Hf & He). eauto.
  - intros (f & Hf & He). eauto.
  - intros (d & Hd & He). eauto.
Qed.

Lemma PatchRun_invalid_recorded opts org todo evs applied errs :
  PatchRun opts org todo evs applied errs ->
  forall p, p ∈ todo -> truthy (endpointId p) = false ->
    if stopOnPatchError opts then errs <> []
    else patchErrorOf p invalidItemMessage ∈ errs.
Proof.
  induction 1 as [|q rest Hq Hstop|q rest evs applied errs Hq Hstop _ IH
                 |q rest evs applied errs Hq Hb _ IH
                 |q rest evs applied errs Hq Hb _ IH
                 |q rest err Hq Hb Hstop
                 |q rest err evs applied errs Hq Hb Hstop _ IH];
    intros p Hin Hp.
  - inversion Hin.
  - rewrite Hstop. discriminate.
  - rewrite Hstop. apply elem_of_cons in Hin as [->|Hin]; [left|].
    right. specialize (IH p Hin Hp). rewrite Hstop in IH. exact IH.
  - apply elem_of_cons in Hin as [->|Hin]; [congruence|]. exact (IH p Hin Hp).
  - apply elem_of_cons in Hin as [->|Hin]; [congruence|]. exact (IH p Hin Hp).
  - rewrite Hstop. discriminate.
  - rewrite Hstop. apply elem_of_cons in Hin as [->|Hin]; [congruence|].
    right. specialize (IH p Hin Hp). rewrite Hstop in IH. exact IH.
Qed.

Section SyncEngineFacts.

  Context {World : Type}.
  Variable listDevicesWithGroups :
    Tenant -> World -> (Thrown + list JsRecord) * World.
  Variable listManagedEndpoints :
    JsRecord -> JsValue -> string -> Z -> World ->
    (Thrown + list JsRecord) * World.
  Variable patchManagedEndpoint :
    JsRecord -> JsValue -> string -> JsValue -> JsRecord -> World ->
    (Thrown + unit) * World.
  Variable includeName : bool.

  Local Abbreviation State := (@RunState World).

  Section JobFacts.

  Variable config : Config.
  Variable opts : SyncOptions.
  Variable action1Token : JsValue.

  Local Abbreviation fetchDevices :=
    (fetchEntraDevices listDevicesWithGroups includeName).
  Local Abbreviation listEndpoints :=
    (callListEndpoints listManagedEndpoints (action1 config) action1Token).
  Local Abbreviation fetch :=
    (fetchStage listDevicesWithGroups listManagedEndpoints includeName
       config opts action1Token).
  Local Abbreviation patches :=
    (patchLoop patchManagedEndpoint config opts action1Token).
  Local Abbreviation body :=
    (jobBody listDevicesWithGroups listManagedEndpoints patchManagedEndpoint
       includeName config opts action1Token).
  Local Abbreviation iteration :=
    (jobIteration listDevicesWithGroups listManagedEndpoints patchManagedEndpoint
       includeName config opts action1Token).
  Local Abbreviation loop :=
    (jobLoop listDevicesWithGroups listManagedEndpoints patchManagedEndpoint
       includeName config opts action1Token).

Lemma fetchDevices_spec job (st : State) :
    exists r st' evs,
      fetchDevices job st = (r, st')
      /\ trace st' = trace st ++ evs
      /\ same_totals st st'
      /\ Forall (fetch_event r) evs.
  Proof.
    unfold fetchEntraDevices, bind, gets, ret, cacheSet, modify, callListDevices.
    destruct (entraDevicesCache st) as [cache|] eqn:Hc.
    - destruct (cache !! tenantCacheKey includeName (tenant job)) as [devs|].
      + exists (inr devs), st, []. rewrite app_nil_r.
        repeat split; constructor.
      + destruct (listDevicesWithGroups (tenant job) (world st)) as [[err|devs] w] eqn:Hl.
        * eexists _, _, [_]. split; [reflexivity|]. simpl.
          repeat split. constructor; [|constructor]. split; reflexivity.
        * eexists _, _, [_]. split; [reflexivity|]. simpl.
          repeat split. constructor; [|constructor]. split; [reflexivity|exact I].
    - destruct (listDevicesWithGroups (tenant job) (world st)) as [[err|devs] w] eqn:Hl.
      + eexists _, _, [_]. split; [reflexivity|]. simpl.
        repeat split. constructor; [|constructor]. split; reflexivity.
      + eexists _, _, [_]. split; [reflexivity|]. simpl.
        repeat split. constructor; [|constructor]. split; [reflexivity|exact I].
  Qed.

Lemma listEndpoints_spec org limit (st : State) :
    exists r st' e,
      listEndpoints org limit st = (r, st')
      /\ trace st' = trace st ++ [e]
      /\ same_totals st st'
      /\ fetch_event r e.
  Proof.
    unfold callListEndpoints.
    destruct (listManagedEndpoints _ _ _ _ (world st)) as [[err|eps] w].
    - eexists _, _, _. split; [reflexivity|]. simpl. repeat split.
    - eexists _, _, _. split; [reflexivity|]. simpl. repeat split.
  Qed.

Lemma fetch_event_weaken {A B : Type} (r : Thrown + A) (r' : Thrown + B) e :
    (forall err, r = inl err -> r' = inl err) ->
    fetch_event r e -> fetch_event r' e.
  Proof.
    intros H [Hp He]. split; [exact Hp|].
    destruct e as [?|? [?|]|? ? [?|]|? ? ? ?]; auto.
  Qed.

Lemma fetch_spec job (st : State) :
    exists r st' evs,
      fetch job st = (r, st')
      /\ trace st' = trace st ++ evs
      /\ same_totals st st'
      /\ Forall (fetch_event r) evs.
  Proof.
    unfold fetchStage, bind.
    destruct (fetchDevices_spec job st) as (r1 & st1 & evs1 & -> & Ht1 & Hs1 & Hf1).
    destruct r1 as [err|devs].
    - exists (inl err), st1, evs1. repeat split; try apply Hs1; try assumption.
      eapply Forall_impl; [exact Hf1|]. intros e. apply fetch_event_weaken.
      intros err' [= <-]. reflexivity.
    - destruct (listEndpoints_spec (organizationId job) (endpointPageSize opts) st1)
        as (r2 & st2 & e & -> & Ht2 & Hs2 & Hf2).
      destruct Hs1 as (Ha1 & Hb1 & Hc1). destruct Hs2 as (Ha2 & Hb2 & Hc2).
      assert (Hevs1 : forall B (r' : Thrown + B), Forall (fetch_event r') evs1).
      { intros B r'. eapply Forall_impl; [exact Hf1|]. intros e'.
        apply fetch_event_weaken. intros err' [=]. }
      destruct r2 as [err|eps].
      + exists (inl err), st2, (evs1 ++ [e]).
        split; [reflexivity|]. split; [rewrite Ht2, Ht1, app_assoc; reflexivity|].
        split; [repeat split; congruence|].
        apply Forall_app. split; [apply Hevs1|]. constructor; [|constructor].
        eapply fetch_event_weaken; [|exact Hf2]. intros err' [= <-]. reflexivity.
      + exists (inr (devs, eps)), st2, (evs1 ++ [e]).
        split; [reflexivity|]. split; [rewrite Ht2, Ht1, app_assoc; reflexivity|].
        split; [repeat split; congruence|].
        apply Forall_app. split; [apply Hevs1|]. constructor; [|constructor].
        eapply fetch_event_weaken; [|exact Hf2]. intros err' [=].
  Qed.

  Local Abbreviation apply_stage :=
    (applyStage patchManagedEndpoint config opts action1Token).

  (** The [try] block of a job is its two stages, one after the other. *)
Lemma body_stages job (st : State) :
    body job st =
      match fetch job st with
      | (inl err, st1) => (inl err, st1)
      | (inr (entraDevices, endpoints), st1) =>
          apply_stage job entraDevices endpoints st1
      end.
  Proof.
    unfold jobBody, fetchStage, applyStage, bind.
    destruct (fetchDevices job st) as [[err|devs] st1]; [reflexivity|].
    destruct (listEndpoints _ _ st1) as [[err|eps] st2]; reflexivity.
  Qed.

Lemma patches_spec job ps : forall (st : State) applied errs,
    exists st' news newerrs evs,
      patches job ps applied errs st = (inr (applied ++ news, errs ++ newerrs), st')
      /\ trace st' = trace st ++ evs
      /\ jobResults st' = jobResults st
      /\ totalPlannedPatches st' = totalPlannedPatches st
      /\ totalAppliedPatches st' = totalAppliedPatches st + Z.of_nat (length news)
      /\ countPatchOk evs = Z.of_nat (length news)
      /\ countPatchCalls evs <= Z.of_nat (length ps)
      /\ Forall (patch_event newerrs) evs.
  Proof.
    induction ps as [|p rest IH]; intros st applied errs.
    - exists st, [], [], []. rewrite !app_nil_r. simpl.
      repeat split; try lia. constructor.
    - simpl patchLoop. unfold bind at 1. unfold try_, applyPatch.
      destruct (negb (truthy (endpointId p))) eqn:Hid.
      + (* invalid item: a local error, no call *)
        unfold throw. cbv beta iota.
        destruct (stopOnPatchError opts).
        * eexists st, [], [_], []. rewrite app_nil_r. split; [reflexivity|].
          rewrite app_nil_r. simpl. repeat split; try lia. constructor.
        * destruct (IH st applied (errs ++ [{| pe_endpointId := endpointId p;
                      pe_error := errMsg (ThrownError "Error"
                        "Invalid patch item: missing endpointId or patch object") |}]))
            as (st' & news & newerrs & evs & Hrun & Ht & Hr & Hp & Ha & Hc & Hn & Hf).
          eexists st', news, (_ :: newerrs), evs.
          split; [rewrite Hrun, <- app_assoc; reflexivity|].
          repeat split; try assumption; try (simpl length; lia).
          eapply Forall_impl; [exact Hf|]. intros e.
          destruct e as [?|? ?|? ? ?|? ? ? [?|]]; simpl; auto. apply list_elem_of_further.
      + destruct (size (patch p) =? 0)%nat.
        * (* empty body: skipped *)
          unfold ret. cbv beta iota.
          destruct (IH st applied errs)
            as (st' & news & newerrs & evs & Hrun & Ht & Hr & Hp & Ha & Hc & Hn & Hf).
          exists st', news, newerrs, evs.
          repeat split; try assumption. simpl length. lia.
        * unfold bind, callPatch, addApplied, modify, ret.
          destruct (patchManagedEndpoint _ _ _ _ _ (world st)) as [[err|[]] w].
          -- (* the call failed *)
             cbv beta iota.
             set (st1 := with_world st w _).
             destruct (stopOnPatchError opts).
             ++ eexists st1, [], [_], [_]. rewrite app_nil_r.
                split; [reflexivity|]. simpl. repeat split; try (cbn; lia).
                constructor; [|constructor]. simpl. apply list_elem_of_here.
             ++ destruct (IH st1 applied (errs ++ [{| pe_endpointId := endpointId p;
                      pe_error := errMsg err |}]))
                  as (st' & news & newerrs & evs & Hrun & Ht & Hr & Hp & Ha & Hc & Hn & Hf).
                eexists st', news, (_ :: newerrs), (_ :: evs).
                split; [rewrite Hrun, <- app_assoc; reflexivity|].
                split; [rewrite Ht; simpl; rewrite <- app_assoc; reflexivity|].
                repeat split; try assumption; try (simpl; simpl in Hn; lia).
                constructor; [simpl; apply list_elem_of_here|].
                eapply Forall_impl; [exact Hf|]. intros e.
                destruct e as [?|? ?|? ? ?|? ? ? [?|]]; simpl; auto.
                apply list_elem_of_further.
          -- (* the call returned: the patch is counted *)
             cbv beta iota.
             match goal with
             | |- context [patchLoop _ _ _ _ _ _ _ _ ?s] => set (st1 := s)
             end.
             destruct (IH st1 (applied ++ [endpointId p]) errs)
               as (st' & news & newerrs & evs & Hrun & Ht & Hr & Hp & Ha & Hc & Hn & Hf).
             eexists st', (endpointId p :: news), newerrs, (_ :: evs).
             split; [rewrite Hrun, <- app_assoc; reflexivity|].
             split; [rewrite Ht; simpl; rewrite <- app_assoc; reflexivity|].
             repeat split; try assumption.
             ++ rewrite Ha. simpl totalAppliedPatches. simpl length. lia.
             ++ simpl. simpl in Hc. lia.
             ++ simpl. simpl in Hn. lia.
             ++ constructor; [exact I|exact Hf].
  Qed.

Lemma Effect_refl (st : State) : Effect opts st st [] [].
  Proof.
    constructor; simpl; rewrite ?app_nil_r; try reflexivity; try lia; auto.
    intros _ d Hd. inversion Hd.
  Qed.

Lemma limits_ok_app total rs1 rs2 :
    limits_ok opts total rs1 ->
    limits_ok opts (total + sumApplied rs1) rs2 ->
    limits_ok opts total (rs1 ++ rs2).
  Proof.
    revert total. induction rs1 as [|r rs1 IH]; intros total H1 H2; simpl in *.
    - rewrite Z.add_0_r in H2. exact H2.
    - destruct H1 as [Hr H1]. split; [exact Hr|]. apply IH; [exact H1|].
      rewrite <- Z.add_assoc. exact H2.
  Qed.

Lemma limits_ok_split total before r after :
    limits_ok opts total (before ++ r :: after) ->
    job_limited opts (total + sumApplied before) r.
  Proof.
    revert total. induction before as [|r0 before IH]; intros total H; simpl in *.
    - rewrite Z.add_0_r. apply H.
    - destruct H as [_ H]. apply IH in H. rewrite Z.add_assoc. exact H.
  Qed.

Lemma Effect_trans (st st1 st2 : State) rs1 rs2 evs1 evs2 :
    Effect opts st st1 rs1 evs1 -> Effect opts st1 st2 rs2 evs2 ->
    Effect opts st st2 (rs1 ++ rs2) (evs1 ++ evs2).
  Proof.
    intros [] []. constructor.
    - rewrite app_assoc. congruence.
    - rewrite app_assoc. congruence.
    - rewrite sumPlanned_app. lia.
    - rewrite sumApplied_app. lia.
    - rewrite sumApplied_app, countPatchOk_app. lia.
    - auto.
    - intros Hd. rewrite countPatchCalls_app. rewrite eff_dry_calls0, eff_dry_calls1; auto.
    - intros Hd d Hin. apply elem_of_app in Hin as [Hin|Hin]; eauto.
    - apply Forall_app. split.
      + eapply Forall_impl; [eassumption|]. intros e. apply failure_recorded_mono.
        intros r Hr. apply elem_of_app. left; exact Hr.
      + eapply Forall_impl; [eassumption|]. intros e. apply failure_recorded_mono.
        intros r Hr. apply elem_of_app. right; exact Hr.
    - apply limits_ok_app; [assumption|]. rewrite <- eff_applied0. assumption.
  Qed.

Lemma fetch_events_no_patch {A : Type} (r : Thrown + A) evs :
    Forall (fetch_event r) evs -> countPatchCalls evs = 0 /\ countPatchOk evs = 0.
  Proof.
    intros H. assert (Hc : countPatchCalls evs = 0).
    { induction H as [|e evs [He _] _ IH]; simpl; [reflexivity|]. rewrite He, IH. lia. }
    split; [exact Hc|]. pose proof (countPatchOk_le_calls evs). lia.
  Qed.

  (** Steps 3 and 4 never throw; they push the result of the job. *)
Lemma applyStage_spec job entraDevices endpoints (st : State) :
    let limits := safetyLimits opts (totalAppliedPatches st)
                    (plannedPatches job entraDevices endpoints) in
    exists st' d evs,
      apply_stage job entraDevices endpoints st = (inr tt, st')
      /\ Effect opts st st' [JobOk d] evs
      /\ Forall (patch_event (jr_patchErrors d)) evs
      /\ countPatchCalls evs <= jr_patchesToProcess d
      /\ resultIdentity (JobOk d) = jobIdentity job
      /\ jr_patchesPlanned d
         = Z.of_nat (length (plannedPatches job entraDevices endpoints))
      /\ jr_patchesToProcess d = Z.of_nat (length (fst limits))
      /\ jr_limitedBy d = snd limits
      /\ jr_dryRun d = dryRun opts
      /\ 0 <= jr_patchesApplied d <= jr_patchesToProcess d.
  Proof.
    intros limits. unfold applyStage, bind, addPlanned, gets, modify, pushResult.
    cbv beta iota. simpl totalAppliedPatches.
    fold (plannedPatches job entraDevices endpoints). fold limits.
    pose proof (safetyLimits_remaining opts (totalAppliedPatches st)
                  (plannedPatches job entraDevices endpoints)) as Hroom.
    fold limits in Hroom.
    destruct (dryRun opts) eqn:Hdry.
    - unfold ret. cbv beta iota. simpl fst. simpl snd.
      match goal with
      | |- context [JobOk ?d0] => eexists; exists d0, []
      end.
      split; [reflexivity|]. simpl.
      split.
      { constructor; simpl; rewrite ?app_nil_r; try reflexivity; try lia; auto.
        - intros _ d Hd. apply list_elem_of_singleton in Hd.
          injection Hd as Hd. subst d. reflexivity.
        - split; [|exact I].
          exists (plannedPatches job entraDevices endpoints).
          simpl. fold limits. (repeat split); first [reflexivity|lia]. }
      split; [apply List.Forall_nil|]. simpl. (repeat split); first [reflexivity|lia].
    - match goal with
      | |- context [patchLoop _ _ _ _ _ _ _ _ ?s] => set (st1 := s)
      end.
      change (safetyLimits opts (totalAppliedPatches st1)
                (plannedPatches job entraDevices endpoints)) with limits.
      destruct (patches_spec job (fst limits) st1 [] [])
        as (st' & news & newerrs & evs & Hrun & Ht & Hr & Hp & Ha & Hc & Hn & Hf).
      rewrite Hrun. unfold modify. cbv beta iota. simpl fst. simpl snd.
      match goal with
      | |- context [JobOk ?d0] => eexists; exists d0, evs
      end.
      split; [reflexivity|]. simpl.
      pose proof (countPatchOk_le_calls evs) as Hle.
      split.
      { constructor; simpl; try lia.
        + rewrite Hr. reflexivity.
        + exact Ht.
        + rewrite Hp. simpl. lia.
        + rewrite Ha. simpl. lia.
        + intros Hst. rewrite Ha. simpl. lia.
        + rewrite Hdry. discriminate.
        + rewrite Hdry. discriminate.
        + eapply Forall_impl; [exact Hf|]. intros e.
          destruct e as [?|? ?|? ? ?|? ? ? [?|]]; simpl; try tauto.
          intros Hin. eexists. split; [apply list_elem_of_here|]. exact Hin.
        + split; [|exact I].
          exists (plannedPatches job entraDevices endpoints).
          simpl. fold limits. (repeat split); first [reflexivity|lia]. }
      simpl. split; [exact Hf|]. (repeat split); first [reflexivity|lia].
  Qed.

Lemma fetch_effect (st st1 : State) evs (de : list JsRecord * list JsRecord) :
    trace st1 = trace st ++ evs -> same_totals st st1 ->
    Forall (fetch_event (inr de : Thrown + _)) evs ->
    Effect opts st st1 [] evs.
  Proof.
    intros Ht (Hr & Hp & Ha) Hf.
    destruct (fetch_events_no_patch _ _ Hf) as [Hc Ho].
    constructor; simpl; rewrite ?app_nil_r; try lia; auto; try congruence.
    - intros _ d Hd. inversion Hd.
    - eapply Forall_impl; [exact Hf|]. intros e [Hp' He].
      destruct e as [?|? [?|]|? ? [?|]|? ? ? ?]; simpl; try exact I; discriminate.
  Qed.

  (** A job whose fetch throws: the [catch] block pushes the minimal
      result, and the loop goes on unless [stopOnJobError] is set. *)
Lemma iteration_failed job (st st1 : State) err :
    fetch job st = (inl err, st1) ->
    iteration job st
    = (inr (negb (stopOnJobError opts)),
       snd (pushResult (minimalResult job opts err) st1)).
  Proof.
    intros Hf. unfold jobIteration, bind, try_. rewrite body_stages, Hf.
    unfold pushResult, modify, ret, minimalResult. cbv beta iota.
    destruct (stopOnJobError opts); reflexivity.
  Qed.

Lemma iteration_done job (st st1 : State) entraDevices endpoints :
    fetch job st = (inr (entraDevices, endpoints), st1) ->
    iteration job st
    = (inr true, snd (apply_stage job entraDevices endpoints st1)).
  Proof.
    intros Hf. unfold jobIteration, bind, try_. rewrite body_stages, Hf.
    destruct (applyStage_spec job entraDevices endpoints st1)
      as (st' & d & evs & -> & _).
    reflexivity.
  Qed.

Lemma iteration_spec job (st : State) :
    exists b st' r evs,
      iteration job st = (inr b, st')
      /\ Effect opts st st' [r] evs
      /\ resultIdentity r = jobIdentity job
      /\ (stopOnJobError opts = false -> b = true).
  Proof.
    destruct (fetch_spec job st) as (r & st1 & evs1 & Hfetch & Ht1 & Hs1 & Hf1).
    destruct r as [err|[entraDevices endpoints]].
    - rewrite (iteration_failed _ _ _ _ Hfetch).
      eexists _, _, (minimalResult job opts err), evs1.
      split; [reflexivity|]. split; [|split; [reflexivity|intros ->; reflexivity]].
      destruct Hs1 as (Hr & Hp & Ha).
      destruct (fetch_events_no_patch _ _ Hf1) as [Hc Ho].
      constructor; simpl; try lia; try congruence; auto.
      + intros _ d Hd. apply list_elem_of_singleton in Hd. discriminate.
      + eapply Forall_impl; [exact Hf1|]. intros e [Hp' He].
        destruct e as [?|? [?|]|? ? [?|]|? ? ? ?]; simpl; try exact I;
          try discriminate.
        * injection He as <-. eexists. split; [apply list_elem_of_here|reflexivity].
        * injection He as <-. eexists. split; [apply list_elem_of_here|reflexivity].
    - rewrite (iteration_done _ _ _ _ _ Hfetch).
      destruct (applyStage_spec job entraDevices endpoints st1)
        as (st' & d & evs2 & -> & Heff & _ & _ & Hid & _).
      exists true, st', (JobOk d), (evs1 ++ evs2).
      split; [reflexivity|]. split; [|split; [exact Hid|reflexivity]].
      apply (Effect_trans st st1 st' [] [JobOk d] evs1 evs2); [|exact Heff].
      eapply fetch_effect; eassumption.
  Qed.

Lemma loop_spec jobs : forall st : State,
    exists st' rs evs,
      loop jobs st = (inr tt, st')
      /\ Effect opts st st' rs evs
      /\ map resultIdentity rs = map jobIdentity (take (length rs) jobs)
      /\ (length rs <= length jobs)%nat
      /\ (stopOnJobError opts = false -> length rs = length jobs).
  Proof.
    induction jobs as [|job rest IH]; intros st.
    - exists st, [], []. split; [reflexivity|]. split; [apply Effect_refl|].
      simpl. repeat split; lia.
    - destruct (iteration_spec job st) as (b & st1 & r & evs1 & Hit & Heff1 & Hid & Hb).
      simpl jobLoop. unfold bind at 1. rewrite Hit.
      destruct b.
      + destruct (IH st1) as (st' & rs & evs & Hrun & Heff & Hids & Hlen & Hall).
        exists st', (r :: rs), (evs1 ++ evs).
        split; [exact Hrun|]. split; [exact (Effect_trans _ _ _ _ _ _ _ Heff1 Heff)|].
        simpl. rewrite Hid, Hids. repeat split; try lia.
        intros Hs. rewrite (Hall Hs). reflexivity.
      + exists st1, [r], evs1. split; [reflexivity|]. split; [exact Heff1|].
        simpl. rewrite Hid. repeat split; try lia.
        intros Hs. specialize (Hb Hs). discriminate.
  Qed.

Lemma patches_run job ps : forall (st : State) applied0 errs0,
    exists st' evs applied errs,
      patches job ps applied0 errs0 st
      = (inr (applied0 ++ applied, errs0 ++ errs), st')
      /\ trace st' = trace st ++ evs
      /\ jobResults st' = jobResults st
      /\ PatchRun opts (organizationId job) ps evs applied errs.
  Proof.
    induction ps as [|p rest IH]; intros st applied0 errs0.
    - exists st, [], [], []. rewrite !app_nil_r.
      split; [reflexivity|]. split; [reflexivity|]. split; [reflexivity|constructor].
    - simpl patchLoop. unfold bind at 1. unfold try_, applyPatch.
      destruct (negb (truthy (endpointId p))) eqn:Hid.
      + apply negb_true_iff in Hid.
        unfold throw. cbv beta iota.
        change (errMsg (ThrownError "Error"
                  "Invalid patch item: missing endpointId or patch object"))
          with invalidItemMessage.
        destruct (stopOnPatchError opts) eqn:Hstop.
        * eexists st, [], [], [_]. rewrite !app_nil_r.
          split; [reflexivity|]. split; [reflexivity|]. split; [reflexivity|].
          apply run_invalid_stop; assumption.
        * destruct (IH st applied0 (errs0 ++ [patchErrorOf p invalidItemMessage]))
            as (st' & evs & applied & errs & Hrun & Ht & Hjr & Hpr).
          eexists st', evs, applied, (_ :: errs).
          split; [unfold patchErrorOf in Hrun; rewrite Hrun, <- app_assoc;
                  reflexivity|].
          split; [exact Ht|]. split; [exact Hjr|].
          apply run_invalid_next; assumption.
      + apply negb_false_iff in Hid.
        destruct (size (patch p) =? 0)%nat eqn:Hsize.
        * apply Nat.eqb_eq, map_size_empty_iff in Hsize.
          unfold ret. cbv beta iota.
          destruct (IH st applied0 errs0)
            as (st' & evs & applied & errs & Hrun & Ht & Hjr & Hpr).
          exists st', evs, applied, errs.
          split; [exact Hrun|]. split; [exact Ht|]. split; [exact Hjr|].
          apply run_empty; assumption.
        * apply Nat.eqb_neq in Hsize.
          assert (Hne : patch p <> ∅).
          { intros E. apply Hsize. rewrite E. apply map_size_empty. }
          unfold bind, callPatch, addApplied, modify, ret.
          destruct (patchManagedEndpoint _ _ _ _ _ (world st)) as [[err|[]] w].
          -- cbv beta iota.
             set (st1 := with_world st w _).
             destruct (stopOnPatchError opts) eqn:Hstop.
             ++ eexists st1, [_], [], [_]. rewrite app_nil_r.
                split; [reflexivity|]. split; [reflexivity|].
                split; [reflexivity|].
                apply run_refused_stop; assumption.
             ++ destruct (IH st1 applied0 (errs0 ++ [patchErrorOf p (errMsg err)]))
                  as (st' & evs & applied & errs & Hrun & Ht & Hjr & Hpr).
                eexists st', (_ :: evs), applied, (_ :: errs).
                split; [unfold patchErrorOf in Hrun; rewrite Hrun, <- app_assoc;
                        reflexivity|].
                split; [rewrite Ht; simpl; rewrite <- app_assoc; reflexivity|].
                split; [exact Hjr|].
                apply run_refused_next; assumption.
          -- cbv beta iota.
             match goal with
             | |- context [patchLoop _ _ _ _ _ _ _ _ ?s] => set (st1 := s)
             end.
             destruct (IH st1 (applied0 ++ [endpointId p]) errs0)
               as (st' & evs & applied & errs & Hrun & Ht & Hjr & Hpr).
             eexists st', (_ :: evs), (endpointId p :: applied), errs.
             split; [rewrite Hrun, <- app_assoc; reflexivity|].
             split; [rewrite Ht; simpl; rewrite <- app_assoc; reflexivity|].
             split; [exact Hjr|].
             apply run_applied; assumption.
  Qed.

Lemma applyStage_run job entraDevices endpoints (st : State) :
    let limits := safetyLimits opts (totalAppliedPatches st)
                    (plannedPatches job entraDevices endpoints) in
    exists st' d evs,
      apply_stage job entraDevices endpoints st = (inr tt, st')
      /\ jobResults st' = jobResults st ++ [JobOk d]
      /\ trace st' = trace st ++ evs
      /\ jr_patchesPlanned d
         = Z.of_nat (length (plannedPatches job entraDevices endpoints))
      /\ jr_patchesToProcess d = Z.of_nat (length (fst limits))
      /\ jr_limitedBy d = snd limits
      /\ patchPhase opts (organizationId job) (fst limits) evs d.
  Proof.
    intros limits. unfold applyStage, bind, addPlanned, gets, modify, pushResult.
    cbv beta iota. simpl totalAppliedPatches.
    fold (plannedPatches job entraDevices endpoints). fold limits.
    unfold patchPhase.
    destruct (dryRun opts) eqn:Hdry.
    - unfold ret. cbv beta iota. simpl fst. simpl snd.
      match goal with
      | |- context [JobOk ?d0] => eexists; exists d0, []
      end.
      split; [reflexivity|]. simpl. rewrite app_nil_r.
      repeat split; reflexivity.
    - match goal with
      | |- context [patchLoop _ _ _ _ _ _ _ _ ?s] => set (st1 := s)
      end.
      change (safetyLimits opts (totalAppliedPatches st1)
                (plannedPatches job entraDevices endpoints)) with limits.
      destruct (patches_run job (fst limits) st1 [] [])
        as (st' & evs & applied & errs & Hrun & Ht & Hjr & Hpr).
      rewrite Hrun. unfold modify. cbv beta iota. simpl fst. simpl snd.
      match goal with
      | |- context [JobOk ?d0] => eexists; exists d0, evs
      end.
      split; [reflexivity|]. simpl.
      split; [rewrite Hjr; reflexivity|]. split; [exact Ht|].
      split; [reflexivity|]. split; [reflexivity|]. split; [reflexivity|].
      exists applied. split; [exact Hpr|reflexivity].
  Qed.

  (** What a turn of the job loop does, by the outcome of its two fetches. *)
Lemma iteration_account job (st : State) :
    match fetch job st with
    | (inl err, st1) =>
        iteration job st
        = (inr (negb (stopOnJobError opts)),
           snd (pushResult (minimalResult job opts err) st1))
    | (inr (entraDevices, endpoints), st1) =>
        let limits := safetyLimits opts (totalAppliedPatches st)
                        (plannedPatches job entraDevices endpoints) in
        exists st' d evs,
          iteration job st = (inr true, st')
          /\ jobResults st' = jobResults st ++ [JobOk d]
          /\ trace st' = trace st1 ++ evs
          /\ jr_patchesPlanned d
             = Z.of_nat (length (plannedPatches job entraDevices endpoints))
          /\ jr_patchesToProcess d = Z.of_nat (length (fst limits))
          /\ jr_limitedBy d = snd limits
          /\ patchPhase opts (organizationId job) (fst limits) evs d
    end.
  Proof.
    destruct (fetch_spec job st) as (r & st1 & evs1 & Hfetch & Ht1 & Hs1 & Hf1).
    rewrite Hfetch. destruct r as [err|[entraDevices endpoints]].
    - exact (iteration_failed _ _ _ _ Hfetch).
    - rewrite (iteration_done _ _ _ _ _ Hfetch).
      destruct Hs1 as (Hr1 & _ & Ha1). rewrite <- Ha1, <- Hr1.
      destruct (applyStage_run job entraDevices endpoints st1)
        as (st' & d & evs & Hrun & Hres & Ht & Hp & Hq & Hl & Hph).
      rewrite Hrun. exists st', d, evs. simpl snd.
      repeat split; assumption.
  Qed.

  (** The turn of the loop that gave the result of index [i]: the loop over
      the jobs before it leads to the state in which it ran. *)
Lemma loop_step_at jobs : forall (st st' : State) rs,
    loop jobs st = (inr tt, st') ->
    jobResults st' = jobResults st ++ rs ->
    forall i r, rs !! i = Some r ->
      exists job st_i,
        jobs !! i = Some job
        /\ loop (take i jobs) st = (inr tt, st_i)
        /\ jobResults st_i = jobResults st ++ take i rs
        /\ totalAppliedPatches st_i
           = totalAppliedPatches st + sumApplied (take i rs)
        /\ jobResults (snd (iteration job st_i)) = jobResults st_i ++ [r]
        /\ exists rest, trace st' = trace (snd (iteration job st_i)) ++ rest.
  Proof.
    induction jobs as [|job rest IH]; intros st st' rs Hrun Hres i r Hi.
    - simpl in Hrun. injection Hrun as <-.
      assert (rs = []) as ->.
      { apply (f_equal length) in Hres. rewrite length_app in Hres.
        destruct rs; [reflexivity|simpl in Hres; lia]. }
      rewrite lookup_nil in Hi. discriminate.
    - destruct (iteration_spec job st)
        as (b & st1 & r0 & evs1 & Hit & Heff1 & _ & _).
      simpl jobLoop in Hrun. unfold bind at 1 in Hrun. rewrite Hit in Hrun.
      pose proof (eff_results _ _ _ _ _ Heff1) as Hr1.
      pose proof (eff_applied _ _ _ _ _ Heff1) as Ha1.
      assert (Hhere : forall st2 : State, exists job0 st_i,
                 (job :: rest) !! 0%nat = Some job0
                 /\ loop (take 0 (job :: rest)) st = (inr tt, st_i)
                 /\ jobResults st_i = jobResults st ++ take 0 (r0 :: [])
                 /\ totalAppliedPatches st_i = totalAppliedPatches st + 0
                 /\ jobResults (snd (iteration job0 st_i)) = jobResults st_i ++ [r0]
                 /\ snd (iteration job0 st_i) = st1).
      { intros _. exists job, st. simpl. rewrite app_nil_r, Hit. simpl.
        repeat split; try reflexivity; [lia|exact Hr1]. }
      destruct b.
      + destruct (loop_spec rest st1)
          as (st'' & rs' & evs & Hrun' & Heff & _).
        rewrite Hrun' in Hrun. injection Hrun as <-.
        pose proof (eff_results _ _ _ _ _ Heff) as Hr2.
        pose proof (eff_trace _ _ _ _ _ Heff) as Ht2.
        assert (rs = r0 :: rs') as ->.
        { rewrite Hr2, Hr1, <- app_assoc in Hres.
          apply app_inv_head in Hres. symmetry. exact Hres. }
        destruct i as [|i].
        * simpl in Hi. injection Hi as <-.
          destruct (Hhere st) as (job0 & st_i & H1 & H2 & H3 & H4 & H5 & H6).
          exists job0, st_i. simpl take in *. simpl sumApplied.
          repeat split; try assumption.
          exists evs. rewrite H6. exact Ht2.
        * simpl in Hi.
          destruct (IH st1 st'' rs' Hrun' Hr2 i r Hi)
            as (job' & st_i & Hj & Hloop & Hres_i & Happ_i & Hstep & Hrest).
          exists job', st_i. split; [exact Hj|].
          split.
          { simpl take. simpl jobLoop. unfold bind at 1. rewrite Hit. exact Hloop. }
          split; [rewrite Hres_i, Hr1, <- app_assoc; reflexivity|].
          split.
          { rewrite Happ_i, Ha1. simpl take. simpl sumApplied. lia. }
          split; [exact Hstep|exact Hrest].
      + injection Hrun as <-.
        assert (rs = [r0]) as ->.
        { rewrite Hr1 in Hres. apply app_inv_head in Hres. symmetry. exact Hres. }
        destruct i as [|i]; [|simpl in Hi; rewrite lookup_nil in Hi; discriminate].
        simpl in Hi. injection Hi as <-.
        destruct (Hhere st) as (job0 & st_i & H1 & H2 & H3 & H4 & H5 & H6).
        exists job0, st_i. simpl take in *. simpl sumApplied.
        repeat split; try assumption.
        exists []. rewrite H6, app_nil_r. reflexivity.
  Qed.

  End JobFacts.

  (** C7. Error isolation: when the directory fetch or the endpoint listing
      of a job throws, the turn of the loop pushes a result of exactly four
      properties (tenantName, organizationId, error with the message, dryRun)
      and answers that the loop goes on unless [stopOnJobError] is set; with
      [stopOnJobError] false the remaining jobs all run, each giving its
      result in order. *)
Theorem job_error_isolation
      (config : Config) (opts : SyncOptions) (action1Token : JsValue)
      (job : SyncJob) (rest : list SyncJob) (st st1 : State) (err : Thrown) :
    (fetchEntraDevices listDevicesWithGroups includeName job st = (inl err, st1)
     \/ exists entraDevices st0,
          fetchEntraDevices listDevicesWithGroups includeName job st
          = (inr entraDevices, st0)
          /\ callListEndpoints listManagedEndpoints (action1 config) action1Token
               (organizationId job) (endpointPageSize opts) st0
             = (inl err, st1)) ->
    let failed :=
      JobFailed {| jf_tenantName := tenant_name (tenant job);
                   jf_organizationId := organizationId job;
                   jf_error := errMsg err;
                   jf_dryRun := dryRun opts |} in
    let st2 :=
      {| world := world st1;
         trace := trace st1;
         jobResults := jobResults st1 ++ [failed];
         entraDevicesCache := entraDevicesCache st1;
         totalPlannedPatches := totalPlannedPatches st1;
         totalAppliedPatches := totalAppliedPatches st1 |} in
    jobIteration listDevicesWithGroups listManagedEndpoints patchManagedEndpoint
      includeName config opts action1Token job st
    = (inr (negb (stopOnJobError opts)), st2)
    /\ jobResults st2 = jobResults st ++ [failed]
    /\ totalPlannedPatches st2 = totalPlannedPatches st
    /\ totalAppliedPatches st2 = totalAppliedPatches st
    /\ (stopOnJobError opts = false ->
        jobLoop listDevicesWithGroups listManagedEndpoints patchManagedEndpoint
          includeName config opts action1Token (job :: rest) st
        = jobLoop listDevicesWithGroups listManagedEndpoints patchManagedEndpoint
            includeName config opts action1Token rest st2
        /\ exists st' rs,
             jobLoop listDevicesWithGroups listManagedEndpoints
               patchManagedEndpoint includeName config opts action1Token
               (job :: rest) st
             = (inr tt, st')
             /\ jobResults st' = jobResults st ++ failed :: rs
             /\ map resultIdentity rs = map jobIdentity rest).
  Proof.
    intros Hthrow failed st2.
    assert (Hfetch : fetchStage listDevicesWithGroups listManagedEndpoints
                       includeName config opts action1Token job st = (inl err, st1)).
    { unfold fetchStage, bind.
      destruct Hthrow as [->|(devs & st0 & -> & Hl)]; [reflexivity|].
      rewrite Hl. reflexivity. }
    destruct (fetch_spec config opts action1Token job st)
      as (r & st1' & evs & Hf & _ & (Hr & Hp & Ha) & _).
    rewrite Hfetch in Hf. injection Hf as <- <-.
    assert (Hit : jobIteration listDevicesWithGroups listManagedEndpoints
                    patchManagedEndpoint includeName config opts action1Token job st
                  = (inr (negb (stopOnJobError opts)), st2)).
    { rewrite (iteration_failed _ _ _ _ _ _ _ Hfetch). reflexivity. }
    split; [exact Hit|]. split; [simpl; rewrite Hr; reflexivity|].
    split; [exact Hp|]. split; [exact Ha|].
    intros Hstop.
    assert (Hloop : jobLoop listDevicesWithGroups listManagedEndpoints
                      patchManagedEndpoint includeName config opts action1Token
                      (job :: rest) st
                    = jobLoop listDevicesWithGroups listManagedEndpoints
                        patchManagedEndpoint includeName config opts action1Token
                        rest st2).
    { simpl jobLoop. unfold bind at 1. rewrite Hit, Hstop. reflexivity. }
    split; [exact Hloop|].
    destruct (loop_spec config opts action1Token rest st2)
      as (st' & rs & evs' & Hrun & Heff & Hids & Hlen & Hall).
    exists st', rs. rewrite Hloop. split; [exact Hrun|].
    destruct Heff as [Hres _ _ _ _ _ _ _ _ _].
    split.
    - rewrite Hres. simpl. rewrite Hr, <- app_assoc. reflexivity.
    - rewrite Hids, (Hall Hstop), firstn_all. reflexivity.
  Qed.

  Variable getAction1AccessToken :
    JsRecord -> World -> (Thrown + JsValue) * World.

  Local Abbreviation run :=
    (runSync getAction1AccessToken listDevicesWithGroups listManagedEndpoints
       patchManagedEndpoint includeName).

  (** A run whose token acquisition throws rejects with what was thrown,
      before any job. *)
Lemma runSync_token_failure config options (w w' : World) err :
    getAction1AccessToken (action1 config) w = (inl err, w') ->
    run config options (startState w)
    = (inl err, with_world (startState w) w' (EvGetToken (Some err))).
  Proof.
    intros Htok. unfold runSync, bind at 1. unfold callGetToken.
    simpl world. rewrite Htok. reflexivity.
  Qed.

  (** A run that gets its token returns a summary; [rs] are the results of
      the job loop and [evs] the calls it made. *)
Lemma runSync_token_ok config options (w w' : World) token :
    getAction1AccessToken (action1 config) w = (inr token, w') ->
    let opts := normalizeOptions options in
    exists (st0 st' : State) rs evs,
      run config options (startState w)
      = (inr {| sum_dryRun := dryRun opts;
                sum_jobs := Z.of_nat (length (getSyncJobs config));
                sum_totalPlannedPatches := sumPlanned rs;
                sum_totalAppliedPatches := sumApplied rs;
                sum_results := rs |}, st')
      /\ trace st0 = [EvGetToken None]
      /\ totalAppliedPatches st0 = 0
      /\ Effect opts st0 st' rs evs
      /\ map resultIdentity rs
         = map jobIdentity (take (length rs) (getSyncJobs config))
      /\ (stopOnJobError opts = false -> length rs = length (getSyncJobs config)).
  Proof.
    intros Htok opts. unfold runSync. fold opts. unfold bind at 1.
    unfold callGetToken. simpl world. rewrite Htok. cbv beta iota.
    unfold bind at 1. unfold initLocals, modify. cbv beta iota.
    match goal with
    | |- context [bind (jobLoop _ _ _ _ _ _ _ _) _ ?s] => set (st0 := s)
    end.
    destruct (loop_spec config opts token (getSyncJobs config) st0)
      as (st' & rs & evs & Hrun & Heff & Hids & _ & Hall).
    exists st0, st', rs, evs. unfold bind, gets, ret. rewrite Hrun.
    split.
    { destruct Heff as [Hres _ Hpl Hap _ _ _ _ _ _].
      assert (H1 : jobResults st' = rs) by (rewrite Hres; reflexivity).
      assert (H2 : totalPlannedPatches st' = sumPlanned rs)
        by (rewrite Hpl; reflexivity).
      assert (H3 : totalAppliedPatches st' = sumApplied rs)
        by (rewrite Hap; reflexivity).
      rewrite H1, H2, H3. reflexivity. }
    split; [reflexivity|]. split; [reflexivity|]. split; [exact Heff|].
    split; assumption.
  Qed.

  (** What is known of a run that returned a summary. *)
Lemma runSync_inv config options (w : World) summary (st' : State) :
    run config options (startState w) = (inr summary, st') ->
    let opts := normalizeOptions options in
    exists (st0 : State) evs,
      sum_dryRun summary = dryRun opts
      /\ sum_jobs summary = Z.of_nat (length (getSyncJobs config))
      /\ sum_totalPlannedPatches summary = sumPlanned (sum_results summary)
      /\ sum_totalAppliedPatches summary = sumApplied (sum_results summary)
      /\ trace st0 = [EvGetToken None]
      /\ totalAppliedPatches st0 = 0
      /\ Effect opts st0 st' (sum_results summary) evs
      /\ map resultIdentity (sum_results summary)
         = map jobIdentity (take (length (sum_results summary)) (getSyncJobs config))
      /\ (stopOnJobError opts = false ->
          length (sum_results summary) = length (getSyncJobs config)).
  Proof.
    intros Hrun opts.
    destruct (getAction1AccessToken (action1 config) w) as [[err|token] w'] eqn:Htok.
    - rewrite (runSync_token_failure _ _ _ _ _ Htok) in Hrun. discriminate.
    - destruct (runSync_token_ok config options w w' token Htok)
        as (st0 & st'' & rs & evs & Hrun' & Ht & Ha & Heff & Hids & Hall).
      rewrite Hrun' in Hrun. injection Hrun as <- <-.
      exists st0, evs. simpl.
      split; [reflexivity|]. split; [reflexivity|]. split; [reflexivity|].
      split; [reflexivity|]. split; [exact Ht|]. split; [exact Ha|].
      split; [exact Heff|]. split; assumption.
  Qed.


  (** A run whose token acquisition returns is the job loop from
      [loopStart], and its summary reads the variables the loop leaves. *)
Lemma runSync_loop config options (w w1 : World) token :
    getAction1AccessToken (action1 config) w = (inr token, w1) ->
    let opts := normalizeOptions options in
    exists st' : State,
      jobLoop listDevicesWithGroups listManagedEndpoints patchManagedEndpoint
        includeName config opts token (getSyncJobs config) (loopStart opts w1)
      = (inr tt, st')
      /\ run config options (startState w)
         = (inr {| sum_dryRun := dryRun opts;
                   sum_jobs := Z.of_nat (length (getSyncJobs config));
                   sum_totalPlannedPatches := totalPlannedPatches st';
                   sum_totalAppliedPatches := totalAppliedPatches st';
                   sum_results := jobResults st' |}, st').
  Proof.
    intros Htok opts.
    destruct (loop_spec config opts token (getSyncJobs config) (loopStart opts w1))
      as (st' & rs & evs & Hrun & _).
    exists st'. split; [exact Hrun|].
    unfold runSync. fold opts. unfold bind at 1. unfold callGetToken.
    simpl world. rewrite Htok. cbv beta iota.
    unfold bind at 1. unfold initLocals, modify. cbv beta iota.
    match goal with
    | |- context [bind (jobLoop _ _ _ _ _ _ _ _) _ ?s] =>
        change s with (loopStart opts w1)
    end.
    unfold bind, gets, ret. rewrite Hrun. reflexivity.
  Qed.

  (** The job that gave the result of index [i] of a run, the state in
      which its turn began, and what the turn did. *)
Lemma runSync_step_at config options (w w1 : World) token summary (st' : State) :
    getAction1AccessToken (action1 config) w = (inr token, w1) ->
    run config options (startState w) = (inr summary, st') ->
    let opts := normalizeOptions options in
    let jobs := getSyncJobs config in
    forall i r, sum_results summary !! i = Some r ->
      exists job (st_i : State),
        jobs !! i = Some job
        /\ jobLoop listDevicesWithGroups listManagedEndpoints patchManagedEndpoint
             includeName config opts token (take i jobs) (loopStart opts w1)
           = (inr tt, st_i)
        /\ totalAppliedPatches st_i = sumApplied (take i (sum_results summary))
        /\ match fetchStage listDevicesWithGroups listManagedEndpoints
                   includeName config opts token job st_i with
           | (inl err, _) => r = minimalResult job opts err
           | (inr (entraDevices, endpoints), st_f) =>
               let planned := plannedPatches job entraDevices endpoints in
               let todo :=
                 fst (safetyLimits opts (totalAppliedPatches st_i) planned) in
               exists d evs rest,
                 r = JobOk d
                 /\ trace st' = trace st_f ++ evs ++ rest
                 /\ jr_patchesPlanned d = Z.of_nat (length planned)
                 /\ jr_patchesToProcess d = Z.of_nat (length todo)
                 /\ patchPhase opts (organizationId job) todo evs d
           end.
  Proof.
    intros Htok Hrun opts jobs i r Hi.
    destruct (runSync_loop config options w w1 token Htok)
      as (st'' & Hloop & Hrun').
    fold opts in Hloop, Hrun'. rewrite Hrun' in Hrun.
    injection Hrun as <- <-. simpl in Hi.
    destruct (loop_step_at config opts token jobs (loopStart opts w1) st''
                (jobResults st'') Hloop eq_refl i r Hi)
      as (job & st_i & Hj & Hpre & Hres & Happ & Hstep & rest & Hrest).
    exists job, st_i. split; [exact Hj|]. split; [exact Hpre|].
    split; [rewrite Happ; simpl; lia|].
    pose proof (iteration_account config opts token job st_i) as Hacc.
    destruct (fetchStage listDevicesWithGroups listManagedEndpoints includeName
                config opts token job st_i) as [[err|[entraDevices endpoints]] st_f].
    - rewrite Hacc in Hstep. simpl in Hstep.
      apply app_inj_tail in Hstep as [_ <-]. reflexivity.
    - destruct Hacc as (st1 & d & evs & Hit & Hres1 & Ht1 & Hp & Hq & _ & Hph).
      rewrite Hit in Hstep, Hrest. simpl in Hstep, Hrest.
      rewrite Hres1 in Hstep. apply app_inj_tail in Hstep as [_ <-].
      exists d, evs, rest. split; [reflexivity|].
      split; [rewrite Hrest, Ht1, <- app_assoc; reflexivity|].
      split; [exact Hp|]. split; [exact Hq|exact Hph].
  Qed.
Lemma limits_ok_prefix opts total before after :
    limits_ok opts total (before ++ after) -> limits_ok opts total before.
  Proof.
    revert total. induction before as [|r before IH]; intros total H; simpl in *.
    - exact I.
    - destruct H as [Hr H]. split; [exact Hr|]. apply IH, H.
  Qed.

Lemma job_limited_applied opts total r :
    job_limited opts total r ->
    0 <= default 0 (patchesApplied r)
    /\ (total <= maxTotalPatches opts ->
        total + default 0 (patchesApplied r) <= maxTotalPatches opts).
  Proof.
    destruct r as [d|f]; simpl; [|lia].
    intros (planned & _ & Hproc & _ & Happ).
    pose proof (safetyLimits_remaining opts total planned) as Hroom. lia.
  Qed.

Lemma limits_ok_bound opts rs : forall total,
    limits_ok opts total rs ->
    0 <= sumApplied rs
    /\ (total <= maxTotalPatches opts ->
        total + sumApplied rs <= maxTotalPatches opts).
  Proof.
    induction rs as [|r rs IH]; intros total H; simpl in *; [lia|].
    destruct H as [Hr H]. apply job_limited_applied in Hr as [H0 Hr].
    destruct (IH _ H) as [H1 H2]. split; [lia|].
    intros Ht. specialize (H2 (Hr Ht)). lia.
  Qed.

Lemma startsWith_app (p x : string) : startsWith (p +:+ x) p = true.
  Proof.
    induction p as [|c p IH]; [destruct x; reflexivity|].
    change (String c p +:+ x) with (String c (p +:+ x)). simpl.
    rewrite Ascii.eqb_refl. exact IH.
  Qed.

Lemma startsWith_refl (p : string) : startsWith p p = true.
  Proof.
    induction p as [|c p IH]; [reflexivity|]. simpl.
    rewrite Ascii.eqb_refl. exact IH.
  Qed.

  (** C10. Summary consistency: the two totals of a returned summary are
      the sums of [patchesPlanned] and of [patchesApplied] over its job
      results, and the result of a failed job, which has neither count, adds
      nothing to either sum. *)
Theorem runSync_summary_consistent
      (config : Config) (options : RawOptions) (w : World)
      (summary : Summary) (st' : State) :
    run config options (startState w) = (inr summary, st') ->
    sum_totalPlannedPatches summary = sumPlanned (sum_results summary)
    /\ sum_totalAppliedPatches summary = sumApplied (sum_results summary)
    /\ (forall f, patchesPlanned (JobFailed f) = None
                  /\ patchesApplied (JobFailed f) = None)
    /\ (forall before f after,
          sumPlanned (before ++ JobFailed f :: after) = sumPlanned (before ++ after)
          /\ sumApplied (before ++ JobFailed f :: after) = sumApplied (before ++ after)).
  Proof.
    intros Hrun.
    destruct (runSync_inv _ _ _ _ _ Hrun) as (st0 & evs & _ & _ & Hp & Ha & _).
    split; [exact Hp|]. split; [exact Ha|]. split; [intros f; split; reflexivity|].
    intros before f after. rewrite !sumPlanned_app, !sumApplied_app. simpl. lia.
  Qed.

  (** C8. Graceful propagation: when the one token acquisition before the
      job loop throws, the call rejects with what was thrown and nothing else
      was called; in every other run a summary is returned, and every failure
      of the run is an entry of its results.  A listing or patch call that
      failed has its entry: a failed-job result with the message, or an entry
      of a job's [patchErrors].  And, result by result: the result of a job
      whose fetch threw is the failed-job result with the message of what was
      thrown; the result of any other job records what its patch loop did
      with the patches to process, item by item, so that a refused call and
      an item without endpoint id, which fails without a call, each are an
      entry of [patchErrors]. *)
Theorem runSync_graceful
      (config : Config) (options : RawOptions) (w : World) :
    let opts := normalizeOptions options in
    let jobs := getSyncJobs config in
    match getAction1AccessToken (action1 config) w with
    | (inl err, _) =>
        fst (run config options (startState w)) = inl err
        /\ trace (snd (run config options (startState w)))
           = [EvGetToken (Some err)]
    | (inr token, w1) =>
        exists summary st',
          run config options (startState w) = (inr summary, st')
          /\ Forall (failure_recorded (sum_results summary)) (trace st')
          /\ forall i r, sum_results summary !! i = Some r ->
               exists job (st_i : State),
                 jobs !! i = Some job
                 /\ jobLoop listDevicesWithGroups listManagedEndpoints
                      patchManagedEndpoint includeName config opts token
                      (take i jobs) (loopStart opts w1)
                    = (inr tt, st_i)
                 /\ match fetchStage listDevicesWithGroups listManagedEndpoints
                            includeName config opts token job st_i with
                    | (inl err, _) => r = minimalResult job opts err
                    | (inr (entraDevices, endpoints), st_f) =>
                        let todo :=
                          fst (safetyLimits opts (totalAppliedPatches st_i)
                                 (plannedPatches job entraDevices endpoints)) in
                        exists d evs rest,
                          r = JobOk d
                          /\ trace st' = trace st_f ++ evs ++ rest
                          /\ patchPhase opts (organizationId job) todo evs d
                          /\ (dryRun opts = false ->
                              invalid_items_recorded opts todo d)
                    end
    end.
  Proof.
    intros opts jobs.
    destruct (getAction1AccessToken (action1 config) w) as [[err|token] w'] eqn:Htok.
    - rewrite (runSync_token_failure _ _ _ _ _ Htok). split; reflexivity.
    - destruct (runSync_token_ok config options w w' token Htok)
        as (st0 & st' & rs & evs & Hrun & Ht & _ & Heff & _).
      eexists _, st'. split; [exact Hrun|].
      split.
      { simpl. destruct Heff as [_ Htr _ _ _ _ _ _ Hfail _].
        rewrite Htr, Ht. constructor; [exact I|exact Hfail]. }
      intros i r Hi.
      destruct (runSync_step_at config options w w' token _ st' Htok Hrun i r Hi)
        as (job & st_i & Hj & Hpre & _ & Hstep).
      exists job, st_i. split; [exact Hj|]. split; [exact Hpre|].
      fold opts in Hstep.
      destruct (fetchStage listDevicesWithGroups listManagedEndpoints includeName
                  config opts token job st_i)
        as [[err|[entraDevices endpoints]] st_f]; [exact Hstep|].
      destruct Hstep as (d & evs' & rest & Hr & Htr & _ & _ & Hph).
      exists d, evs', rest. split; [exact Hr|]. split; [exact Htr|].
      split; [exact Hph|].
      intros Hdry. unfold patchPhase in Hph. rewrite Hdry in Hph.
      destruct Hph as (applied & Hpr & _).
      exact (PatchRun_invalid_recorded _ _ _ _ _ _ Hpr).
  Qed.

  (** C4, as the code has it.  Dry-run invariant: when [dryRun] is true the
      run never calls [patchManagedEndpoint], and every job result that has a
      [patchesApplied] has it equal to 0; the result of a failed job has no
      [patchesApplied]. *)
Theorem runSync_dry_run
      (config : Config) (options : RawOptions) (w : World) :
    dryRun (normalizeOptions options) = true ->
    countPatchCalls (trace (snd (run config options (startState w)))) = 0
    /\ forall summary,
         fst (run config options (startState w)) = inr summary ->
         sum_totalAppliedPatches summary = 0
         /\ forall r, r ∈ sum_results summary ->
              match r with
              | JobOk d => jr_patchesApplied d = 0
              | JobFailed _ => patchesApplied r = None
              end.
  Proof.
    intros Hdry.
    destruct (getAction1AccessToken (action1 config) w) as [[err|token] w'] eqn:Htok.
    - rewrite (runSync_token_failure _ _ _ _ _ Htok). simpl.
      split; [reflexivity|]. intros summary [=].
    - destruct (runSync_token_ok config options w w' token Htok)
        as (st0 & st' & rs & evs & Hrun & Ht & _ & Heff & _).
      rewrite Hrun. simpl.
      destruct Heff as [_ Htr _ _ Hdisp _ Hcalls Hres _ _].
      split.
      + rewrite Htr, Ht. simpl. rewrite (Hcalls Hdry). reflexivity.
      + intros summary [= <-]. simpl. split.
        * rewrite Hdisp. pose proof (countPatchOk_le_calls evs).
          rewrite (Hcalls Hdry) in *. lia.
        * intros [d|f] Hin; [exact (Hres Hdry d Hin)|reflexivity].
  Qed.

  (** C3. Global limit invariant, for a limit that is not negative: the
      total of applied patches of a run never exceeds [maxTotalPatches], at
      the end and before each job; the list a job sends to its apply phase has
      at most [maxTotalPatches] minus the total applied so far entries; and
      the total counts the calls of [patchManagedEndpoint] that returned,
      which are none in a dry run. *)
Theorem runSync_global_limit
      (config : Config) (options : RawOptions) (w : World)
      (summary : Summary) (st' : State) :
    run config options (startState w) = (inr summary, st') ->
    0 <= maxTotalPatches (normalizeOptions options) ->
    let limit := maxTotalPatches (normalizeOptions options) in
    sum_totalAppliedPatches summary <= limit
    /\ (forall before d after,
          sum_results summary = before ++ JobOk d :: after ->
          0 <= sumApplied before <= limit
          /\ jr_patchesToProcess d <= limit - sumApplied before
          /\ 0 <= jr_patchesApplied d <= jr_patchesToProcess d
          /\ sumApplied before + jr_patchesApplied d <= limit)
    /\ sum_totalAppliedPatches summary = countPatchOk (trace st')
    /\ countPatchOk (trace st') <= countPatchCalls (trace st')
    /\ (dryRun (normalizeOptions options) = true ->
        sum_totalAppliedPatches summary = 0
        /\ countPatchCalls (trace st') = 0).
  Proof.
    intros Hrun Hlimit limit.
    destruct (runSync_inv _ _ _ _ _ Hrun)
      as (st0 & evs & _ & _ & _ & Happ & Ht & Ha0 & Heff & _).
    destruct Heff as [_ Htr _ _ Hdisp _ Hcalls _ _ Hlim].
    rewrite Ha0 in Hlim.
    assert (Hcount : countPatchOk (trace st') = countPatchOk evs
                     /\ countPatchCalls (trace st') = countPatchCalls evs).
    { rewrite Htr, Ht. split; reflexivity. }
    destruct Hcount as [Hok Hcl].
    split.
    { rewrite Happ. destruct (limits_ok_bound _ _ _ Hlim) as [_ H]. fold limit in H. lia. }
    split.
    { intros before d after Hsplit. rewrite Hsplit in Hlim.
      pose proof (limits_ok_prefix _ _ _ _ Hlim) as Hpre.
      destruct (limits_ok_bound _ _ _ Hpre) as [H0 Hb]. fold limit in Hb.
      pose proof (limits_ok_split _ _ _ _ _ Hlim) as Hjob.
      rewrite Z.add_0_l in Hjob. simpl in Hjob.
      destruct Hjob as (planned & _ & Hproc & _ & Hap).
      pose proof (safetyLimits_remaining (normalizeOptions options)
                    (sumApplied before) planned) as Hroom.
      fold limit in Hroom. lia. }
    split; [rewrite Happ, Hok; exact Hdisp|].
    split; [apply countPatchOk_le_calls|].
    intros Hdry. rewrite Hcl, (Hcalls Hdry). split; [|reflexivity].
    rewrite Happ, Hdisp. pose proof (countPatchOk_le_calls evs).
    rewrite (Hcalls Hdry) in *. lia.
  Qed.

  (** C5, as the code has it.  Per-job limit: a job that plans more patches
      than [maxPatchesPerJob] (not negative) processes the first
      [maxPatchesPerJob] of them or, when the global limit leaves less room,
      the first that fit in it; it is exactly the first [maxPatchesPerJob]
      when the total applied so far plus [maxPatchesPerJob] stays within
      [maxTotalPatches], and then [limitedBy] is [maxPatchesPerJob=N]; in
      every case [limitedBy] begins with [maxPatchesPerJob=N].  The patches
      are those the job planned from the devices and endpoints its own fetch
      returned, and it is on their first min(N, room) that the patch loop
      runs: its calls are in the trace of the run. *)
Theorem runSync_per_job_limit
      (config : Config) (options : RawOptions) (w : World)
      (summary : Summary) (st' : State)
      (before : list JobResult) (d : JobDone) (after : list JobResult) :
    run config options (startState w) = (inr summary, st') ->
    sum_results summary = before ++ JobOk d :: after ->
    0 <= maxPatchesPerJob (normalizeOptions options) ->
    jr_patchesPlanned d > maxPatchesPerJob (normalizeOptions options) ->
    let opts := normalizeOptions options in
    let n := maxPatchesPerJob opts in
    let sofar := sumApplied before in
    let room := Z.max 0 (maxTotalPatches opts - sofar) in
    jr_patchesToProcess d = Z.min n room
    /\ (sofar + n <= maxTotalPatches opts ->
        jr_patchesToProcess d = n
        /\ jr_limitedBy d = Some ("maxPatchesPerJob=" +:+ of_Z n))
    /\ (exists s, jr_limitedBy d = Some s
                  /\ startsWith s ("maxPatchesPerJob=" +:+ of_Z n) = true)
    /\ exists token w1 job (st_i st_f : State) entraDevices endpoints evs rest,
         getAction1AccessToken (action1 config) w = (inr token, w1)
         /\ getSyncJobs config !! length before = Some job
         /\ jobLoop listDevicesWithGroups listManagedEndpoints
              patchManagedEndpoint includeName config opts token
              (take (length before) (getSyncJobs config)) (loopStart opts w1)
            = (inr tt, st_i)
         /\ totalAppliedPatches st_i = sofar
         /\ fetchStage listDevicesWithGroups listManagedEndpoints includeName
              config opts token job st_i
            = (inr (entraDevices, endpoints), st_f)
         /\ let planned := plannedPatches job entraDevices endpoints in
            jr_patchesPlanned d = Z.of_nat (length planned)
            /\ trace st' = trace st_f ++ evs ++ rest
            /\ patchPhase opts (organizationId job)
                 (take (Z.to_nat (Z.min n room)) planned) evs d.
  Proof.
    intros Hrun Hsplit Hn Hplanned opts n sofar room.
    destruct (runSync_inv _ _ _ _ _ Hrun)
      as (st0 & evs & _ & _ & _ & _ & _ & Ha0 & Heff & _).
    destruct Heff as [_ _ _ _ _ _ _ _ _ Hlim].
    rewrite Ha0, Hsplit in Hlim.
    pose proof (limits_ok_split _ _ _ _ _ Hlim) as Hjob.
    rewrite Z.add_0_l in Hjob. simpl in Hjob.
    destruct Hjob as (planned & Hpl & Hproc & Hby & _).
    fold opts sofar in Hproc, Hby.
    assert (Hlen : Z.of_nat (length planned) > maxPatchesPerJob opts)
      by (rewrite <- Hpl; exact Hplanned).
    destruct (safetyLimits_per_job opts sofar planned Hn Hlen) as (Hfst & Hroom & Hfull).
    fold n room in Hfst, Hroom, Hfull.
    split.
    { rewrite Hproc, Hfst, length_take. unfold n, room, opts in *. lia. }
    split.
    { intros Hfit. rewrite Hproc, Hby, (Hroom Hfit). simpl.
      rewrite length_take. split; [unfold n, opts in *; lia|reflexivity]. }
    split.
    { destruct (Z_le_gt_dec (sofar + n) (maxTotalPatches opts)) as [Hfit|Hnofit].
      - eexists. rewrite Hby, (Hroom Hfit). split; [reflexivity|].
        apply startsWith_refl.
      - eexists. rewrite Hby, (Hfull Hnofit). split; [reflexivity|].
        apply startsWith_app. }
    destruct (getAction1AccessToken (action1 config) w) as [[err|token] w1] eqn:Htok.
    { rewrite (runSync_token_failure _ _ _ _ _ Htok) in Hrun. discriminate Hrun. }
    assert (Hi : sum_results summary !! length before = Some (JobOk d)).
    { rewrite Hsplit. apply list_lookup_middle. reflexivity. }
    destruct (runSync_step_at config options w w1 token summary st' Htok Hrun
                _ _ Hi)
      as (job & st_i & Hj & Hpre & Happ & Hstep).
    fold opts in Hpre, Hstep.
    assert (Hsofar : totalAppliedPatches st_i = sofar).
    { rewrite Happ, Hsplit, take_app_length. reflexivity. }
    destruct (fetchStage listDevicesWithGroups listManagedEndpoints includeName
                config opts token job st_i)
      as [[err|[entraDevices endpoints]] st_f] eqn:Hfetch; [discriminate Hstep|].
    destruct Hstep as (d' & evs' & rest & Hd & Htr & Hp' & _ & Hph).
    injection Hd as <-.
    exists token, w1, job, st_i, st_f, entraDevices, endpoints, evs', rest.
    split; [reflexivity|]. split; [exact Hj|]. split; [exact Hpre|].
    split; [exact Hsofar|]. split; [exact Hfetch|].
    split; [exact Hp'|]. split; [exact Htr|].
    rewrite Hsofar in Hph.
    assert (Hlen' : Z.of_nat (length (plannedPatches job entraDevices endpoints))
                    > maxPatchesPerJob opts)
      by (rewrite <- Hp'; exact Hplanned).
    destruct (safetyLimits_per_job opts sofar _ Hn Hlen') as (Hfst' & _).
    fold n room in Hfst'. rewrite Hfst' in Hph. exact Hph.
  Qed.

End SyncEngineFacts.

(** ** Name matcher: the decision for each device *)

Lemma buildEndpointShortIndex_lookup endpoints k :
  k <> "" ->
  buildEndpointShortIndex endpoints !! k =
    match endpointsShortNamed k endpoints with
    | [] => None
    | l => Some l
    end.
Proof.
  intros Hk.
  change (buildEndpointShortIndex endpoints)
    with (indexBy normalizeShortName ∅ endpoints).
  rewrite indexBy_lookup by exact Hk. rewrite lookup_empty. reflexivity.
Qed.

Lemma buildEndpointShortIndex_no_empty_key endpoints :
  buildEndpointShortIndex endpoints !! "" = None.
Proof.
  change (buildEndpointShortIndex endpoints)
    with (indexBy normalizeShortName ∅ endpoints).
  rewrite indexBy_lookup_empty. apply lookup_empty.
Qed.

Lemma appendResults_empty_r r : appendResults r emptyMatchResult = r.
Proof. destruct r; unfold appendResults; simpl. rewrite !app_nil_r. reflexivity. Qed.

Lemma appendResults_assoc a b c :
  appendResults (appendResults a b) c = appendResults a (appendResults b c).
Proof. unfold appendResults; simpl. rewrite !app_assoc. reflexivity. Qed.

(** A turn of the loop appends to the buckets what the device alone
    gives. *)
Lemma matchStep_append fi si acc dev :
  matchStep fi si acc dev = appendResults acc (classifyDevice fi si dev).
Proof.
  assert (Hu : forall d, push_unmatched acc d
                         = appendResults acc (push_unmatched emptyMatchResult d)).
  { intros d. unfold appendResults, push_unmatched. simpl.
    rewrite !app_nil_r. reflexivity. }
  assert (Hm : forall p, push_matched acc p
                         = appendResults acc (push_matched emptyMatchResult p)).
  { intros p. unfold appendResults, push_matched. simpl.
    rewrite !app_nil_r. reflexivity. }
  assert (Ha : forall a, push_ambiguous acc a
                         = appendResults acc (push_ambiguous emptyMatchResult a)).
  { intros a. unfold appendResults, push_ambiguous. simpl.
    rewrite !app_nil_r. reflexivity. }
  unfold classifyDevice, matchStep.
  destruct (is_empty _); [apply Hu|].
  destruct (fi !! _) as [[|ep [|ep' l]]|]; simpl; auto;
    destruct (si !! _) as [[|sp [|sp' sl]]|]; simpl; auto.
Qed.

Lemma matchFold_append fi si devs : forall acc,
  foldl (matchStep fi si) acc devs
  = appendResults acc
      {| matched := devs ≫= (fun d => matched (classifyDevice fi si d));
         unmatchedEntra := devs ≫= (fun d => unmatchedEntra (classifyDevice fi si d));
         ambiguous := devs ≫= (fun d => ambiguous (classifyDevice fi si d)) |}.
Proof.
  induction devs as [|dev devs IH]; intros acc.
  - simpl. symmetry. apply appendResults_empty_r.
  - simpl foldl. rewrite IH, matchStep_append, appendResults_assoc.
    reflexivity.
Qed.

(** The buckets of [matchDevices], device by device. *)
Lemma matchDevices_by_device devs eps :
  let fi := buildEndpointIndex eps in
  let si := buildEndpointShortIndex eps in
  matched (matchDevices devs eps)
  = devs ≫= (fun d => matched (classifyDevice fi si d))
  /\ unmatchedEntra (matchDevices devs eps)
     = devs ≫= (fun d => unmatchedEntra (classifyDevice fi si d))
  /\ ambiguous (matchDevices devs eps)
     = devs ≫= (fun d => ambiguous (classifyDevice fi si d)).
Proof.
  intros fi si. unfold matchDevices. fold fi si.
  rewrite matchFold_append. simpl. repeat split.
Qed.

(** What the device alone gives is one entry, about this device. *)
Lemma classifyDevice_shape fi si dev :
  StepShape fi si emptyMatchResult dev (classifyDevice fi si dev).
Proof. apply matchStep_shape. Qed.

Lemma classifyDevice_devices fi si dev :
  Forall (fun p => pair_entraDevice p = dev) (matched (classifyDevice fi si dev))
  /\ Forall (fun d => d = dev) (unmatchedEntra (classifyDevice fi si dev))
  /\ Forall (fun a => amb_entraDevice a = dev) (ambiguous (classifyDevice fi si dev)).
Proof.
  destruct (classifyDevice_shape fi si dev); simpl;
    repeat split; repeat constructor.
Qed.

Lemma no_candidates_iff (o : option (list JsRecord)) :
  no_candidates o <-> match o with Some (_ :: _) => False | _ => True end.
Proof.
  unfold no_candidates. destruct o as [[|x l]|]; split; intros H;
    try tauto; try (destruct H; discriminate); auto.
Qed.

Lemma lookup_of_filter (l : list JsRecord) :
  no_candidates (match l with [] => None | _ => Some l end) <-> l = [].
Proof.
  unfold no_candidates. destruct l; split; intros H; auto;
    try (destruct H; discriminate); discriminate.
Qed.

Lemma trim_cons_nonspace c r :
  is_space c = false -> exists r', trim (String c r) = String c r'.
Proof.
  intros Hc. unfold trim. simpl trimStart. rewrite Hc, trimEnd_cons.
  destruct (trimEnd r); rewrite ?Hc; eauto.
Qed.

Lemma trim_shape s :
  trim s = "" \/ exists c r, trim s = String c r /\ is_space c = false.
Proof.
  pose proof (trim_no_lead s) as H. destruct (trim s) as [|c r]; [left; reflexivity|].
  right. exists c, r. split; [reflexivity|exact H].
Qed.

Lemma displayNameOf_cases dev :
  displayNameOf dev = JsStr "" \/ truthy (displayNameOf dev) = true.
Proof.
  unfold displayNameOf, js_or.
  destruct (truthy (getProp dev "displayName")) eqn:H; [right; exact H|left; reflexivity].
Qed.

Lemma normalizeName_truthy v :
  truthy v = true -> normalizeName v = toLowerCase (trim (toStringJs v)).
Proof. destruct v; simpl; try discriminate; reflexivity. Qed.

Lemma normalizeName_str x : normalizeName (JsStr x) = toLowerCase (trim x).
Proof. reflexivity. Qed.

(** A device that has a full key has a short key. *)
Lemma shortKey_nonempty dev : fullKeyOf dev <> "" -> shortKeyOf dev <> "".
Proof.
  unfold fullKeyOf, shortKeyOf, normalizeShortName.
  destruct (displayNameOf_cases dev) as [->|Ht]; [intros H; exact H|].
  rewrite (normalizeName_truthy _ Ht), normalizeName_str.
  unfold stripFqdn, js_or. rewrite Ht. cbv zeta.
  destruct (trim_shape (toStringJs (displayNameOf dev))) as [->|(c & r & -> & Hc)].
  - intros H; exfalso; apply H; reflexivity.
  - intros _.
    assert (Hstrip : exists r',
      (if 0 <? indexOf (String c r) "." 
       then sliceTo (Z.to_nat (indexOf (String c r) ".")) (String c r)
       else String c r) = String c r').
    { destruct (0 <? indexOf (String c r) ".") eqn:Hd; [|eauto].
      apply Z.ltb_lt in Hd.
      destruct (Z.to_nat (indexOf (String c r) ".")) as [|n] eqn:Hn; [lia|].
      simpl. eauto. }
    destruct Hstrip as [r' ->].
    destruct (trim_cons_nonspace c r' Hc) as [r'' ->]. discriminate.
Qed.

(** The entries of [matchDevices] about a device of the input are those the
    device alone gives. *)
Lemma device_decision devs eps dev :
  dev ∈ devs ->
  let r := matchDevices devs eps in
  let c := classifyDevice (buildEndpointIndex eps) (buildEndpointShortIndex eps) dev in
  (forall p, p ∈ matched r /\ pair_entraDevice p = dev <-> p ∈ matched c)
  /\ (dev ∈ unmatchedEntra r <-> dev ∈ unmatchedEntra c)
  /\ (forall a, a ∈ ambiguous r /\ amb_entraDevice a = dev <-> a ∈ ambiguous c).
Proof.
  intros Hin r c.
  destruct (matchDevices_by_device devs eps) as (Hm & Hu & Ha).
  fold r in Hm, Hu, Ha. rewrite Hm, Hu, Ha.
  set (fi := buildEndpointIndex eps) in *. set (si := buildEndpointShortIndex eps) in *.
  split; [|split].
  - intros p. rewrite list_elem_of_bind. split.
    + intros [(d & Hp & Hd) Heq].
      destruct (classifyDevice_devices fi si d) as (Hf & _ & _).
      rewrite Forall_forall in Hf. rewrite (Hf p Hp) in Heq. subst d. exact Hp.
    + intros Hp. split; [exists dev; split; assumption|].
      destruct (classifyDevice_devices fi si dev) as (Hf & _ & _).
      rewrite Forall_forall in Hf. exact (Hf p Hp).
  - rewrite list_elem_of_bind. split.
    + intros (d & Hp & Hd).
      destruct (classifyDevice_devices fi si d) as (_ & Hf & _).
      rewrite Forall_forall in Hf. pose proof (Hf dev Hp) as Heq. subst d.
      exact Hp.
    + intros Hp. exists dev. split; assumption.
  - intros a. rewrite list_elem_of_bind. split.
    + intros [(d & Hp & Hd) Heq].
      destruct (classifyDevice_devices fi si d) as (_ & _ & Hf).
      rewrite Forall_forall in Hf. rewrite (Hf a Hp) in Heq. subst d. exact Hp.
    + intros Hp. split; [exists dev; split; assumption|].
      destruct (classifyDevice_devices fi si dev) as (_ & _ & Hf).
      rewrite Forall_forall in Hf. exact (Hf a Hp).
Qed.

(** The decision for a device that has a name, read off the two tables. *)
Lemma classifyDevice_named fi si dev :
  fullKeyOf dev <> "" ->
  classifyDevice fi si dev =
    match fi !! fullKeyOf dev with
    | Some ((first :: _) as cands) =>
        if (1 <? length cands)%nat
        then push_ambiguous emptyMatchResult
               {| amb_entraDevice := dev; amb_candidates := cands;
                  amb_reason := "duplicate_full" |}
        else push_matched emptyMatchResult
               {| pair_entraDevice := dev; pair_endpoint := first;
                  pair_matchType := "full" |}
    | _ =>
        match si !! shortKeyOf dev with
        | Some ((first :: _) as cands) =>
            if (1 <? length cands)%nat
            then push_ambiguous emptyMatchResult
                   {| amb_entraDevice := dev; amb_candidates := cands;
                      amb_reason := "duplicate_short" |}
            else push_matched emptyMatchResult
                   {| pair_entraDevice := dev; pair_endpoint := first;
                      pair_matchType := "short" |}
        | _ => push_unmatched emptyMatchResult dev
        end
    end.
Proof.
  intros Hk. apply is_empty_false in Hk.
  unfold classifyDevice, matchStep.
  fold (displayNameOf dev). fold (fullKeyOf dev) (shortKeyOf dev).
  rewrite Hk. reflexivity.
Qed.

(** X1. Full-name match: a device whose normalized name is that of exactly one
    endpoint is matched to it with match type [full], whatever the short
    names are, and is in no other bucket. *)
Theorem matchDevices_full_match
    (devices endpoints : list JsRecord) (dev ep : JsRecord) :
  dev ∈ devices ->
  fullKeyOf dev <> "" ->
  endpointsNamed (fullKeyOf dev) endpoints = [ep] ->
  let r := matchDevices devices endpoints in
  let pair := {| pair_entraDevice := dev; pair_endpoint := ep;
                 pair_matchType := "full" |} in
  (pair ∈ matched r)
  /\ (forall p, p ∈ matched r -> pair_entraDevice p = dev -> p = pair)
  /\ (dev ∉ unmatchedEntra r)
  /\ (forall a, a ∈ ambiguous r -> amb_entraDevice a <> dev).
Proof.
  intros Hin Hk Hone r pair.
  destruct (device_decision devices endpoints dev Hin) as (Hm & Hu & Ha).
  fold r in Hm, Hu, Ha.
  rewrite (classifyDevice_named _ _ _ Hk) in Hm, Hu, Ha.
  rewrite (buildEndpointIndex_lookup _ _ Hk), Hone in Hm, Hu, Ha.
  simpl in Hm, Hu, Ha. fold pair in Hm.
  split; [apply (Hm pair); left|]. split.
  - intros p Hp Hd. apply list_elem_of_singleton. apply Hm. split; assumption.
  - split.
    + intros H. apply Hu in H. inversion H.
    + intros a Hin' Heq. assert (H : a ∈ []) by (apply Ha; split; assumption).
      inversion H.
Qed.

(** X2. Short-name fallback: a device whose normalized full name no endpoint
    has, and whose normalized short name (the part before the first dot) is
    that of exactly one endpoint, is matched to it with match type
    [short]. *)
Theorem matchDevices_short_fallback
    (devices endpoints : list JsRecord) (dev ep : JsRecord) :
  dev ∈ devices ->
  fullKeyOf dev <> "" ->
  endpointsNamed (fullKeyOf dev) endpoints = [] ->
  endpointsShortNamed (shortKeyOf dev) endpoints = [ep] ->
  let r := matchDevices devices endpoints in
  let pair := {| pair_entraDevice := dev; pair_endpoint := ep;
                 pair_matchType := "short" |} in
  (pair ∈ matched r)
  /\ (forall p, p ∈ matched r -> pair_entraDevice p = dev -> p = pair)
  /\ (dev ∉ unmatchedEntra r)
  /\ (forall a, a ∈ ambiguous r -> amb_entraDevice a <> dev).
Proof.
  intros Hin Hk Hnone Hone r pair.
  destruct (device_decision devices endpoints dev Hin) as (Hm & Hu & Ha).
  fold r in Hm, Hu, Ha.
  rewrite (classifyDevice_named _ _ _ Hk) in Hm, Hu, Ha.
  rewrite (buildEndpointIndex_lookup _ _ Hk), Hnone in Hm, Hu, Ha.
  rewrite (buildEndpointShortIndex_lookup _ _ (shortKey_nonempty _ Hk)), Hone
    in Hm, Hu, Ha.
  simpl in Hm, Hu, Ha. fold pair in Hm.
  split; [apply (Hm pair); left|]. split.
  - intros p Hp Hd. apply list_elem_of_singleton. apply Hm. split; assumption.
  - split.
    + intros H. apply Hu in H. inversion H.
    + intros a Hin' Heq. assert (H : a ∈ []) by (apply Ha; split; assumption).
      inversion H.
Qed.

(** X3. Ambiguous short name: a device whose normalized full name no endpoint
    has, and whose normalized short name two or more endpoints share, is
    ambiguous with these endpoints as candidates and the reason
    [duplicate_short]; it is never matched. *)
Theorem matchDevices_duplicate_short
    (devices endpoints : list JsRecord) (dev : JsRecord) (cands : list JsRecord) :
  dev ∈ devices ->
  fullKeyOf dev <> "" ->
  endpointsNamed (fullKeyOf dev) endpoints = [] ->
  endpointsShortNamed (shortKeyOf dev) endpoints = cands ->
  (2 <= length cands)%nat ->
  let r := matchDevices devices endpoints in
  let entry := {| amb_entraDevice := dev; amb_candidates := cands;
                  amb_reason := "duplicate_short" |} in
  (entry ∈ ambiguous r)
  /\ (forall a, a ∈ ambiguous r -> amb_entraDevice a = dev -> a = entry)
  /\ (dev ∉ unmatchedEntra r)
  /\ (forall p, p ∈ matched r -> pair_entraDevice p <> dev).
Proof.
  intros Hin Hk Hnone Hc Hl r entry.
  destruct (device_decision devices endpoints dev Hin) as (Hm & Hu & Ha).
  fold r in Hm, Hu, Ha.
  rewrite (classifyDevice_named _ _ _ Hk) in Hm, Hu, Ha.
  rewrite (buildEndpointIndex_lookup _ _ Hk), Hnone in Hm, Hu, Ha.
  rewrite (buildEndpointShortIndex_lookup _ _ (shortKey_nonempty _ Hk)), Hc
    in Hm, Hu, Ha.
  destruct cands as [|c1 [|c2 cs]]; [simpl in Hl; lia|simpl in Hl; lia|].
  simpl in Hm, Hu, Ha. fold entry in Ha.
  split; [apply (Ha entry); left|]. split.
  - intros a Hin' Hd. apply list_elem_of_singleton. apply Ha. split; assumption.
  - split.
    + intros H. apply Hu in H. inversion H.
    + intros p Hin' Heq. assert (H : p ∈ []) by (apply Hm; split; assumption).
      inversion H.
Qed.

(** X4. No candidate: a device is in [unmatchedEntra] exactly when it has no
    name or no endpoint has its normalized full name or its normalized short
    name. *)
Theorem matchDevices_unmatched_iff
    (devices endpoints : list JsRecord) (dev : JsRecord) :
  dev ∈ devices ->
  (dev ∈ unmatchedEntra (matchDevices devices endpoints)
   <-> fullKeyOf dev = ""
       \/ (endpointsNamed (fullKeyOf dev) endpoints = []
           /\ endpointsShortNamed (shortKeyOf dev) endpoints = [])).
Proof.
  intros Hin.
  destruct (device_decision devices endpoints dev Hin) as (_ & Hu & _).
  rewrite Hu. clear Hu.
  destruct (decide (fullKeyOf dev = "")) as [He|Hk].
  - split; [left; exact He|]. intros _.
    unfold classifyDevice, matchStep.
    fold (displayNameOf dev). fold (fullKeyOf dev). rewrite He. simpl. left.
  - rewrite (classifyDevice_named _ _ _ Hk).
    rewrite (buildEndpointIndex_lookup _ _ Hk).
    rewrite (buildEndpointShortIndex_lookup _ _ (shortKey_nonempty _ Hk)).
    destruct (endpointsNamed (fullKeyOf dev) endpoints) as [|e1 [|e2 es]];
      destruct (endpointsShortNamed (shortKeyOf dev) endpoints) as [|s1 [|s2 ss]];
      simpl; split; intros H;
      try (inversion H; fail);
      try (left; fail);
      try (right; split; reflexivity);
      try (destruct H as [H|[H1 H2]]; [contradiction|discriminate]).
Qed.

Lemma classifyDevice_lists fi si dev :
  let c := classifyDevice fi si dev in
  (map pair_entraDevice (matched c) = [] \/ map pair_entraDevice (matched c) = [dev])
  /\ (unmatchedEntra c = [] \/ unmatchedEntra c = [dev])
  /\ (map amb_entraDevice (ambiguous c) = []
      \/ map amb_entraDevice (ambiguous c) = [dev]).
Proof.
  intros c. unfold c. destruct (classifyDevice_shape fi si dev); simpl; auto.
Qed.

Lemma sublist_bind_one {A : Type} (f : JsRecord -> list A)
    (g : A -> JsRecord) (devs : list JsRecord) :
  (forall d, map g (f d) = [] \/ map g (f d) = [d]) ->
  map g (devs ≫= f) `sublist_of` devs.
Proof.
  intros Hf. induction devs as [|d devs IH]; [constructor|].
  change ((d :: devs) ≫= f) with (f d ++ (devs ≫= f)). rewrite map_app.
  destruct (Hf d) as [->| ->]; simpl.
  - apply sublist_cons. exact IH.
  - apply sublist_skip. exact IH.
Qed.

(** X5. Order: each bucket lists its devices in the order of the input. *)
Theorem matchDevices_keeps_order (devices endpoints : list JsRecord) :
  let r := matchDevices devices endpoints in
  map pair_entraDevice (matched r) `sublist_of` devices
  /\ unmatchedEntra r `sublist_of` devices
  /\ map amb_entraDevice (ambiguous r) `sublist_of` devices.
Proof.
  intros r. destruct (matchDevices_by_device devices endpoints) as (Hm & Hu & Ha).
  fold r in Hm, Hu, Ha. rewrite Hm, Hu, Ha.
  split; [|split].
  - apply sublist_bind_one. intros d. apply classifyDevice_lists.
  - rewrite <- (map_id (devices ≫= _)). apply sublist_bind_one.
    intros d. rewrite map_id. apply classifyDevice_lists.
  - apply sublist_bind_one. intros d. apply classifyDevice_lists.
Qed.

Lemma endpointsNamed_spec k eps ep :
  ep ∈ endpointsNamed k eps
  <-> ep ∈ eps /\ normalizeName (getAction1EndpointName ep) = k.
Proof. unfold endpointsNamed. rewrite list_elem_of_filter. tauto. Qed.

Lemma endpointsShortNamed_spec k eps ep :
  ep ∈ endpointsShortNamed k eps
  <-> ep ∈ eps /\ normalizeShortName (getAction1EndpointName ep) = k.
Proof. unfold endpointsShortNamed. rewrite list_elem_of_filter. tauto. Qed.

(** X6. Soundness: a matched pair joins a device of the input with the one
    endpoint of the input that has its normalized full name or, when there is
    none, the one endpoint that has its normalized short name; the candidates
    of an ambiguous entry are all the endpoints, two or more, with that
    name. *)
Theorem matchDevices_sound (devices endpoints : list JsRecord) :
  let r := matchDevices devices endpoints in
  (forall p, p ∈ matched r ->
     let dev := pair_entraDevice p in
     let ep := pair_endpoint p in
     dev ∈ devices /\ ep ∈ endpoints /\ fullKeyOf dev <> ""
     /\ ((pair_matchType p = "full"
          /\ endpointsNamed (fullKeyOf dev) endpoints = [ep]
          /\ normalizeName (getAction1EndpointName ep) = fullKeyOf dev)
         \/ (pair_matchType p = "short"
             /\ endpointsNamed (fullKeyOf dev) endpoints = []
             /\ endpointsShortNamed (shortKeyOf dev) endpoints = [ep]
             /\ normalizeShortName (getAction1EndpointName ep) = shortKeyOf dev)))
  /\ (forall a, a ∈ ambiguous r ->
        let dev := amb_entraDevice a in
        dev ∈ devices /\ fullKeyOf dev <> "" /\ (2 <= length (amb_candidates a))%nat
        /\ ((amb_reason a = "duplicate_full"
             /\ amb_candidates a = endpointsNamed (fullKeyOf dev) endpoints)
            \/ (amb_reason a = "duplicate_short"
                /\ endpointsNamed (fullKeyOf dev) endpoints = []
                /\ amb_candidates a
                   = endpointsShortNamed (shortKeyOf dev) endpoints))).
Proof.
  intros r. destruct (matchDevices_by_device devices endpoints) as (Hm & _ & Ha).
  fold r in Hm, Ha.
  assert (Hfull : forall k l, k <> "" ->
            buildEndpointIndex endpoints !! k = Some l ->
            endpointsNamed k endpoints = l /\ l <> []).
  { intros k l Hk. rewrite (buildEndpointIndex_lookup _ _ Hk).
    destruct (endpointsNamed k endpoints); [discriminate|].
    intros [= <-]. split; [reflexivity|discriminate]. }
  assert (Hshort : forall k l, k <> "" ->
            buildEndpointShortIndex endpoints !! k = Some l ->
            endpointsShortNamed k endpoints = l /\ l <> []).
  { intros k l Hk. rewrite (buildEndpointShortIndex_lookup _ _ Hk).
    destruct (endpointsShortNamed k endpoints); [discriminate|].
    intros [= <-]. split; [reflexivity|discriminate]. }
  assert (Hnone : forall k, k <> "" ->
            no_candidates (buildEndpointIndex endpoints !! k) ->
            endpointsNamed k endpoints = []).
  { intros k Hk. rewrite (buildEndpointIndex_lookup _ _ Hk).
    destruct (endpointsNamed k endpoints); [reflexivity|].
    intros [H|H]; discriminate. }
  split.
  - intros p Hp dev ep. rewrite Hm in Hp.
    apply list_elem_of_bind in Hp as (d & Hp & Hd).
    destruct (classifyDevice_shape (buildEndpointIndex endpoints)
                (buildEndpointShortIndex endpoints) d)
      as [Hk|cands Hk Hf Hl|e Hk Hf|cands Hk Hno Hs Hl|e Hk Hno Hs|Hk Hno Hs];
      simpl in Hp; try (inversion Hp; fail);
      apply list_elem_of_singleton in Hp; subst p; simpl in dev, ep;
      unfold dev, ep.
    + destruct (Hfull _ _ Hk Hf) as [He _].
      assert (Hin : e ∈ endpointsNamed (fullKeyOf d) endpoints)
        by (rewrite He; left).
      apply endpointsNamed_spec in Hin as [Hin Hn].
      split; [exact Hd|]. split; [exact Hin|]. split; [exact Hk|].
      left. split; [reflexivity|]. split; assumption.
    + destruct (Hshort _ _ (shortKey_nonempty _ Hk) Hs) as [He _].
      assert (Hin : e ∈ endpointsShortNamed (shortKeyOf d) endpoints)
        by (rewrite He; left).
      apply endpointsShortNamed_spec in Hin as [Hin Hn].
      split; [exact Hd|]. split; [exact Hin|]. split; [exact Hk|].
      right. split; [reflexivity|]. split; [apply Hnone; assumption|].
      split; assumption.
  - intros a Hin dev. rewrite Ha in Hin.
    apply list_elem_of_bind in Hin as (d & Hp & Hd).
    destruct (classifyDevice_shape (buildEndpointIndex endpoints)
                (buildEndpointShortIndex endpoints) d)
      as [Hk|cands Hk Hf Hl|e Hk Hf|cands Hk Hno Hs Hl|e Hk Hno Hs|Hk Hno Hs];
      simpl in Hp; try (inversion Hp; fail);
      apply list_elem_of_singleton in Hp; subst a; simpl in dev; unfold dev; simpl.
    + destruct (Hfull _ _ Hk Hf) as [He _].
      split; [exact Hd|]. split; [exact Hk|]. split; [exact Hl|].
      left. split; [reflexivity|]. symmetry; exact He.
    + destruct (Hshort _ _ (shortKey_nonempty _ Hk) Hs) as [He _].
      split; [exact Hd|]. split; [exact Hk|]. split; [exact Hl|].
      right. split; [reflexivity|]. split; [apply Hnone; assumption|].
      symmetry; exact He.
Qed.

(** ** Patch builder and planned patches: further properties *)

Lemma patch_fold_no_write dev ms : forall p,
  Forall (fun m => writes dev m = false) ms -> foldl (patchStep dev) p ms = p.
Proof.
  induction ms as [|m ms IH]; intros p H; [reflexivity|].
  inversion H as [|? ? Hm Hms]; subst. simpl.
  rewrite patchStep_spec, Hm. apply IH, Hms.
Qed.

Lemma patch_fold_written dev ms m : forall p,
  m ∈ ms -> writes dev m = true ->
  is_Some (foldl (patchStep dev) p ms !! toCustomKey (action1CustomAttribute m)).
Proof.
  induction ms as [|m' ms IH]; intros p Hin Hw; [inversion Hin|].
  apply elem_of_cons in Hin as [->|Hin]; simpl.
  - apply patch_fold_keeps_key. rewrite patchStep_spec, Hw, lookup_insert_eq. eauto.
  - apply IH; assumption.
Qed.

(** X7. Never an empty object: [buildEndpointPatch] gives [null] exactly when
    every mapping is skipped (a name missing, the key empty, or the source
    value blank), and a patch it gives has at least one key. *)
Theorem buildEndpointPatch_null_iff (dev : JsRecord) (mappings : list Mapping) :
  (buildEndpointPatch dev mappings = None
   <-> Forall (fun m => writes dev m = false) mappings)
  /\ (forall p, buildEndpointPatch dev mappings = Some p ->
        p <> ∅ /\ exists m, m ∈ mappings /\ writes dev m = true
                            /\ is_Some (p !! toCustomKey (action1CustomAttribute m))).
Proof.
  assert (Hsome : forall p, buildEndpointPatch dev mappings = Some p ->
            p <> ∅ /\ exists m, m ∈ mappings /\ writes dev m = true
              /\ is_Some (p !! toCustomKey (action1CustomAttribute m))).
  { intros p Hp. unfold buildEndpointPatch in Hp.
    destruct (0 <? size _)%nat eqn:Hs; [|discriminate]. injection Hp as <-.
    apply Nat.ltb_lt in Hs.
    assert (Hne : foldl (patchStep dev) ∅ mappings <> ∅).
    { intros He. rewrite He, map_size_empty in Hs. lia. }
    split; [exact Hne|].
    destruct (decide (Forall (fun m => writes dev m = false) mappings))
      as [Hall|Hnall].
    - exfalso. apply Hne. apply patch_fold_no_write, Hall.
    - apply not_Forall_Exists in Hnall; [|intros m; apply _].
      apply Exists_exists in Hnall as (m & Hin & Hw). simpl in Hw. exists m.
      assert (Hw' : writes dev m = true) by (destruct (writes dev m); congruence).
      split; [exact Hin|]. split; [exact Hw'|].
      apply patch_fold_written; assumption. }
  split; [|exact Hsome]. split.
  - intros Hnone. apply Forall_forall. intros m Hin.
    destruct (writes dev m) eqn:Hw; [|reflexivity]. exfalso.
    pose proof (patch_fold_written dev mappings m ∅ Hin Hw) as Hkey.
    rewrite (buildEndpointPatch_of_key _ _ _ Hkey) in Hnone. discriminate.
  - intros Hall. unfold buildEndpointPatch.
    rewrite (patch_fold_no_write _ _ _ Hall), map_size_empty. reflexivity.
Qed.

Lemma patch_fold_keeps_unless_written dev k v after : forall p,
  Forall (fun m' => writes dev m' = true ->
                    toCustomKey (action1CustomAttribute m') <> k) after ->
  p !! k = Some v -> foldl (patchStep dev) p after !! k = Some v.
Proof.
  induction after as [|m' after IH]; intros p Hall Hp; [exact Hp|].
  inversion Hall as [|? ? Hm' Hrest]; subst. simpl. apply IH; [exact Hrest|].
  rewrite patchStep_spec. destruct (writes dev m') eqn:Hw'; [|exact Hp].
  rewrite lookup_insert_ne by (apply Hm'; reflexivity). exact Hp.
Qed.

(** X8. Last write wins, and a blank never overwrites: the value under a key is
    the source value of the last mapping that targets the key with a value
    that is not blank. *)
Theorem buildEndpointPatch_last_write
    (dev : JsRecord) (before : list Mapping) (m : Mapping) (after : list Mapping) :
  writes dev m = true ->
  Forall (fun m' => writes dev m' = true ->
                    toCustomKey (action1CustomAttribute m')
                    <> toCustomKey (action1CustomAttribute m)) after ->
  exists p, buildEndpointPatch dev (before ++ m :: after) = Some p
            /\ p !! toCustomKey (action1CustomAttribute m)
               = Some (sourceValue dev m).
Proof.
  intros Hw Hafter.
  set (key := toCustomKey (action1CustomAttribute m)) in *.
  assert (Hval : foldl (patchStep dev) ∅ (before ++ m :: after) !! key
                 = Some (sourceValue dev m)).
  { rewrite foldl_app. simpl. rewrite (patchStep_spec dev _ m), Hw. fold key.
    apply patch_fold_keeps_unless_written; [exact Hafter|apply lookup_insert_eq]. }
  exists (foldl (patchStep dev) ∅ (before ++ m :: after)).
  split; [|exact Hval].
  apply (buildEndpointPatch_of_key _ _ key). rewrite Hval. eauto.
Qed.

Lemma patches_fold ms pairs : forall acc : list PatchItem,
  foldl (fun patches pair =>
           match buildEndpointPatch (pair_entraDevice pair) ms with
           | None => patches
           | Some patch =>
               patches ++
                 [{| endpointId := getProp (pair_endpoint pair) "id";
                     endpointName := getAction1EndpointName (pair_endpoint pair);
                     entraName := getProp (pair_entraDevice pair) "displayName";
                     matchType := pair_matchType pair;
                     patch := patch |}]
           end) acc pairs
  = acc ++ omap (patchItemOf ms) pairs.
Proof.
  induction pairs as [|pair pairs IH]; intros acc; simpl.
  - rewrite app_nil_r. reflexivity.
  - rewrite IH. unfold patchItemOf at 2.
    destruct (buildEndpointPatch (pair_entraDevice pair) ms); simpl.
    + rewrite <- app_assoc. reflexivity.
    + reflexivity.
Qed.

Lemma mapDevicesToPatches_patches devs eps ms :
  mr_patches (mapDevicesToPatches devs eps ms)
  = omap (patchItemOf ms) (matched (matchDevices devs eps)).
Proof. unfold mapDevicesToPatches. simpl. apply patches_fold. Qed.

Lemma buildEndpointPatch_custom_keys dev ms p :
  buildEndpointPatch dev ms = Some p -> custom_keys p.
Proof.
  intros Hb k [v Hv]. apply buildEndpointPatch_Some in Hb. subst p.
  apply patch_fold_entries in Hv as [Hv|(m & _ & Hw & <- & _)].
  - rewrite lookup_empty in Hv. discriminate.
  - apply toCustomKey_custom.
    unfold writes, well_formed_mapping in Hw.
    apply andb_prop in Hw as [Hw _]. apply andb_prop in Hw as [_ Hw].
    apply negb_true_iff in Hw. exact Hw.
Qed.

Lemma omap_length_le {A B : Type} (f : A -> option B) (l : list A) :
  (length (omap f l) <= length l)%nat.
Proof.
  induction l as [|x l IH]; csimpl; [lia|]. destruct (f x); csimpl; lia.
Qed.

Lemma patchItemOf_Some ms pair item :
  patchItemOf ms pair = Some item ->
  buildEndpointPatch (pair_entraDevice pair) ms = Some (patch item)
  /\ matchType item = pair_matchType pair
  /\ endpointId item = getProp (pair_endpoint pair) "id"
  /\ entraName item = getProp (pair_entraDevice pair) "displayName".
Proof.
  unfold patchItemOf.
  destruct (buildEndpointPatch (pair_entraDevice pair) ms) as [body|];
    [|discriminate].
  intros [= <-]. simpl. repeat split.
Qed.

Lemma buildEndpointPatch_nonempty dev ms p :
  buildEndpointPatch dev ms = Some p -> p <> ∅.
Proof.
  unfold buildEndpointPatch. destruct (0 <? size _)%nat eqn:Hs; [|discriminate].
  intros [= <-] He. apply Nat.ltb_lt in Hs. rewrite He, map_size_empty in Hs. lia.
Qed.

Lemma matched_pair_kind devs eps p :
  p ∈ matched (matchDevices devs eps) ->
  pair_endpoint p ∈ eps
  /\ (pair_matchType p = "full" \/ pair_matchType p = "short").
Proof.
  destruct (matchDevices_by_device devs eps) as (Hm & _ & _). rewrite Hm.
  intros Hp. apply list_elem_of_bind in Hp as (d & Hp & Hd).
  destruct (classifyDevice_shape (buildEndpointIndex eps)
              (buildEndpointShortIndex eps) d)
    as [Hk|cands Hk Hf Hl|e Hk Hf|cands Hk Hno Hs Hl|e Hk Hno Hs|Hk Hno Hs];
    simpl in Hp; try (inversion Hp; fail);
    apply list_elem_of_singleton in Hp; subst p; simpl.
  - split; [|left; reflexivity].
    rewrite (buildEndpointIndex_lookup _ _ Hk) in Hf.
    assert (Hin : e ∈ endpointsNamed (fullKeyOf d) eps).
    { destruct (endpointsNamed (fullKeyOf d) eps); [discriminate|].
      injection Hf as ->. left. }
    apply endpointsNamed_spec in Hin. apply Hin.
  - split; [|right; reflexivity].
    rewrite (buildEndpointShortIndex_lookup _ _ (shortKey_nonempty _ Hk)) in Hs.
    assert (Hin : e ∈ endpointsShortNamed (shortKeyOf d) eps).
    { destruct (endpointsShortNamed (shortKeyOf d) eps); [discriminate|].
      injection Hs as ->. left. }
    apply endpointsShortNamed_spec in Hin. apply Hin.
Qed.

(** X9. Planned patches: [mapDevicesToPatches] makes, in the order of the
    matched pairs, one patch item for each pair that gives a patch; an item
    never has an empty body, all its keys are custom-attribute keys, it
    carries the endpoint's [id] and the match type [full] or [short]; so
    there are at most as many patches as matched pairs, and as devices. *)
Theorem mapDevicesToPatches_planned
    (devices endpoints : list JsRecord) (mappings : list Mapping) :
  let mr := mapDevicesToPatches devices endpoints mappings in
  mr_patches mr = omap (patchItemOf mappings) (mr_matched mr)
  /\ (length (mr_patches mr) <= length (mr_matched mr))%nat
  /\ (length (mr_matched mr) <= length devices)%nat
  /\ Forall (fun item =>
               patch item <> ∅
               /\ custom_keys (patch item)
               /\ (matchType item = "full" \/ matchType item = "short")
               /\ exists pair,
                    pair ∈ mr_matched mr
                    /\ pair_endpoint pair ∈ endpoints
                    /\ endpointId item = getProp (pair_endpoint pair) "id"
                    /\ buildEndpointPatch (pair_entraDevice pair) mappings
                       = Some (patch item))
            (mr_patches mr).
Proof.
  intros mr.
  assert (Heq : mr_patches mr = omap (patchItemOf mappings) (mr_matched mr))
    by apply mapDevicesToPatches_patches.
  split; [exact Heq|]. split; [rewrite Heq; apply omap_length_le|]. split.
  { destruct (matchDevices_invariant devices endpoints) as (_ & Hlen & _).
    unfold mr, mapDevicesToPatches. simpl. lia. }
  rewrite Heq. apply Forall_forall. intros item Hin.
  apply list_elem_of_omap in Hin as (pair & Hpair & Hitem).
  destruct (patchItemOf_Some _ _ _ Hitem) as (Hb & Hty & Hid & _).
  destruct (matched_pair_kind devices endpoints pair Hpair) as (Hep & Hkind).
  split; [eapply buildEndpointPatch_nonempty; exact Hb|].
  split; [eapply buildEndpointPatch_custom_keys; exact Hb|].
  split; [rewrite Hty; exact Hkind|].
  exists pair. repeat split; assumption.
Qed.

(** ** Name normalization: further properties *)

Lemma is_space_lower c : is_space (lower_char c) = is_space c.
Proof. destruct c as [[] [] [] [] [] [] [] []]; vm_compute; reflexivity. Qed.

Lemma lower_char_idem c : lower_char (lower_char c) = lower_char c.
Proof. destruct c as [[] [] [] [] [] [] [] []]; vm_compute; reflexivity. Qed.

Lemma lower_char_not_dot c : Ascii.eqb (lower_char c) "." = Ascii.eqb c ".".
Proof. destruct c as [[] [] [] [] [] [] [] []]; vm_compute; reflexivity. Qed.

Lemma toLowerCase_idem s : toLowerCase (toLowerCase s) = toLowerCase s.
Proof.
  induction s as [|c r IH]; [reflexivity|]. simpl.
  rewrite lower_char_idem, IH. reflexivity.
Qed.

Lemma toLowerCase_trimStart s :
  trimStart (toLowerCase s) = toLowerCase (trimStart s).
Proof.
  induction s as [|c r IH]; [reflexivity|]. simpl.
  rewrite is_space_lower. destruct (is_space c); [exact IH|reflexivity].
Qed.

Lemma toLowerCase_trimEnd s :
  trimEnd (toLowerCase s) = toLowerCase (trimEnd s).
Proof.
  induction s as [|c r IH]; [reflexivity|].
  change (toLowerCase (String c r)) with (String (lower_char c) (toLowerCase r)).
  rewrite !trimEnd_cons, IH, is_space_lower.
  destruct (trimEnd r) as [|d r']; simpl.
  - destruct (is_space c); reflexivity.
  - reflexivity.
Qed.

Lemma toLowerCase_trim s : trim (toLowerCase s) = toLowerCase (trim s).
Proof. unfold trim. rewrite toLowerCase_trimStart, toLowerCase_trimEnd. reflexivity. Qed.

Lemma normalizeName_is_string v :
  normalizeName v = "" \/ normalizeName v = toLowerCase (trim (toStringJs v)).
Proof. destruct v; simpl; auto. Qed.

(** X10. Normalization is idempotent, and it makes names that differ in letter
    case or in surrounding white space equal. *)
Theorem normalizeName_idempotent (v : JsValue) :
  normalizeName (JsStr (normalizeName v)) = normalizeName v
  /\ (forall s : string,
        normalizeName (JsStr (toLowerCase s)) = normalizeName (JsStr s)
        /\ normalizeName (JsStr (trim s)) = normalizeName (JsStr s)
        /\ normalizeName (JsStr (" " +:+ s)) = normalizeName (JsStr s)).
Proof.
  split.
  - rewrite normalizeName_str.
    destruct (normalizeName_is_string v) as [->| ->]; [reflexivity|].
    rewrite toLowerCase_trim, trim_idem, toLowerCase_idem. reflexivity.
  - intros s. rewrite !normalizeName_str. split; [|split].
    + rewrite toLowerCase_trim, toLowerCase_idem. reflexivity.
    + rewrite trim_idem. reflexivity.
    + reflexivity.
Qed.

Lemma indexOf_bounds s c : -1 <= indexOf s c.
Proof.
  induction s as [|d r IH]; simpl; [lia|].
  destruct (Ascii.eqb d c); [lia|].
  destruct (indexOf r c <? 0) eqn:H; [lia|]. apply Z.ltb_ge in H. lia.
Qed.

Lemma indexOf_sliceTo s c : forall n,
  (Z.of_nat n <= indexOf s c) -> indexOf (sliceTo n s) c = -1.
Proof.
  induction s as [|d r IH]; intros n Hn.
  - destruct n; reflexivity.
  - destruct n as [|n]; [reflexivity|]. simpl in *.
    destruct (Ascii.eqb d c); [lia|].
    destruct (indexOf r c <? 0) eqn:H; [lia|].
    rewrite IH by lia. reflexivity.
Qed.

Lemma sliceTo_length s : forall n,
  (Z.of_nat n <= indexOf s "."%char) -> String.length (sliceTo n s) = n.
Proof.
  induction s as [|d r IH]; intros n Hn.
  - destruct n; [reflexivity|]. simpl in Hn. lia.
  - destruct n as [|n]; [reflexivity|]. simpl in *.
    destruct (Ascii.eqb d "."); [lia|].
    destruct (indexOf r "." <? 0) eqn:H; [lia|].
    rewrite IH by lia. reflexivity.
Qed.

(** X11. [stripFqdn] cuts at the first dot: when the trimmed name has its first
    dot after the first character, the result is what stands before that dot
    and has no dot in it; a name without a dot, or with a dot in front, is
    kept whole. *)
Theorem stripFqdn_cuts_at_first_dot (name : JsValue) :
  let s := trim (toStringJs (js_or name (JsStr ""))) in
  let dot := indexOf s "." in
  (0 < dot ->
   stripFqdn name = sliceTo (Z.to_nat dot) s
   /\ Z.of_nat (String.length (stripFqdn name)) = dot
   /\ indexOf (stripFqdn name) "." = -1)
  /\ (dot <= 0 -> stripFqdn name = s)
  /\ (forall r, s = String "." r -> stripFqdn name = s).
Proof.
  intros s dot. unfold stripFqdn. fold s. fold dot. cbv zeta.
  split; [|split].
  - intros Hd. assert (H : (0 <? dot) = true) by (apply Z.ltb_lt; exact Hd).
    rewrite H. split; [reflexivity|]. split.
    + rewrite sliceTo_length by (fold dot; lia). lia.
    + apply indexOf_sliceTo. fold dot. lia.
  - intros Hd. assert (H : (0 <? dot) = false) by (apply Z.ltb_ge; exact Hd).
    rewrite H. reflexivity.
  - intros r Hs. assert (H : dot = 0) by (unfold dot; rewrite Hs; reflexivity).
    rewrite H. reflexivity.
Qed.

(** ** The safety limits: further properties *)

Lemma take_eq_iff_length {A : Type} (k : nat) (l : list A) :
  take k l = l <-> (length l <= k)%nat.
Proof.
  split.
  - intros H. apply (f_equal length) in H. rewrite length_take in H. lia.
  - apply take_ge.
Qed.

Lemma safetyLimits_fst opts total planned :
  0 <= maxPatchesPerJob opts ->
  total <= maxTotalPatches opts ->
  fst (safetyLimits opts total planned)
  = take (Z.to_nat (Z.min (maxPatchesPerJob opts)
                          (maxTotalPatches opts - total))) planned.
Proof.
  intros HN HM. unfold safetyLimits.
  destruct (Z.of_nat (length planned) >? maxPatchesPerJob opts) eqn:H1.
  - apply Z.gtb_lt in H1.
    rewrite slice0_nonneg by exact HN.
    assert (Hlen : Z.of_nat (length (take (Z.to_nat (maxPatchesPerJob opts)) planned))
                   = maxPatchesPerJob opts)
      by (rewrite length_take; lia).
    rewrite Hlen.
    destruct (total + maxPatchesPerJob opts >? maxTotalPatches opts) eqn:H2.
    + apply Z.gtb_lt in H2. cbv zeta. simpl fst.
      rewrite slice0_nonneg by lia. rewrite take_take. f_equal. lia.
    + rewrite Z.gtb_ltb in H2; apply Z.ltb_ge in H2. simpl fst. f_equal. lia.
  - rewrite Z.gtb_ltb in H1; apply Z.ltb_ge in H1.
    destruct (total + Z.of_nat (length planned) >? maxTotalPatches opts) eqn:H2.
    + apply Z.gtb_lt in H2. cbv zeta. simpl fst.
      rewrite slice0_nonneg by lia. f_equal. lia.
    + rewrite Z.gtb_ltb in H2; apply Z.ltb_ge in H2. simpl fst.
      symmetry. apply take_ge. lia.
Qed.

Lemma safetyLimits_snd_None opts total planned :
  0 <= maxPatchesPerJob opts ->
  snd (safetyLimits opts total planned) = None
  <-> Z.of_nat (length planned) <= maxPatchesPerJob opts
      /\ total + Z.of_nat (length planned) <= maxTotalPatches opts.
Proof.
  intros HN. unfold safetyLimits.
  destruct (Z.of_nat (length planned) >? maxPatchesPerJob opts) eqn:H1.
  - apply Z.gtb_lt in H1.
    destruct (_ >? maxTotalPatches opts); simpl snd;
      (split; [discriminate|lia]).
  - rewrite Z.gtb_ltb in H1; apply Z.ltb_ge in H1.
    destruct (total + Z.of_nat (length planned) >? maxTotalPatches opts) eqn:H2.
    + apply Z.gtb_lt in H2. simpl snd. split; [discriminate|lia].
    + rewrite Z.gtb_ltb in H2; apply Z.ltb_ge in H2. simpl snd.
      split; [lia|reflexivity].
Qed.

Lemma safetyLimits_uncut opts total planned :
  0 <= maxPatchesPerJob opts ->
  total <= maxTotalPatches opts ->
  snd (safetyLimits opts total planned) = None
  <-> length (fst (safetyLimits opts total planned)) = length planned.
Proof.
  intros HN HM. rewrite (safetyLimits_snd_None _ _ _ HN).
  rewrite (safetyLimits_fst _ _ _ HN HM), length_take. lia.
Qed.

(** X12. With limits that are not negative and a total within the global limit,
    the patches to process are the first min(maxPatchesPerJob,
    maxTotalPatches - total) planned ones, and limitedBy is null exactly when
    nothing was cut, which is when the planned patches fit both limits. *)
Theorem safetyLimits_null_iff_uncut
    (opts : SyncOptions) (total : Z) (planned : list PatchItem) :
  0 <= maxPatchesPerJob opts ->
  total <= maxTotalPatches opts ->
  let out := safetyLimits opts total planned in
  fst out = take (Z.to_nat (Z.min (maxPatchesPerJob opts)
                                  (maxTotalPatches opts - total))) planned
  /\ (snd out = None <-> fst out = planned)
  /\ (snd out = None <->
      Z.of_nat (length planned) <= maxPatchesPerJob opts
      /\ total + Z.of_nat (length planned) <= maxTotalPatches opts).
Proof.
  intros HN HM out. unfold out.
  split; [exact (safetyLimits_fst _ _ _ HN HM)|].
  split; [|exact (safetyLimits_snd_None _ _ _ HN)].
  rewrite (safetyLimits_uncut _ _ _ HN HM). split.
  - intros Hlen. destruct (safetyLimits_prefix opts total planned) as [k Hk].
    rewrite Hk in *. apply take_eq_iff_length.
    rewrite length_take in Hlen. lia.
  - intros ->. reflexivity.
Qed.

(** ** config/helpers.js: the jobs of a configuration *)

Lemma foldl_push_bind {A B : Type} (step : list B -> A -> list B)
    (f : A -> list B) :
  (forall acc x, step acc x = acc ++ f x) ->
  forall l acc, foldl step acc l = acc ++ (l ≫= f).
Proof.
  intros Hstep l. induction l as [|x l IH]; intros acc; csimpl.
  - rewrite app_nil_r. reflexivity.
  - rewrite IH, Hstep, <- app_assoc. reflexivity.
Qed.

Lemma getSyncJobs_bind config :
  getSyncJobs config
  = tenants config ≫= (fun t =>
      targets t ≫= (fun target =>
        organizationIds target ≫= (fun org =>
          [{| tenant := t; organizationId := org;
              mappings := target_mappings target |}]))).
Proof.
  unfold getSyncJobs.
  rewrite (foldl_push_bind _ (fun t =>
             targets t ≫= (fun target =>
               organizationIds target ≫= (fun org =>
                 [{| tenant := t; organizationId := org;
                     mappings := target_mappings target |}])))).
  - reflexivity.
  - intros acc t.
    apply (foldl_push_bind _ (fun target =>
             organizationIds target ≫= (fun org =>
               [{| tenant := t; organizationId := org;
                   mappings := target_mappings target |}]))).
    intros acc' target.
    apply (foldl_push_bind _ (fun org =>
             [{| tenant := t; organizationId := org;
                 mappings := target_mappings target |}])).
    reflexivity.
Qed.

Lemma length_bind_sum {A B : Type} (f : A -> list B) (l : list A) :
  length (l ≫= f) = sum_list (map (fun x => length (f x)) l).
Proof.
  induction l as [|x l IH]; csimpl; [reflexivity|].
  rewrite length_app, IH. reflexivity.
Qed.

(** X13. [getSyncJobs] flattens the configuration: one job for each
    organization id of each target of each tenant, in the order of the
    configuration, with the tenant and the mappings of the target.  So there
    are as many jobs as organization ids listed, repetitions counted, and a
    tenant without targets or a target without organizations gives none. *)
Theorem getSyncJobs_flattens (config : Config) :
  getSyncJobs config
  = tenants config ≫= (fun t =>
      targets t ≫= (fun target =>
        (fun org => {| tenant := t; organizationId := org;
                       mappings := target_mappings target |})
          <$> organizationIds target))
  /\ length (getSyncJobs config)
     = sum_list (map (fun t =>
         sum_list (map (fun target => length (organizationIds target))
                       (targets t)))
         (tenants config))
  /\ (forall job,
        job ∈ getSyncJobs config <->
        tenant job ∈ tenants config
        /\ exists target, target ∈ targets (tenant job)
             /\ organizationId job ∈ organizationIds target
             /\ mappings job = target_mappings target).
Proof.
  assert (Hmap : forall t target,
            organizationIds target ≫= (fun org =>
              [{| tenant := t; organizationId := org;
                  mappings := target_mappings target |}])
            = (fun org => {| tenant := t; organizationId := org;
                             mappings := target_mappings target |})
                <$> organizationIds target).
  { intros t target. induction (organizationIds target) as [|o l IH];
      csimpl; [reflexivity|]. rewrite IH. reflexivity. }
  split; [|split].
  - rewrite getSyncJobs_bind.
    induction (tenants config) as [|t ts IHt]; csimpl; [reflexivity|].
    rewrite IHt. f_equal.
  - rewrite getSyncJobs_bind, length_bind_sum. f_equal.
    apply map_ext. intros t. rewrite length_bind_sum. f_equal.
    apply map_ext. intros target. rewrite Hmap, length_fmap. reflexivity.
  - intros job. rewrite getSyncJobs_bind. split.
    + intros Hin. apply list_elem_of_bind in Hin as (t & Hin & Ht).
      apply list_elem_of_bind in Hin as (target & Hin & Htg).
      apply list_elem_of_bind in Hin as (org & Hin & Horg).
      apply list_elem_of_singleton in Hin. subst job. simpl.
      split; [exact Ht|]. exists target. auto.
    + intros (Ht & target & Htg & Horg & Hm).
      apply list_elem_of_bind. exists (tenant job). split; [|exact Ht].
      apply list_elem_of_bind. exists target. split; [|exact Htg].
      apply list_elem_of_bind. exists (organizationId job). split; [|exact Horg].
      apply list_elem_of_singleton. destruct job; simpl in *. subst. reflexivity.
Qed.

(** ** The conduct of a run: further properties *)

Lemma planned_bodies_ok devs eps ms :
  Forall body_ok (mr_patches (mapDevicesToPatches devs eps ms)).
Proof.
  rewrite mapDevicesToPatches_patches. apply Forall_forall. intros item Hin.
  apply list_elem_of_omap in Hin as (pair & _ & Hitem).
  apply patchItemOf_Some in Hitem as (Hb & _).
  split.
  - eapply buildEndpointPatch_nonempty. exact Hb.
  - eapply buildEndpointPatch_custom_keys. exact Hb.
Qed.

Lemma limited_bodies_ok opts total ps :
  Forall body_ok ps -> Forall body_ok (fst (safetyLimits opts total ps)).
Proof.
  intros H. destruct (safetyLimits_prefix opts total ps) as [k ->].
  apply Forall_take. exact H.
Qed.

Lemma countListings_app evs1 evs2 :
  countListings (evs1 ++ evs2) = (countListings evs1 + countListings evs2)%nat.
Proof. unfold countListings. rewrite filter_app, length_app. reflexivity. Qed.

Lemma cache_use_refl includeName cache : cache_use includeName cache cache [].
Proof.
  destruct cache as [c|]; simpl; [|reflexivity].
  exists c. split; [reflexivity|]. split; [auto|]. split; [constructor|].
  intros k Hk. inversion Hk.
Qed.

Lemma cache_use_trans includeName c0 c1 c2 evs1 evs2 :
  cache_use includeName c0 c1 evs1 -> cache_use includeName c1 c2 evs2 ->
  cache_use includeName c0 c2 (evs1 ++ evs2).
Proof.
  destruct c0 as [c|]; simpl.
  - intros (c' & -> & Hsub & Hnd & Hk) H2. simpl in H2.
    destruct H2 as (c'' & -> & Hsub' & Hnd' & Hk').
    exists c''. split; [reflexivity|]. split; [auto|].
    rewrite omap_app. split.
    + apply NoDup_app. split; [exact Hnd|]. split; [|exact Hnd'].
      intros k Hin1 Hin2. destruct (Hk k Hin1) as [_ [v Hv]].
      destruct (Hk' k Hin2) as [Hnone _]. congruence.
    + intros k Hin. apply elem_of_app in Hin as [Hin|Hin].
      * destruct (Hk k Hin) as [Hn Hs]. split; [exact Hn|]. apply Hsub'. exact Hs.
      * destruct (Hk' k Hin) as [Hn Hs]. split; [|exact Hs].
        destruct (c !! k) eqn:Hc; [|reflexivity].
        destruct (Hsub k (mk_is_Some _ _ Hc)) as [v Hv]. congruence.
  - intros -> H2. exact H2.
Qed.

Lemma limits_ok_each opts rs : forall total,
  total <= maxTotalPatches opts ->
  limits_ok opts total rs ->
  Forall (fun r => exists t, t <= maxTotalPatches opts /\ job_limited opts t r) rs.
Proof.
  induction rs as [|r rs IH]; intros total Ht H; [constructor|].
  destruct H as [Hr Hrest]. constructor.
  - exists total. split; assumption.
  - apply (IH _ (proj2 (job_limited_applied _ _ _ Hr) Ht) Hrest).
Qed.

Section SyncEngineConduct.

  Context {World : Type}.
  Variable listDevicesWithGroups :
    Tenant -> World -> (Thrown + list JsRecord) * World.
  Variable listManagedEndpoints :
    JsRecord -> JsValue -> string -> Z -> World ->
    (Thrown + list JsRecord) * World.
  Variable patchManagedEndpoint :
    JsRecord -> JsValue -> string -> JsValue -> JsRecord -> World ->
    (Thrown + unit) * World.
  Variable includeName : bool.

  Local Abbreviation State := (@RunState World).

  Section JobConduct.

  Variable config : Config.
  Variable opts : SyncOptions.
  Variable action1Token : JsValue.

  Local Abbreviation fetch :=
    (fetchStage listDevicesWithGroups listManagedEndpoints includeName
       config opts action1Token).
  Local Abbreviation patches :=
    (patchLoop patchManagedEndpoint config opts action1Token).
  Local Abbreviation apply_stage :=
    (applyStage patchManagedEndpoint config opts action1Token).
  Local Abbreviation iteration :=
    (jobIteration listDevicesWithGroups listManagedEndpoints patchManagedEndpoint
       includeName config opts action1Token).
  Local Abbreviation loop :=
    (jobLoop listDevicesWithGroups listManagedEndpoints patchManagedEndpoint
       includeName config opts action1Token).

Lemma patches_conduct job ps : forall (st : State) applied errs,
    Forall body_ok ps -> dryRun opts = false ->
    exists st' news newerrs evs,
      patches job ps applied errs st = (inr (applied ++ news, errs ++ newerrs), st')
      /\ trace st' = trace st ++ evs
      /\ jobResults st' = jobResults st
      /\ entraDevicesCache st' = entraDevicesCache st
      /\ Forall (fun e => is_patch_call e = true /\ job_event opts job e) evs
      /\ (if stopOnPatchError opts
          then (length newerrs <= 1
                /\ (newerrs = [] -> length news = length ps)
                /\ length news + length newerrs <= length ps)%nat
          else (length news + length newerrs = length ps)%nat).
  Proof.
    intros st applied errs Hps Hdry. revert st applied errs.
    induction Hps as [|p rest [Hne Hkeys] Hrest IH]; intros st applied errs.
    - exists st, [], [], []. rewrite !app_nil_r. simpl.
      split; [reflexivity|]. split; [reflexivity|]. split; [reflexivity|].
      split; [reflexivity|]. split; [constructor|].
      destruct (stopOnPatchError opts); simpl; lia.
    - simpl patchLoop. unfold bind at 1. unfold try_, applyPatch.
      assert (Hsize : (size (patch p) =? 0)%nat = false).
      { apply Nat.eqb_neq. intros Hs. apply map_size_empty_iff in Hs. contradiction. }
      rewrite Hsize.
      destruct (negb (truthy (endpointId p))) eqn:Hid.
      + unfold throw. cbv beta iota.
        destruct (stopOnPatchError opts) eqn:Hstop.
        * eexists st, [], [_], []. rewrite app_nil_r. split; [reflexivity|].
          rewrite app_nil_r. simpl.
          (repeat split); first [lia|discriminate|constructor].
        * destruct (IH st applied (errs ++ [{| pe_endpointId := endpointId p;
                      pe_error := errMsg (ThrownError "Error"
                        "Invalid patch item: missing endpointId or patch object") |}]))
            as (st' & news & newerrs & evs & Hrun & Ht & Hr & Hc & Hev & Hn).
          eexists st', news, (_ :: newerrs), evs.
          split; [rewrite Hrun, <- app_assoc; reflexivity|].
          repeat split; try assumption. simpl length. lia.
      + apply negb_false_iff in Hid.
        unfold bind, callPatch, addApplied, modify, ret.
        destruct (patchManagedEndpoint _ _ _ _ _ (world st)) as [[err|[]] w].
        * cbv beta iota.
          set (st1 := with_world st w _).
          destruct (stopOnPatchError opts) eqn:Hstop.
          -- eexists st1, [], [_], [_]. rewrite app_nil_r.
             split; [reflexivity|]. simpl.
             repeat split; try assumption; try lia; try discriminate.
             constructor; [|constructor]. simpl. repeat split; assumption.
          -- destruct (IH st1 applied (errs ++ [{| pe_endpointId := endpointId p;
                      pe_error := errMsg err |}]))
               as (st' & news & newerrs & evs & Hrun & Ht & Hr & Hc & Hev & Hn).
             eexists st', news, (_ :: newerrs), (_ :: evs).
             split; [rewrite Hrun, <- app_assoc; reflexivity|].
             split; [rewrite Ht; simpl; rewrite <- app_assoc; reflexivity|].
             repeat split; try assumption; try (simpl length; lia).
             constructor; [|exact Hev]. simpl. repeat split; assumption.
        * cbv beta iota.
          match goal with
          | |- context [patchLoop _ _ _ _ _ _ _ _ ?s] => set (st1 := s)
          end.
          destruct (IH st1 (applied ++ [endpointId p]) errs)
            as (st' & news & newerrs & evs & Hrun & Ht & Hr & Hc & Hev & Hn).
          eexists st', (endpointId p :: news), newerrs, (_ :: evs).
          split; [rewrite Hrun, <- app_assoc; reflexivity|].
          split; [rewrite Ht; simpl; rewrite <- app_assoc; reflexivity|].
          repeat split; try assumption.
          -- constructor; [|exact Hev]. simpl. repeat split; assumption.
          -- destruct (stopOnPatchError opts); simpl length; [|lia].
             destruct Hn as (H1 & H2 & H3).
             split; [lia|]. split; [|lia]. intros E. rewrite (H2 E). reflexivity.
  Qed.

Lemma fetch_conduct job (st : State) :
    exists r st' evs,
      fetch job st = (r, st')
      /\ trace st' = trace st ++ evs
      /\ jobResults st' = jobResults st
      /\ Forall (fun e => is_patch_call e = false /\ job_event opts job e) evs
      /\ cache_use includeName (entraDevicesCache st) (entraDevicesCache st') evs
      /\ (entraDevicesCache st = None -> countListings evs = 1%nat)
      /\ (countListings evs <= 1)%nat.
  Proof.
    unfold fetchStage, fetchEntraDevices, bind, gets, ret, cacheSet, modify,
      callListDevices, callListEndpoints.
    destruct (entraDevicesCache st) as [cache|] eqn:Hc.
    - destruct (cache !! tenantCacheKey includeName (tenant job)) as [devs|] eqn:Hk.
      + destruct (listManagedEndpoints _ _ _ _ (world st)) as [[err|eps] w];
          eexists _, _, [_]; (split; [reflexivity|]);
          (split; [reflexivity|]); (split; [reflexivity|]);
          (split; [constructor; [|constructor]; simpl; auto|]);
          (split; [|split; [discriminate|vm_compute; lia]]);
          simpl; rewrite Hc; exists cache;
          (split; [reflexivity|]); (split; [auto|]);
          (split; [constructor|]); intros k Hin; inversion Hin.
      + destruct (listDevicesWithGroups (tenant job) (world st)) as [[err|devs] w].
        * eexists _, _, [_]. split; [reflexivity|]. split; [reflexivity|].
          split; [reflexivity|].
          split; [constructor; [|constructor]; simpl; auto|].
          split; [|split; [discriminate|vm_compute; lia]].
          simpl. rewrite Hc. exists cache.
          split; [reflexivity|]. split; [auto|]. split; [constructor|].
          intros k Hin. inversion Hin.
        * cbv beta iota. simpl world.
          destruct (listManagedEndpoints _ _ _ _ w) as [[err|eps] w'];
            eexists _, _, [_; _];
            (split; [reflexivity|]);
            (split; [simpl; rewrite <- app_assoc; reflexivity|]);
            (split; [reflexivity|]);
            (split; [constructor; [|constructor; [|constructor]]; simpl; auto|]);
            (split; [|split; [discriminate|vm_compute; lia]]);
            simpl; rewrite Hc; eexists; (split; [reflexivity|]);
            (split;
             [intros k [v Hv];
              destruct (decide (tenantCacheKey includeName (tenant job) = k))
                as [<-|Hne];
              [rewrite lookup_insert_eq; eauto
              |rewrite lookup_insert_ne by exact Hne; eauto]|]);
            (split; [repeat constructor; intros Hin; inversion Hin|]);
            intros k Hin; apply list_elem_of_singleton in Hin; subst k;
            (split; [exact Hk|]); rewrite lookup_insert_eq; eauto.
    - destruct (listDevicesWithGroups (tenant job) (world st)) as [[err|devs] w].
      + eexists _, _, [_]. split; [reflexivity|]. split; [reflexivity|].
        split; [reflexivity|].
        split; [constructor; [|constructor]; simpl; auto|].
        split; [simpl; exact Hc|]. split; [reflexivity|vm_compute; lia].
      + cbv beta iota. simpl world.
        destruct (listManagedEndpoints _ _ _ _ w) as [[err|eps] w'];
          eexists _, _, [_; _];
          (split; [reflexivity|]);
          (split; [simpl; rewrite <- app_assoc; reflexivity|]);
          (split; [reflexivity|]);
          (split; [constructor; [|constructor; [|constructor]]; simpl; auto|]);
          (split; [simpl; exact Hc|]);
          (split; [reflexivity|vm_compute; lia]).
  Qed.

Lemma mapping_counts devs eps ms :
    let mr := mapDevicesToPatches devs eps ms in
    (length (mr_matched mr) + length (mr_unmatchedEntra mr)
     + length (mr_ambiguous mr) = length devs)%nat
    /\ (length (mr_patches mr) <= length (mr_matched mr))%nat.
  Proof.
    intros mr. split.
    - exact (proj1 (proj2 (matchDevices_invariant devs eps))).
    - unfold mr. rewrite mapDevicesToPatches_patches. apply omap_length_le.
  Qed.

Lemma applyStage_conduct job entraDevices endpoints (st : State) :
    exists st' d evs,
      apply_stage job entraDevices endpoints st = (inr tt, st')
      /\ jobResults st' = jobResults st ++ [JobOk d]
      /\ trace st' = trace st ++ evs
      /\ entraDevicesCache st' = entraDevicesCache st
      /\ Forall (fun e => is_patch_call e = true /\ job_event opts job e) evs
      /\ result_ok opts (JobOk d).
  Proof.
    unfold applyStage, bind, addPlanned, gets, modify, pushResult.
    cbv beta iota. simpl totalAppliedPatches.
    set (mr := mapDevicesToPatches entraDevices endpoints (mappings job)).
    set (limits := safetyLimits opts (totalAppliedPatches st) (mr_patches mr)).
    destruct (mapping_counts entraDevices endpoints (mappings job)) as [Hsum Hle].
    fold mr in Hsum, Hle.
    pose proof (safetyLimits_length opts (totalAppliedPatches st) (mr_patches mr))
      as Hcut.
    fold limits in Hcut.
    assert (Hsample : Z.of_nat (length (slice0 (mr_patches mr) 3))
                      = Z.min 3 (Z.of_nat (length (mr_patches mr)))).
    { rewrite slice0_nonneg by lia. rewrite length_take. lia. }
    assert (Hbodies : Forall body_ok (fst limits))
      by apply limited_bodies_ok, planned_bodies_ok.
    clearbody mr.
    destruct (dryRun opts) eqn:Hdry.
    - unfold ret. cbv beta iota. simpl fst. simpl snd.
      match goal with
      | |- context [JobOk ?d0] => eexists; exists d0, []
      end.
      split; [reflexivity|]. split; [reflexivity|].
      split; [simpl; rewrite app_nil_r; reflexivity|].
      split; [reflexivity|]. split; [constructor|].
      simpl. split; [rewrite Hdry; reflexivity|]. split.
      + unfold counts_ok. simpl. (repeat split); lia.
      + unfold accounted. simpl. rewrite Hdry. split; reflexivity.
    - match goal with
      | |- context [patchLoop _ _ _ _ _ _ _ _ ?s] => set (st1 := s)
      end.
      change (safetyLimits opts (totalAppliedPatches st1) (mr_patches mr))
        with limits.
      destruct (patches_conduct job (fst limits) st1 [] [] Hbodies Hdry)
        as (st' & news & newerrs & evs & Hrun & Ht & Hr & Hc & Hev & Hn).
      rewrite Hrun. unfold modify. cbv beta iota. simpl fst. simpl snd.
      match goal with
      | |- context [JobOk ?d0] => eexists; exists d0, evs
      end.
      split; [reflexivity|]. simpl.
      split; [rewrite Hr; reflexivity|]. split; [exact Ht|].
      split; [exact Hc|]. split; [exact Hev|].
      split; [rewrite Hdry; reflexivity|].
      assert (Hnews : (length news <= length (fst limits))%nat).
      { destruct (stopOnPatchError opts); lia. }
      split.
      + unfold counts_ok. simpl. (repeat split); lia.
      + unfold accounted. simpl. rewrite Hdry.
        destruct (stopOnPatchError opts).
        * destruct Hn as (H1 & H2 & H3). split; [lia|]. split; [|lia].
          intros E. rewrite H2; [reflexivity|].
          destruct newerrs; [reflexivity|simpl in E; lia].
        * lia.
  Qed.

Lemma patch_events_no_listing (P : Event -> Prop) evs :
    Forall (fun e => is_patch_call e = true /\ P e) evs ->
    countListings evs = 0%nat /\ omap (listed_key includeName) evs = [].
  Proof.
    induction 1 as [|e evs [He _] _ [IH1 IH2]]; [split; reflexivity|].
    destruct e; try discriminate He.
    unfold countListings in *. rewrite filter_cons. csimpl.
    destruct (decide (false = true)) as [Hf|_]; [discriminate Hf|].
    split; [exact IH1|exact IH2].
  Qed.

Lemma iteration_conduct job (st : State) :
    exists b st' r evs,
      iteration job st = (inr b, st')
      /\ jobResults st' = jobResults st ++ [r]
      /\ trace st' = trace st ++ evs
      /\ Forall (job_event opts job) evs
      /\ result_ok opts r
      /\ b = negb (stopOnJobError opts && is_failure r)
      /\ cache_use includeName (entraDevicesCache st) (entraDevicesCache st') evs
      /\ (entraDevicesCache st = None -> countListings evs = 1%nat)
      /\ (countListings evs <= 1)%nat.
  Proof.
    destruct (fetch_conduct job st)
      as (r0 & st1 & evs1 & Hfetch & Ht1 & Hr1 & Hev1 & Hc1 & Hn1 & Hle1).
    assert (Hev1' : Forall (job_event opts job) evs1).
    { eapply Forall_impl; [exact Hev1|]. intros e [_ He]. exact He. }
    destruct r0 as [err|[entraDevices endpoints]].
    - rewrite (iteration_failed _ _ _ _ _ _ _ job st st1 err Hfetch).
      eexists _, _, (minimalResult job opts err), evs1.
      split; [reflexivity|]. simpl.
      split; [rewrite Hr1; reflexivity|]. split; [exact Ht1|].
      split; [exact Hev1'|]. split; [reflexivity|].
      split; [rewrite andb_true_r; reflexivity|].
      split; [exact Hc1|]. split; assumption.
    - rewrite (iteration_done _ _ _ _ _ _ _ job st st1 _ _ Hfetch).
      destruct (applyStage_conduct job entraDevices endpoints st1)
        as (st' & d & evs2 & Hrun & Hr2 & Ht2 & Hc2 & Hev2 & Hok).
      rewrite Hrun. simpl snd.
      destruct (patch_events_no_listing _ evs2 Hev2) as [Hcount Hkeys].
      exists true, st', (JobOk d), (evs1 ++ evs2).
      split; [reflexivity|].
      split; [rewrite Hr2, Hr1; reflexivity|].
      split; [rewrite Ht2, Ht1, <- app_assoc; reflexivity|].
      split.
      { apply Forall_app. split; [exact Hev1'|].
        eapply Forall_impl; [exact Hev2|]. intros e [_ He]. exact He. }
      split; [exact Hok|].
      split; [simpl; rewrite andb_false_r; reflexivity|].
      rewrite countListings_app, Hcount, Nat.add_0_r.
      split; [|split; assumption].
      rewrite Hc2.
      destruct (entraDevicesCache st) as [c|]; simpl in *; [|exact Hc1].
      destruct Hc1 as (c' & Hc' & Hsub & Hnd & Hk).
      exists c'. rewrite omap_app, Hkeys, app_nil_r. auto.
  Qed.

Lemma loop_conduct jobs : forall st : State,
    exists st' rs evs,
      loop jobs st = (inr tt, st')
      /\ jobResults st' = jobResults st ++ rs
      /\ trace st' = trace st ++ evs
      /\ Forall (fun e => exists job, job ∈ jobs /\ job_event opts job e) evs
      /\ Forall (result_ok opts) rs
      /\ stops_at_failure opts jobs rs
      /\ cache_use includeName (entraDevicesCache st) (entraDevicesCache st') evs
      /\ (entraDevicesCache st = None -> countListings evs = length rs)
      /\ (countListings evs <= length rs)%nat.
  Proof.
    induction jobs as [|job rest IH]; intros st.
    - exists st, [], []. rewrite !app_nil_r. simpl.
      split; [reflexivity|]. split; [reflexivity|]. split; [reflexivity|].
      split; [constructor|]. split; [constructor|].
      split.
      { split; [simpl; lia|]. split; [simpl; lia|]. intros _ i f Hi.
        rewrite lookup_nil in Hi. discriminate. }
      split; [apply cache_use_refl|]. split; [reflexivity|vm_compute; lia].
    - simpl jobLoop. unfold bind at 1.
      destruct (iteration_conduct job st)
        as (b & st1 & r & evs1 & Hrun1 & Hr1 & Ht1 & Hev1 & Hok1 & Hb & Hc1 & Hn1 & Hle1).
      rewrite Hrun1.
      assert (Hev1' : Forall (fun e => exists j, j ∈ job :: rest
                                                 /\ job_event opts j e) evs1).
      { eapply Forall_impl; [exact Hev1|]. intros e He.
        exists job. split; [left|exact He]. }
      destruct b.
      + destruct (IH st1)
          as (st' & rs & evs2 & Hrun & Hr2 & Ht2 & Hev2 & Hok2 & Hstop & Hc2 & Hn2 & Hle2).
        exists st', (r :: rs), (evs1 ++ evs2).
        split; [exact Hrun|].
        split; [rewrite Hr2, Hr1, <- app_assoc; reflexivity|].
        split; [rewrite Ht2, Ht1, <- app_assoc; reflexivity|].
        split.
        { apply Forall_app. split; [exact Hev1'|].
          eapply Forall_impl; [exact Hev2|]. intros e (j & Hj & He).
          exists j. split; [right; exact Hj|exact He]. }
        split; [constructor; assumption|].
        split.
        { destruct Hstop as (Hlen & Hshort & Hlast).
          split; [simpl; lia|]. split.
          - intros Hlt. simpl in Hlt.
            destruct Hshort as (Hs & f & Hf); [lia|].
            split; [exact Hs|]. exists f. rewrite last_cons, Hf. reflexivity.
          - intros Hs [|i] f Hi; simpl in Hi.
            + injection Hi as ->. rewrite Hs in Hb. discriminate Hb.
            + simpl. f_equal. exact (Hlast Hs i f Hi). }
        split; [eapply cache_use_trans; eassumption|].
        rewrite countListings_app. simpl length. split; [|lia].
        intros Hnone. rewrite (Hn1 Hnone), Hn2; [reflexivity|].
        rewrite Hnone in Hc1. exact Hc1.
      + exists st1, [r], evs1.
        split; [reflexivity|]. split; [exact Hr1|]. split; [exact Ht1|].
        split; [exact Hev1'|]. split; [constructor; [assumption|constructor]|].
        symmetry in Hb. apply negb_false_iff, andb_prop in Hb as [Hs Hf].
        split.
        { split; [simpl; lia|]. split.
          - intros _. split; [exact Hs|].
            destruct r as [d|f]; [discriminate Hf|]. exists f. reflexivity.
          - intros _ [|i] f Hi; [reflexivity|].
            simpl in Hi. rewrite lookup_nil in Hi. discriminate. }
        split; [exact Hc1|]. split; [exact Hn1|exact Hle1].
  Qed.

  End JobConduct.

  Variable getAction1AccessToken :
    JsRecord -> World -> (Thrown + JsValue) * World.

  Local Abbreviation run :=
    (runSync getAction1AccessToken listDevicesWithGroups listManagedEndpoints
       patchManagedEndpoint includeName).

Lemma runSync_conduct config options (w : World) :
    let opts := normalizeOptions options in
    let jobs := getSyncJobs config in
    let out := run config options (startState w) in
    (exists err, fst out = inl err /\ trace (snd out) = [EvGetToken (Some err)])
    \/ (exists summary evs,
          fst out = inr summary
          /\ trace (snd out) = EvGetToken None :: evs
          /\ Forall (fun e => exists job, job ∈ jobs /\ job_event opts job e) evs
          /\ Forall (result_ok opts) (sum_results summary)
          /\ stops_at_failure opts jobs (sum_results summary)
          /\ cache_use includeName
               (if cacheEntraDevices opts then Some ∅ else None)
               (entraDevicesCache (snd out)) evs
          /\ (cacheEntraDevices opts = false ->
              countListings evs = length (sum_results summary))
          /\ (countListings evs <= length (sum_results summary))%nat
          /\ sum_dryRun summary = dryRun opts).
  Proof.
    intros opts jobs out.
    destruct (getAction1AccessToken (action1 config) w) as [[err|token] w']
      eqn:Htok.
    - left. exists err. unfold out.
      rewrite (runSync_token_failure _ _ _ _ _ _ _ _ _ _ Htok).
      split; reflexivity.
    - right.
      set (st0 := {| world := w';
                     trace := [EvGetToken None];
                     jobResults := [];
                     entraDevicesCache :=
                       if cacheEntraDevices opts then Some ∅ else None;
                     totalPlannedPatches := 0;
                     totalAppliedPatches := 0 |} : State).
      destruct (loop_conduct config opts token jobs st0)
        as (st' & rs & evs & Hrun & Hr & Ht & Hev & Hok & Hstop & Hc & Hn & Hle).
      assert (Hout : out = (inr {| sum_dryRun := dryRun opts;
                                   sum_jobs := Z.of_nat (length jobs);
                                   sum_totalPlannedPatches := totalPlannedPatches st';
                                   sum_totalAppliedPatches := totalAppliedPatches st';
                                   sum_results := rs |}, st')).
      { unfold out, runSync. fold opts. fold jobs.
        unfold bind at 1. unfold callGetToken. simpl world. rewrite Htok.
        cbv beta iota. unfold bind at 1. unfold initLocals, modify.
        cbv beta iota.
        match goal with
        | |- context [bind (jobLoop _ _ _ _ _ _ _ _) _ ?s] => change s with st0
        end.
        unfold bind, gets, ret. rewrite Hrun, Hr. reflexivity. }
      rewrite Hout. simpl fst. simpl snd.
      eexists _, evs.
      split; [reflexivity|]. split; [rewrite Ht; reflexivity|].
      split; [exact Hev|]. split; [exact Hok|]. split; [exact Hstop|].
      split; [exact Hc|]. split; [|split; [exact Hle|reflexivity]].
      intros Hoff. apply Hn. unfold st0. cbn [entraDevicesCache].
      rewrite Hoff. reflexivity.
  Qed.

(** X14. The calls of a run.  The token is asked for once, by the first call.
    Every later call is made for a job of the configuration: a directory
    listing of the job's tenant, an endpoint listing of its organization with
    [endpointPageSize] as limit, or a patch of its organization, which is
    sent outside a dry run only, names an endpoint (a truthy id) and carries
    a body that is not empty and has custom-attribute keys only. *)
Theorem runSync_calls_wellformed
      (config : Config) (options : RawOptions) (w : World) :
    let opts := normalizeOptions options in
    exists first rest,
      trace (snd (run config options (startState w))) = EvGetToken first :: rest
      /\ Forall (fun e => exists job, job ∈ getSyncJobs config
                                      /\ job_event opts job e) rest.
  Proof.
    intros opts.
    destruct (runSync_conduct config options w)
      as [(err & _ & Ht)|(summary & evs & _ & Ht & Hev & _)].
    - exists (Some err), []. split; [exact Ht|constructor].
    - exists None, evs. split; [exact Ht|exact Hev].
  Qed.

(** X15. The counts of a job result fit together: the three buckets add up to
    the directory devices, patchesApplied <= patchesToProcess <=
    patchesPlanned <= matched, samplePatches has min(3, patchesPlanned)
    items, and every result carries the summary's dryRun. *)
Theorem runSync_result_counts
      (config : Config) (options : RawOptions) (w : World) (summary : Summary) :
    fst (run config options (startState w)) = inr summary ->
    forall r, r ∈ sum_results summary ->
      match r with
      | JobOk d => jr_dryRun d = sum_dryRun summary /\ counts_ok d
      | JobFailed f => jf_dryRun f = sum_dryRun summary
      end.
  Proof.
    intros Hrun r Hin.
    destruct (runSync_conduct config options w)
      as [(err & He & _)|(summary' & evs & Hs & _ & _ & Hok & _ & _ & _ & _ & Hdry)].
    - rewrite Hrun in He. discriminate He.
    - rewrite Hrun in Hs. injection Hs as <-.
      rewrite Forall_forall in Hok. specialize (Hok r Hin).
      rewrite Hdry. destruct r as [d|f]; simpl in Hok; tauto.
  Qed.

(** X16. Every patch a job was to process is accounted for.  In a dry run
    nothing is applied and no patch error is recorded.  Otherwise, without
    stopOnPatchError, patchesApplied plus the number of patchErrors is
    patchesToProcess; with stopOnPatchError there is at most one patch error,
    and without one all of patchesToProcess were applied. *)
Theorem runSync_patches_accounted
      (config : Config) (options : RawOptions) (w : World) (summary : Summary) :
    fst (run config options (startState w)) = inr summary ->
    forall d, JobOk d ∈ sum_results summary ->
      accounted (normalizeOptions options) d.
  Proof.
    intros Hrun d Hin.
    destruct (runSync_conduct config options w)
      as [(err & He & _)|(summary' & evs & Hs & _ & _ & Hok & _)].
    - rewrite Hrun in He. discriminate He.
    - rewrite Hrun in Hs. injection Hs as <-.
      rewrite Forall_forall in Hok. exact (proj2 (proj2 (Hok _ Hin))).
  Qed.

(** X17. The job loop ends early only by the break of stopOnJobError: a run with
    fewer results than jobs has stopOnJobError set and a failed job as its
    last result, and with stopOnJobError no result follows that of a failed
    job. *)
Theorem runSync_stops_at_failure
      (config : Config) (options : RawOptions) (w : World) (summary : Summary) :
    fst (run config options (startState w)) = inr summary ->
    stops_at_failure (normalizeOptions options) (getSyncJobs config)
      (sum_results summary).
  Proof.
    intros Hrun.
    destruct (runSync_conduct config options w)
      as [(err & He & _)|(summary' & evs & Hs & _ & _ & _ & Hstop & _)].
    - rewrite Hrun in He. discriminate He.
    - rewrite Hrun in Hs. injection Hs as <-. exact Hstop.
  Qed.


(** X19. Dry run is the default: a patch is sent only in a run whose options
    give dryRun, and give it as a falsy value. *)
Theorem runSync_patches_only_on_request
      (config : Config) (options : RawOptions) (w : World)
      (org : string) (id : JsValue) (body : JsRecord) (failed : option Thrown) :
    EvPatch org id body failed ∈ trace (snd (run config options (startState w))) ->
    raw_dryRun options <> JsUndefined /\ truthy (raw_dryRun options) = false.
  Proof.
    intros Hin.
    destruct (runSync_conduct config options w)
      as [(err & _ & Ht)|(summary & evs & _ & Ht & Hev & _)];
      rewrite Ht in Hin.
    - apply list_elem_of_singleton in Hin. discriminate Hin.
    - apply elem_of_cons in Hin as [Hin|Hin]; [discriminate Hin|].
      rewrite Forall_forall in Hev.
      destruct (Hev _ Hin) as (job & _ & Hdry & _).
      unfold normalizeOptions in Hdry. simpl in Hdry.
      destruct (raw_dryRun options); simpl in *;
        (split; [discriminate|]); congruence.
  Qed.

(** X20. In a run with limits that are not negative, the limitedBy of a job
    result is null exactly when the job was to process all the patches it
    planned. *)
Theorem runSync_limitedBy_iff_cut
      (config : Config) (options : RawOptions) (w : World) (summary : Summary) :
    0 <= maxPatchesPerJob (normalizeOptions options) ->
    0 <= maxTotalPatches (normalizeOptions options) ->
    fst (run config options (startState w)) = inr summary ->
    forall d, JobOk d ∈ sum_results summary ->
      (jr_limitedBy d = None <-> jr_patchesToProcess d = jr_patchesPlanned d).
  Proof.
    intros HN HM Hrun d Hin.
    destruct (run config options (startState w)) as [r st'] eqn:Hout.
    simpl in Hrun. subst r.
    destruct (runSync_inv _ _ _ _ _ _ _ _ _ _ Hout)
      as (st0 & evs & _ & _ & _ & _ & _ & Hzero & Heff & _).
    pose proof (eff_limits _ _ _ _ _ Heff) as Hlim. rewrite Hzero in Hlim.
    apply (limits_ok_each _ _ 0 HM) in Hlim.
    rewrite Forall_forall in Hlim.
    destruct (Hlim _ Hin) as (t & Ht & planned & Hp & Hq & Hl & _).
    rewrite Hl, Hp, Hq, (safetyLimits_uncut _ _ _ HN Ht). lia.
  Qed.

End SyncEngineConduct.

(** ** index.js: the run mode of the command line *)

Lemma foldl_sum {A : Type} (f : A -> Z) (l : list A) : forall acc,
  foldl (fun acc r => acc + f r) acc l
  = acc + foldr (fun r acc => f r + acc) 0 l.
Proof.
  induction l as [|x l IH]; intros acc; simpl; [lia|]. rewrite IH. lia.
Qed.

Lemma patchErrors_sum rs :
  0 <= foldr (fun r acc => default 0 (patchErrorsLength r) + acc) 0 rs
  /\ (foldr (fun r acc => default 0 (patchErrorsLength r) + acc) 0 rs = 0
      <-> forall d, JobOk d ∈ rs -> jr_patchErrors d = []).
Proof.
  induction rs as [|r rs [IH0 IH]]; simpl.
  - split; [lia|]. split; [|reflexivity]. intros _ d Hd. inversion Hd.
  - assert (Hr : 0 <= default 0 (patchErrorsLength r))
      by (destruct r; simpl; lia).
    split; [lia|]. split.
    + intros Hsum d Hd. apply elem_of_cons in Hd as [<-|Hd].
      * simpl in Hsum. destruct (jr_patchErrors d); [reflexivity|].
        simpl length in Hsum. lia.
      * apply IH; [lia|exact Hd].
    + intros Hall.
      assert (Hrs : foldr (fun r acc => default 0 (patchErrorsLength r) + acc) 0 rs = 0).
      { apply IH. intros d Hd. apply Hall. right. exact Hd. }
      rewrite Hrs. destruct r as [d|f]; simpl; [|reflexivity].
      rewrite (Hall d); [reflexivity|left].
Qed.

Lemma jobsFailed_pos rs :
  (0 < length (filter (fun r => truthy (resultError r) = true) rs))%nat
  <-> exists f, JobFailed f ∈ rs /\ jf_error f <> "".
Proof.
  split.
  - intros Hlen.
    destruct (filter (fun r => truthy (resultError r) = true) rs) as [|r l] eqn:Hf;
      [simpl in Hlen; lia|].
    assert (Hin : r ∈ filter (fun r => truthy (resultError r) = true) rs)
      by (rewrite Hf; left).
    apply list_elem_of_filter in Hin as [Ht Hin].
    destruct r as [d|f]; [discriminate Ht|].
    exists f. split; [exact Hin|]. simpl in Ht.
    apply negb_true_iff, is_empty_false in Ht. exact Ht.
  - intros (f & Hin & Hne).
    assert (Hf : JobFailed f ∈ filter (fun r => truthy (resultError r) = true) rs).
    { apply list_elem_of_filter. split; [|exact Hin]. simpl.
      apply negb_true_iff, is_empty_false. exact Hne. }
    destruct (filter _ rs); [inversion Hf|simpl; lia].
Qed.

(** X21. The numeric arguments that pass the validation of [main] give positive
    limits and a positive page size.  A limit that was not given is the
    default of the engine in a dry run (50 per job, 200 in all) and
    [Number.MAX_SAFE_INTEGER] in apply mode; one that was given is kept. *)
Theorem cliOptions_limits (parsed : ParsedArgs) :
  checkNumericArgs parsed = None ->
  let opts := normalizeOptions (cliOptions parsed) in
  0 < maxPatchesPerJob opts /\ 0 < maxTotalPatches opts
  /\ 0 < endpointPageSize opts
  /\ dryRun opts = parsed_dryRun parsed
  /\ (parsed_maxPatchesPerJob parsed = JsUndefined ->
      maxPatchesPerJob opts
      = if parsed_dryRun parsed then 50 else MAX_SAFE_INTEGER)
  /\ (parsed_maxTotalPatches parsed = JsUndefined ->
      maxTotalPatches opts
      = if parsed_dryRun parsed then 200 else MAX_SAFE_INTEGER)
  /\ (forall n, parsed_maxPatchesPerJob parsed = JsNum n ->
                maxPatchesPerJob opts = n)
  /\ (forall n, parsed_maxTotalPatches parsed = JsNum n ->
                maxTotalPatches opts = n).
Proof.
  unfold checkNumericArgs, normalizeOptions, cliOptions. simpl.
  destruct parsed as [dry cache perJob total page stopJ stopP]. simpl.
  intros Hcheck.
  destruct perJob as [| |b|n|s|t]; simpl in Hcheck; try discriminate Hcheck;
    (destruct total as [| |b'|n'|s'|t']; simpl in Hcheck; try discriminate Hcheck);
    (destruct page as [| |b''|n''|s''|t'']; simpl in Hcheck;
     try discriminate Hcheck);
    repeat match type of Hcheck with
           | context [0 <? ?x] =>
               let H := fresh "Hpos" in
               destruct (0 <? x) eqn:H; simpl in Hcheck;
               [apply Z.ltb_lt in H|discriminate Hcheck]
           end;
    destruct dry; simpl; unfold MAX_SAFE_INTEGER;
    (repeat split); try lia; try discriminate; try reflexivity;
    intros ? [= <-]; reflexivity.
Qed.

(** X22. The exit code of a run that got its summary is 2 exactly when a job
    failed with a message that is not empty; otherwise it is 3 exactly when
    the run was not a dry run and some job recorded a patch error; otherwise
    it is 0. *)
Theorem exitCode_cases (summary : Summary) :
  let failed := exists f, JobFailed f ∈ sum_results summary /\ jf_error f <> "" in
  let patchFailed :=
    exists d, JobOk d ∈ sum_results summary /\ jr_patchErrors d <> [] in
  (exitCode summary = 2 <-> failed)
  /\ (exitCode summary = 3 <->
      ~ failed /\ sum_dryRun summary = false /\ patchFailed)
  /\ (exitCode summary = 0 <->
      ~ failed /\ (sum_dryRun summary = true \/ ~ patchFailed)).
Proof.
  intros failed patchFailed. unfold exitCode, cliReport. cbn [rep_jobsFailed rep_patchErrors].
  rewrite foldl_sum, Z.add_0_l.
  destruct (patchErrors_sum (sum_results summary)) as [Hnn Hzero].
  pose proof (jobsFailed_pos (sum_results summary)) as Hfail.
  fold failed in Hfail.
  assert (Hpatch : patchFailed
                   <-> 0 < foldr (fun r acc => default 0 (patchErrorsLength r) + acc)
                               0 (sum_results summary)).
  { split.
    - intros (d & Hin & Hne).
      destruct (Z.eq_dec (foldr (fun r acc => default 0 (patchErrorsLength r) + acc)
                                0 (sum_results summary)) 0) as [E|E]; [|lia].
      exfalso. apply Hne. exact (proj1 Hzero E d Hin).
    - intros Hpos.
      destruct (decide (Forall (fun r => default 0 (patchErrorsLength r) = 0)
                               (sum_results summary))) as [Hall|Hex].
      + exfalso. assert (E : foldr (fun r acc => default 0 (patchErrorsLength r) + acc)
                                  0 (sum_results summary) = 0); [|lia].
        apply Hzero. intros d Hd. rewrite Forall_forall in Hall.
        specialize (Hall _ Hd). simpl in Hall.
        destruct (jr_patchErrors d); [reflexivity|simpl length in Hall; lia].
      + apply not_Forall_Exists in Hex; [|intros r; apply _].
        apply Exists_exists in Hex as (r & Hin & Hr).
        destruct r as [d|f]; [|simpl in Hr; contradiction].
        exists d. split; [exact Hin|]. intros E. apply Hr. simpl.
        rewrite E. reflexivity. }
  destruct (Z.of_nat (length (filter (fun r => truthy (resultError r) = true)
                                (sum_results summary))) >? 0) eqn:H1.
  - apply Z.gtb_lt in H1. assert (Hf : failed) by (apply Hfail; lia).
    split; [tauto|]. split; split; try discriminate; tauto.
  - rewrite Z.gtb_ltb in H1. apply Z.ltb_ge in H1.
    assert (Hnf : ~ failed) by (intros Hf; apply Hfail in Hf; lia).
    destruct (sum_dryRun summary); simpl.
    + split; [split; [discriminate|tauto]|].
      split; [split; [discriminate|intros (_ & Hd & _); discriminate Hd]|].
      split; [auto|reflexivity].
    + destruct (_ >? 0) eqn:H2.
      * apply Z.gtb_lt in H2. apply Hpatch in H2.
        split; [split; [discriminate|tauto]|].
        split; [split; auto|].
        split; [discriminate|]. intros (_ & [Hd|Hn]); [discriminate Hd|tauto].
      * rewrite Z.gtb_ltb in H2. apply Z.ltb_ge in H2.
        assert (Hnp : ~ patchFailed) by (intros Hp; apply Hpatch in Hp; lia).
        split; [split; [discriminate|tauto]|].
        split; [split; [discriminate|tauto]|].
        split; [auto|reflexivity].
Qed.

Lemma limits_ok_suffix opts before after : forall total,
  limits_ok opts total (before ++ after) ->
  limits_ok opts (total + sumApplied before) after.
Proof.
  induction before as [|r before IH]; intros total H; simpl in *.
  - rewrite Z.add_0_r. exact H.
  - destruct H as [_ H]. apply IH in H.
    replace (total + (default 0 (patchesApplied r) + sumApplied before))
      with (total + default 0 (patchesApplied r) + sumApplied before) by lia.
    exact H.
Qed.

Lemma limits_ok_planned opts rs : forall total,
  limits_ok opts total rs -> 0 <= sumApplied rs <= sumPlanned rs.
Proof.
  induction rs as [|r rs IH]; intros total H; simpl in *; [lia|].
  destruct H as [Hr H]. apply IH in H.
  destruct r as [d|f]; simpl in *; [|lia].
  destruct Hr as (planned & Hp & Hq & _ & Ha).
  pose proof (safetyLimits_length opts total planned). lia.
Qed.

Section CommandLine.

  Context {World : Type}.
  Variable listDevicesWithGroups :
    Tenant -> World -> (Thrown + list JsRecord) * World.
  Variable listManagedEndpoints :
    JsRecord -> JsValue -> string -> Z -> World ->
    (Thrown + list JsRecord) * World.
  Variable patchManagedEndpoint :
    JsRecord -> JsValue -> string -> JsValue -> JsRecord -> World ->
    (Thrown + unit) * World.
  Variable includeName : bool.
  Variable getAction1AccessToken :
    JsRecord -> World -> (Thrown + JsValue) * World.

  Local Abbreviation run :=
    (runSync getAction1AccessToken listDevicesWithGroups listManagedEndpoints
       patchManagedEndpoint includeName).

Lemma run_results_ok config options (w : World) summary :
    fst (run config options (startState w)) = inr summary ->
    let opts := normalizeOptions options in
    sum_dryRun summary = dryRun opts
    /\ sum_jobs summary = Z.of_nat (length (getSyncJobs config))
    /\ sum_totalPlannedPatches summary = sumPlanned (sum_results summary)
    /\ sum_totalAppliedPatches summary = sumApplied (sum_results summary)
    /\ limits_ok opts 0 (sum_results summary)
    /\ (length (sum_results summary) <= length (getSyncJobs config))%nat
    /\ Forall (result_ok opts) (sum_results summary).
  Proof.
    intros Hrun opts.
    destruct (run config options (startState w)) as [r st'] eqn:Hout.
    simpl in Hrun. subst r.
    destruct (runSync_inv _ _ _ _ _ _ _ _ _ _ Hout)
      as (st0 & evs & Hd & Hj & Hp & Ha & _ & Hzero & Heff & _).
    pose proof (eff_limits _ _ _ _ _ Heff) as Hlim. rewrite Hzero in Hlim.
    destruct (runSync_conduct listDevicesWithGroups listManagedEndpoints
                patchManagedEndpoint includeName getAction1AccessToken
                config options w)
      as [(err & He & _)|(summary' & evs' & Hs & _ & _ & Hok & Hstop & _)];
      rewrite Hout in *; simpl in *; [discriminate He|].
    injection Hs as <-.
    repeat split; try assumption. apply Hstop.
  Qed.

(** X23. What [main] prints agrees with the summary: the two sums it recomputes
    are the totals of the summary, the failed jobs are at most the jobs, the
    patches applied and the patch errors together are at most the patches
    planned, and a dry run reports no patch applied and no patch error. *)
Theorem cliReport_matches_summary
      (config : Config) (options : RawOptions) (w : World) (summary : Summary) :
    fst (run config options (startState w)) = inr summary ->
    let report := cliReport summary in
    rep_patchesPlanned report = sum_totalPlannedPatches summary
    /\ rep_patchesApplied report = sum_totalAppliedPatches summary
    /\ 0 <= rep_jobsFailed report <= rep_jobs report
    /\ 0 <= rep_patchErrors report
    /\ rep_patchesApplied report + rep_patchErrors report
       <= rep_patchesPlanned report
    /\ (rep_dryRun report = true ->
        rep_patchesApplied report = 0 /\ rep_patchErrors report = 0).
  Proof.
    intros Hrun report.
    destruct (run_results_ok _ _ _ _ Hrun)
      as (Hd & Hj & Hp & Ha & _ & Hlen & Hok).
    unfold report, cliReport.
    cbn [rep_patchesPlanned rep_patchesApplied rep_jobsFailed rep_jobs
         rep_patchErrors rep_dryRun].
    rewrite !foldl_sum, !Z.add_0_l.
    fold (sumPlanned (sum_results summary)).
    fold (sumApplied (sum_results summary)).
    rewrite Hp, Ha, Hj, Hd.
    split; [reflexivity|]. split; [reflexivity|].
    split.
    { split; [lia|].
      pose proof (length_filter (fun r => truthy (resultError r) = true)
                    (sum_results summary)). lia. }
    clear Hp Ha Hj Hd Hlen Hrun report.
    induction Hok as [|r rs Hr _ IH]; [simpl; lia|].
    unfold sumPlanned, sumApplied in *. cbn [foldr].
    destruct IH as (IH1 & IH2 & IH3).
    destruct r as [d|f];
      cbn [patchErrorsLength patchesApplied patchesPlanned from_option]; unfold id in *.
    - destruct Hr as (_ & (_ & Happ & Hcut & _) & Hacc).
      unfold accounted in Hacc.
      destruct (dryRun (normalizeOptions options)).
      + destruct Hacc as [Hz Hnil]. rewrite Hz, Hnil. simpl length.
        split; [lia|]. split; [lia|]. intros _. destruct (IH3 eq_refl). lia.
      + split; [lia|]. split; [|discriminate].
        destruct (stopOnPatchError (normalizeOptions options)); lia.
    - split; [lia|]. split; [lia|]. intros Hdry. destruct (IH3 Hdry). lia.
  Qed.

(** X24. Exit code 0 after applying means every patch was applied: in a run
    that was not a dry run and ends with exit code 0, every job that went
    through has no patch error and applied all the patches it was to
    process, and a failed job, if any, has an empty error message. *)
Theorem exitCode_zero_applied_all
      (config : Config) (options : RawOptions) (w : World) (summary : Summary) :
    fst (run config options (startState w)) = inr summary ->
    exitCode summary = 0 ->
    sum_dryRun summary = false ->
    forall r, r ∈ sum_results summary ->
      match r with
      | JobOk d =>
          jr_patchErrors d = [] /\ jr_patchesApplied d = jr_patchesToProcess d
      | JobFailed f => jf_error f = ""
      end.
  Proof.
    intros Hrun Hexit Hdry r Hin.
    destruct (run_results_ok _ _ _ _ Hrun) as (Hd & _ & _ & _ & _ & _ & Hok).
    rewrite Forall_forall in Hok. specialize (Hok r Hin).
    unfold exitCode, cliReport in Hexit.
    cbn [rep_jobsFailed rep_patchErrors] in Hexit.
    rewrite Hdry in Hexit. simpl negb in Hexit. rewrite andb_true_l in Hexit.
    destruct (_ >? 0) eqn:H1 in Hexit; [discriminate Hexit|].
    destruct (_ >? 0) eqn:H2 in Hexit; [discriminate Hexit|].
    rewrite Z.gtb_ltb in H1, H2. apply Z.ltb_ge in H1, H2.
    rewrite foldl_sum, Z.add_0_l in H2.
    destruct (patchErrors_sum (sum_results summary)) as [Hnn Hzero].
    destruct r as [d|f].
    - assert (Hnil : jr_patchErrors d = []) by (apply Hzero; [lia|exact Hin]).
      split; [exact Hnil|].
      destruct Hok as (_ & _ & Hacc). unfold accounted in Hacc.
      rewrite <- Hd, Hdry, Hnil in Hacc. simpl length in Hacc.
      destruct (stopOnPatchError (normalizeOptions options)); [|lia].
      apply Hacc. reflexivity.
    - destruct (string_dec (jf_error f) "") as [E|E]; [exact E|].
      exfalso.
      assert (Hpos : (0 < length (filter (fun r => truthy (resultError r) = true)
                                    (sum_results summary)))%nat)
        by (apply jobsFailed_pos; eauto).
      lia.
  Qed.

(** X25. Apply mode is not limited by default: in a run with the options [main]
    builds for --apply without --max-patches-per-job and
    --max-total-patches, as long as the planned patches do not exceed
    [Number.MAX_SAFE_INTEGER], no job is limited and every job is to process
    all the patches it planned. *)
Theorem apply_mode_unlimited
      (config : Config) (parsed : ParsedArgs) (w : World) (summary : Summary) :
    parsed_dryRun parsed = false ->
    parsed_maxPatchesPerJob parsed = JsUndefined ->
    parsed_maxTotalPatches parsed = JsUndefined ->
    fst (run config (cliOptions parsed) (startState w)) = inr summary ->
    sum_totalPlannedPatches summary <= MAX_SAFE_INTEGER ->
    sum_dryRun summary = false
    /\ forall d, JobOk d ∈ sum_results summary ->
         jr_limitedBy d = None /\ jr_patchesToProcess d = jr_patchesPlanned d.
  Proof.
    intros Hdry HperJob Htotal Hrun Hmax.
    destruct (run_results_ok _ _ _ _ Hrun) as (Hd & _ & Hp & _ & Hlim & _ & _).
    set (opts := normalizeOptions (cliOptions parsed)) in *.
    assert (HN : maxPatchesPerJob opts = MAX_SAFE_INTEGER).
    { unfold opts, normalizeOptions, cliOptions. simpl.
      rewrite HperJob, Hdry. reflexivity. }
    assert (HM : maxTotalPatches opts = MAX_SAFE_INTEGER).
    { unfold opts, normalizeOptions, cliOptions. simpl.
      rewrite Htotal, Hdry. reflexivity. }
    split.
    { rewrite Hd. unfold opts, normalizeOptions, cliOptions. simpl.
      rewrite Hdry. reflexivity. }
    intros d Hin.
    apply list_elem_of_split in Hin as (before & after & Hsplit).
    rewrite Hsplit in Hlim, Hp.
    pose proof (limits_ok_split _ _ _ _ _ Hlim) as Hjob.
    pose proof (limits_ok_planned _ _ _ (limits_ok_prefix _ _ _ _ Hlim)) as Hb.
    pose proof (limits_ok_suffix _ _ _ _ Hlim) as Hsuf.
    simpl in Hsuf. destruct Hsuf as [_ Hsuf].
    pose proof (limits_ok_planned _ _ _ Hsuf) as Hafter.
    rewrite sumPlanned_app in Hp. simpl in Hp. rewrite Hp in Hmax.
    rewrite Z.add_0_l in Hjob.
    destruct Hjob as (planned & Hpl & Hq & Hl & _).
    rewrite Hpl in Hmax.
    assert (Hnone : snd (safetyLimits opts (sumApplied before) planned) = None).
    { apply safetyLimits_snd_None; [rewrite HN; unfold MAX_SAFE_INTEGER; lia|].
      rewrite HN, HM. lia. }
    split; [rewrite Hl; exact Hnone|].
    rewrite Hq, Hpl. f_equal.
    apply safetyLimits_uncut; [rewrite HN; unfold MAX_SAFE_INTEGER; lia| |exact Hnone].
    rewrite HM. lia.
  Qed.

End CommandLine.

(** ** The properties at work on the sample world *)

Lemma matchDevices_total_witness :
  let nameless : JsRecord := <["displayName" := JsStr "   "]> ∅ in
  let devices := [Sample.device "PC-0"; nameless; Sample.device "lost"] in
  let r := matchDevices devices (Sample.endpoints 2) in
  (length (matched r) + length (unmatchedEntra r) + length (ambiguous r) = 3)%nat
  /\ (nameless ∈ unmatchedEntra r).
Proof.
  intros nameless devices r.
  destruct (matchDevices_total devices (Sample.endpoints 2)) as (Hlen & _ & Hempty).
  split; [exact Hlen|].
  apply Hempty; [right; left|vm_compute; reflexivity].
Defined.

Lemma matchDevices_ambiguity_precedence_witness :
  let dev := Sample.device "Kiosk" in
  let twins := [Sample.endpoint "kiosk"; Sample.endpoint " KIOSK "] in
  let endpoints := Sample.endpoint "kiosk.lab" :: twins in
  (dev ∈ [dev])
  /\ normalizeName (js_or (getProp dev "displayName") (JsStr "")) <> ""
  /\ (2 <= length twins)%nat
  /\ ({| amb_entraDevice := dev; amb_candidates := twins;
         amb_reason := "duplicate_full" |}
      ∈ ambiguous (matchDevices [dev] endpoints)).
Proof.
  intros dev twins endpoints.
  assert (H1 : dev ∈ [dev]) by left.
  assert (H2 : normalizeName (js_or (getProp dev "displayName") (JsStr "")) <> "")
    by (vm_compute; discriminate).
  assert (H3 : twins = endpointsNamed
                 (normalizeName (js_or (getProp dev "displayName") (JsStr "")))
                 endpoints)
    by (vm_compute; reflexivity).
  assert (H4 : (2 <= length twins)%nat) by (simpl; lia).
  split; [exact H1|]. split; [exact H2|]. split; [exact H4|].
  exact (proj1 (matchDevices_ambiguity_precedence [dev] endpoints dev twins
                  H1 H2 H3 H4)).
Defined.

Lemma buildEndpointPatch_blank_skip_witness :
  let dev : JsRecord :=
    <["isManaged" := JsBool false]> (<["enrollmentType" := JsStr "  "]> ∅) in
  let blank := {| entraProperty := JsStr "enrollmentType";
                  action1CustomAttribute := JsStr "Entra Enrollment" |} in
  let managed := {| entraProperty := JsStr "isManaged";
                    action1CustomAttribute := JsStr "Entra Managed" |} in
  well_formed_mapping managed = true
  /\ sourceValue dev managed = JsBool false
  /\ buildEndpointPatch dev [blank; managed]
     = Some (<["custom:Entra Managed" := JsBool false]> ∅).
Proof.
  intros dev blank managed.
  assert (H1 : well_formed_mapping managed = true) by (vm_compute; reflexivity).
  assert (H2 : sourceValue dev managed = JsBool false) by (vm_compute; reflexivity).
  split; [exact H1|]. split; [exact H2|].
  destruct (buildEndpointPatch_blank_skip dev [blank; managed])
    as (_ & _ & _ & Hwritten).
  destruct (Hwritten [blank] managed [] (JsBool false) eq_refl H1 H2
              (or_intror eq_refl)) as (_ & p & Hp & _ & _).
  rewrite Hp. vm_compute in Hp. injection Hp as <-. vm_compute. reflexivity.
Defined.

Lemma toCustomKey_idempotent_custom_prefix_witness :
  startsWith (toLowerCase (trim "  CUSTOM:Dept ")) "custom:" = true
  /\ toCustomKey (JsStr "  CUSTOM:Dept ") = "CUSTOM:Dept"
  /\ toCustomKey (JsStr (toCustomKey (JsStr "Dept"))) = toCustomKey (JsStr "Dept").
Proof.
  assert (H : startsWith (toLowerCase (trim "  CUSTOM:Dept ")) "custom:" = true)
    by (vm_compute; reflexivity).
  split; [exact H|]. split.
  - exact (proj1 (proj1 (proj2 toCustomKey_idempotent_custom_prefix)
                    "  CUSTOM:Dept " H)).
  - exact (proj1 toCustomKey_idempotent_custom_prefix (JsStr "Dept")).
Defined.

(** Two organizations, the listing of the first one fails; real writes, at
    most two patches a job and one in all. *)
Lemma runSync_summary_consistent_witness :
  match Sample.run 3 "org-1" ["org-1"; "org-2"]
          (Sample.options (JsBool false) (JsNum 2) (JsNum 1)) with
  | (inr summary, _) =>
      sum_totalPlannedPatches summary = sumPlanned (sum_results summary)
      /\ sum_totalAppliedPatches summary = sumApplied (sum_results summary)
  | (inl _, _) => False
  end.
Proof.
  destruct (Sample.run 3 "org-1" ["org-1"; "org-2"]
              (Sample.options (JsBool false) (JsNum 2) (JsNum 1)))
    as [[err|summary] st'] eqn:Hrun.
  - vm_compute in Hrun. discriminate Hrun.
  - destruct (runSync_summary_consistent _ _ _ _ _ _ _ _ _ _ Hrun)
      as (Hp & Ha & _).
    split; assumption.
Defined.

Lemma job_error_isolation_witness :
  let opts := normalizeOptions
                (Sample.options JsUndefined JsUndefined JsUndefined) in
  let job := {| tenant := Sample.contoso ["org-1"; "org-2"];
                organizationId := "org-1";
                mappings := [Sample.groupMapping] |} in
  exists (st1 : @RunState unit) failed,
    fst (jobIteration (Sample.listDevices 1) (Sample.listEndpoints 1 "org-1")
           Sample.patchOk false (Sample.config ["org-1"; "org-2"]) opts
           (JsStr "token") job (startState tt))
    = inr true
    /\ failed = JobFailed {| jf_tenantName := "Contoso";
                             jf_organizationId := "org-1";
                             jf_error := "listing failed";
                             jf_dryRun := true |}
    /\ jobResults st1 = [failed].
Proof.
  intros opts job.
  pose (st0 := with_world (startState tt) tt
                 (EvListDevices (tenant job) None)).
  pose (st1 := with_world st0 tt
                 (EvListEndpoints "org-1" 50
                    (Some (ThrownError "Error" "listing failed")))).
  assert (Hthrow :
    fetchEntraDevices (Sample.listDevices 1) false job (startState tt)
    = (inl (ThrownError "Error" "listing failed"), st1)
    \/ exists entraDevices st0',
         fetchEntraDevices (Sample.listDevices 1) false job (startState tt)
         = (inr entraDevices, st0')
         /\ callListEndpoints (Sample.listEndpoints 1 "org-1")
              (action1 (Sample.config ["org-1"; "org-2"])) (JsStr "token")
              (organizationId job) (endpointPageSize opts) st0'
            = (inl (ThrownError "Error" "listing failed"), st1)).
  { right. exists (Sample.devices 1), st0. split; reflexivity. }
  destruct (job_error_isolation (Sample.listDevices 1)
              (Sample.listEndpoints 1 "org-1") Sample.patchOk false
              (Sample.config ["org-1"; "org-2"]) opts (JsStr "token")
              job [] (startState tt) st1 _ Hthrow)
    as (Hit & Hres & _).
  eexists _, _. split; [rewrite Hit; reflexivity|].
  split; [reflexivity|]. exact Hres.
Defined.

Lemma runSync_dry_run_witness :
  dryRun (normalizeOptions (Sample.options JsUndefined JsUndefined JsUndefined))
  = true
  /\ countPatchCalls
       (trace (snd (Sample.run 3 "org-1" ["org-1"; "org-2"]
                      (Sample.options JsUndefined JsUndefined JsUndefined))))
     = 0.
Proof.
  assert (H : dryRun (normalizeOptions
                        (Sample.options JsUndefined JsUndefined JsUndefined))
              = true) by reflexivity.
  split; [exact H|].
  exact (proj1 (runSync_dry_run (Sample.listDevices 3)
                  (Sample.listEndpoints 3 "org-1") Sample.patchOk false
                  Sample.getToken (Sample.config ["org-1"; "org-2"])
                  (Sample.options JsUndefined JsUndefined JsUndefined) tt H)).
Defined.

Lemma runSync_global_limit_witness :
  0 <= maxTotalPatches
         (normalizeOptions (Sample.options (JsBool false) (JsNum 2) (JsNum 1)))
  /\ match Sample.run 3 "org-1" ["org-1"; "org-2"]
             (Sample.options (JsBool false) (JsNum 2) (JsNum 1)) with
     | (inr summary, st') =>
         sum_totalAppliedPatches summary <= 1
         /\ sum_totalAppliedPatches summary = countPatchOk (trace st')
     | (inl _, _) => False
     end.
Proof.
  assert (H : 0 <= maxTotalPatches
                     (normalizeOptions
                        (Sample.options (JsBool false) (JsNum 2) (JsNum 1))))
    by (vm_compute; discriminate).
  split; [exact H|].
  destruct (Sample.run 3 "org-1" ["org-1"; "org-2"]
              (Sample.options (JsBool false) (JsNum 2) (JsNum 1)))
    as [[err|summary] st'] eqn:Hrun.
  - vm_compute in Hrun. discriminate Hrun.
  - destruct (runSync_global_limit _ _ _ _ _ _ _ _ _ _ Hrun H)
      as (Hle & _ & Hcount & _).
    split; [exact Hle|exact Hcount].
Defined.

(** Seventy machines, one organization, the default limits. *)
Lemma runSync_per_job_limit_witness :
  match Sample.run 70 "none" ["org-1"]
          (Sample.options JsUndefined JsUndefined JsUndefined) with
  | (inr summary, _) =>
      exists d, sum_results summary = [JobOk d]
                /\ jr_patchesPlanned d = 70
                /\ jr_patchesToProcess d = 50
                /\ jr_limitedBy d = Some "maxPatchesPerJob=50"
  | (inl _, _) => False
  end.
Proof.
  destruct (Sample.run 70 "none" ["org-1"]
              (Sample.options JsUndefined JsUndefined JsUndefined))
    as [[err|summary] st'] eqn:Hrun.
  - vm_compute in Hrun. discriminate Hrun.
  - pose proof Hrun as Hval. vm_compute in Hval.
    injection Hval as Hsum _.
    destruct summary as [dry jobs planned applied results].
    injection Hsum as _ _ _ _ Hres.
    destruct results as [|[d|f] [|r rest]]; try discriminate Hres.
    injection Hres as Hd.
    assert (Hplanned : jr_patchesPlanned d = 70) by (rewrite <- Hd; reflexivity).
    exists d. split; [reflexivity|]. split; [exact Hplanned|].
    assert (Hn : 0 <= maxPatchesPerJob
                        (normalizeOptions
                           (Sample.options JsUndefined JsUndefined JsUndefined)))
      by (vm_compute; discriminate).
    assert (Hgt : jr_patchesPlanned d
                  > maxPatchesPerJob
                      (normalizeOptions
                         (Sample.options JsUndefined JsUndefined JsUndefined)))
      by (rewrite Hplanned; reflexivity).
    destruct (runSync_per_job_limit _ _ _ _ _ _ _ _ _ _ [] d [] Hrun eq_refl Hn Hgt)
      as (_ & Hfit & _).
    apply Hfit. vm_compute. discriminate.
Defined.

(** The claim C4 as it is worded fails on a dry run with a failed job: the
    result of that job has no [patchesApplied]. *)
Lemma dry_run_failed_job_has_no_patchesApplied :
  ~ (forall (config : Config) (options : RawOptions) (summary : Summary)
            (st' : @RunState unit),
       dryRun (normalizeOptions options) = true ->
       runSync Sample.getToken (Sample.listDevices 3)
         (Sample.listEndpoints 3 "org-1") Sample.patchOk false
         config options (startState tt) = (inr summary, st') ->
       forall r, r ∈ sum_results summary -> patchesApplied r = Some 0).
Proof.
  intros Hclaim.
  destruct (Sample.run 3 "org-1" ["org-1"; "org-2"]
              (Sample.options JsUndefined JsUndefined JsUndefined))
    as [[err|summary] st'] eqn:Hrun.
  - vm_compute in Hrun. discriminate Hrun.
  - assert (Hin : JobFailed {| jf_tenantName := "Contoso";
                               jf_organizationId := "org-1";
                               jf_error := "listing failed";
                               jf_dryRun := true |} ∈ sum_results summary).
    { pose proof Hrun as Hval. vm_compute in Hval. injection Hval as <- _.
      left. }
    specialize (Hclaim (Sample.config ["org-1"; "org-2"])
                  (Sample.options JsUndefined JsUndefined JsUndefined)
                  summary st' eq_refl Hrun _ Hin).
    discriminate Hclaim.
Qed.

(** The claim C5 as it is worded fails when the global limit leaves less
    room than [maxPatchesPerJob]: three patches planned, two allowed for the
    job, one in all, and one is processed. *)
Lemma per_job_limit_cut_by_global_limit :
  ~ (forall (config : Config) (options : RawOptions) (summary : Summary)
            (st' : @RunState unit) (d : JobDone),
       runSync Sample.getToken (Sample.listDevices 3)
         (Sample.listEndpoints 3 "none") Sample.patchOk false
         config options (startState tt) = (inr summary, st') ->
       JobOk d ∈ sum_results summary ->
       jr_patchesPlanned d > maxPatchesPerJob (normalizeOptions options) ->
       jr_patchesToProcess d = maxPatchesPerJob (normalizeOptions options)).
Proof.
  intros Hclaim.
  destruct (Sample.run 3 "none" ["org-1"]
              (Sample.options JsUndefined (JsNum 2) (JsNum 1)))
    as [[err|summary] st'] eqn:Hrun.
  - vm_compute in Hrun. discriminate Hrun.
  - assert (Hex : exists d, JobOk d ∈ sum_results summary
                            /\ jr_patchesPlanned d = 3
                            /\ jr_patchesToProcess d = 1
                            /\ jr_limitedBy d
                               = Some "maxPatchesPerJob=2, maxTotalPatches=1").
    { pose proof Hrun as Hval. vm_compute in Hval. injection Hval as <- _.
      eexists. split; [left|]. repeat split. }
    destruct Hex as (d & Hin & Hp & Ht & _).
    specialize (Hclaim (Sample.config ["org-1"])
                  (Sample.options JsUndefined (JsNum 2) (JsNum 1))
                  summary st' d Hrun Hin).
    rewrite Hp, Ht in Hclaim. specialize (Hclaim eq_refl). discriminate Hclaim.
Qed.

Lemma runSync_graceful_witness :
  let options := SampleFaults.options false false false in
  let run := runSync Sample.getToken (Sample.listDevices 1)
               (SampleFaults.listEndpointsNoId 1) Sample.patchOk false
               (Sample.config ["org-1"]) options (startState tt) in
  exists summary d,
    fst run = inr summary
    /\ sum_results summary = [JobOk d]
    /\ jr_patchesToProcess d = 1
    /\ jr_patchesApplied d = 0
    /\ {| pe_endpointId := JsUndefined; pe_error := invalidItemMessage |}
       ∈ jr_patchErrors d.
Proof.
  intros options run.
  pose proof (runSync_graceful (Sample.listDevices 1)
                (SampleFaults.listEndpointsNoId 1) Sample.patchOk false
                Sample.getToken (Sample.config ["org-1"]) options tt) as H.
  cbv beta iota zeta delta [Sample.getToken] in H.
  destruct H as (summary & st' & Hrun & _ & Hstep).
  change (run = (inr summary, st')) in Hrun.
  assert (Hres : exists d, sum_results summary = [JobOk d]
                           /\ jr_patchesToProcess d = 1
                           /\ jr_patchesApplied d = 0).
  { assert (Hval := Hrun). vm_compute in Hval. injection Hval as <- _.
    eexists. repeat split. }
  destruct Hres as (d & Hres & Hproc & Happ).
  exists summary, d. split; [rewrite Hrun; reflexivity|].
  split; [exact Hres|]. split; [exact Hproc|]. split; [exact Happ|].
  destruct (Hstep 0%nat (JobOk d)) as (job & st_i & Hj & Hpre & Hfetch).
  { rewrite Hres. reflexivity. }
  injection Hj as <-. injection Hpre as <-.
  vm_compute fetchStage in Hfetch.
  destruct Hfetch as (d' & evs & rest & Hd & _ & _ & Hrec).
  injection Hd as <-.
  apply (Hrec eq_refl
           {| endpointId := JsUndefined; endpointName := JsStr "pc-0";
              entraName := JsStr "pc-0"; matchType := "full";
              patch := <["custom:Entra Groups" := JsStr "Laptops"]> ∅ |}).
  - vm_compute. left.
  - reflexivity.
Defined.

(** ** The further properties at work *)

Lemma matchDevices_full_match_witness :
  let dev := Sample.device " PC-1 " in
  let ep := Sample.endpoint "pc-1" in
  let endpoints := Sample.endpoints 3 in
  fullKeyOf dev <> ""
  /\ endpointsNamed (fullKeyOf dev) endpoints = [ep]
  /\ ({| pair_entraDevice := dev; pair_endpoint := ep; pair_matchType := "full" |}
      ∈ matched (matchDevices [Sample.device "other"; dev] endpoints)).
Proof.
  intros dev ep endpoints.
  assert (H1 : dev ∈ [Sample.device "other"; dev]) by (right; left).
  assert (H2 : fullKeyOf dev <> "") by (vm_compute; discriminate).
  assert (H3 : endpointsNamed (fullKeyOf dev) endpoints = [ep])
    by (vm_compute; reflexivity).
  split; [exact H2|]. split; [exact H3|].
  exact (proj1 (matchDevices_full_match _ endpoints dev ep H1 H2 H3)).
Defined.

Lemma matchDevices_short_fallback_witness :
  let dev := Sample.device "Host1.corp.example.com" in
  let ep := Sample.endpoint "HOST1" in
  let endpoints := [Sample.endpoint "host2.corp.example.com"; ep] in
  fullKeyOf dev <> ""
  /\ endpointsNamed (fullKeyOf dev) endpoints = []
  /\ endpointsShortNamed (shortKeyOf dev) endpoints = [ep]
  /\ ({| pair_entraDevice := dev; pair_endpoint := ep; pair_matchType := "short" |}
      ∈ matched (matchDevices [dev] endpoints)).
Proof.
  intros dev ep endpoints.
  assert (H1 : dev ∈ [dev]) by left.
  assert (H2 : fullKeyOf dev <> "") by (vm_compute; discriminate).
  assert (H3 : endpointsNamed (fullKeyOf dev) endpoints = [])
    by (vm_compute; reflexivity).
  assert (H4 : endpointsShortNamed (shortKeyOf dev) endpoints = [ep])
    by (vm_compute; reflexivity).
  split; [exact H2|]. split; [exact H3|]. split; [exact H4|].
  exact (proj1 (matchDevices_short_fallback _ endpoints dev ep H1 H2 H3 H4)).
Defined.

Lemma matchDevices_duplicate_short_witness :
  let dev := Sample.device "host1" in
  let cands := [Sample.endpoint "host1.lab.example.com";
                Sample.endpoint "host1.office.example.com"] in
  let endpoints := Sample.endpoint "host2" :: cands in
  fullKeyOf dev <> ""
  /\ endpointsNamed (fullKeyOf dev) endpoints = []
  /\ (2 <= length cands)%nat
  /\ ({| amb_entraDevice := dev; amb_candidates := cands;
         amb_reason := "duplicate_short" |}
      ∈ ambiguous (matchDevices [dev] endpoints)).
Proof.
  intros dev cands endpoints.
  assert (H1 : dev ∈ [dev]) by left.
  assert (H2 : fullKeyOf dev <> "") by (vm_compute; discriminate).
  assert (H3 : endpointsNamed (fullKeyOf dev) endpoints = [])
    by (vm_compute; reflexivity).
  assert (H4 : endpointsShortNamed (shortKeyOf dev) endpoints = cands)
    by (vm_compute; reflexivity).
  assert (H5 : (2 <= length cands)%nat) by (simpl; lia).
  split; [exact H2|]. split; [exact H3|]. split; [exact H5|].
  exact (proj1 (matchDevices_duplicate_short _ endpoints dev cands
                  H1 H2 H3 H4 H5)).
Defined.

Lemma matchDevices_unmatched_iff_witness :
  let dev := Sample.device "lost.example.com" in
  let devices := [Sample.device "pc-0"; dev] in
  let endpoints := Sample.endpoints 2 in
  dev ∈ unmatchedEntra (matchDevices devices endpoints).
Proof.
  intros dev devices endpoints.
  assert (H1 : dev ∈ devices) by (right; left).
  apply (proj2 (matchDevices_unmatched_iff devices endpoints dev H1)).
  right. split; vm_compute; reflexivity.
Defined.

Lemma matchDevices_sound_witness :
  let dev := Sample.device "Host1.corp.example.com" in
  let ep := Sample.endpoint "host1" in
  let pair := {| pair_entraDevice := dev; pair_endpoint := ep;
                 pair_matchType := "short" |} in
  pair ∈ matched (matchDevices [dev] [ep])
  /\ dev ∈ [dev] /\ ep ∈ [ep] /\ fullKeyOf dev <> "".
Proof.
  intros dev ep pair.
  assert (H : pair ∈ matched (matchDevices [dev] [ep]))
    by (vm_compute; left).
  split; [exact H|].
  destruct (proj1 (matchDevices_sound [dev] [ep]) pair H) as (Hd & He & Hk & _).
  split; [exact Hd|]. split; [exact He|exact Hk].
Defined.

Lemma buildEndpointPatch_null_iff_witness :
  let dev : JsRecord :=
    <["memberOf" := JsStr "   "]> (<["deviceOwnership" := JsNull]> ∅) in
  let mappings := [Sample.groupMapping;
                   {| entraProperty := JsStr "deviceOwnership";
                      action1CustomAttribute := JsStr "Entra Device Ownership" |};
                   {| entraProperty := JsStr "trustType";
                      action1CustomAttribute := JsStr "Entra Trust" |}] in
  buildEndpointPatch dev mappings = None.
Proof.
  intros dev mappings.
  apply (proj2 (proj1 (buildEndpointPatch_null_iff dev mappings))).
  repeat constructor.
Defined.

Lemma buildEndpointPatch_last_write_witness :
  let dev : JsRecord :=
    <["memberOf" := JsStr "Laptops"]> (<["trustType" := JsStr "AzureAd"]>
      (<["deviceOwnership" := JsStr " "]> ∅)) in
  let first := {| entraProperty := JsStr "memberOf";
                  action1CustomAttribute := JsStr "Entra Info" |} in
  let second := {| entraProperty := JsStr "trustType";
                   action1CustomAttribute := JsStr "custom:Entra Info" |} in
  let blank := {| entraProperty := JsStr "deviceOwnership";
                  action1CustomAttribute := JsStr "Entra Info" |} in
  writes dev second = true
  /\ exists p, buildEndpointPatch dev [first; second; blank] = Some p
               /\ p !! "custom:Entra Info" = Some (JsStr "AzureAd").
Proof.
  intros dev first second blank.
  assert (H1 : writes dev second = true) by (vm_compute; reflexivity).
  split; [exact H1|].
  apply (buildEndpointPatch_last_write dev [first] second [blank] H1).
  constructor; [|constructor].
  intros Hw. vm_compute in Hw. discriminate Hw.
Defined.

Lemma mapDevicesToPatches_planned_witness :
  let mr := mapDevicesToPatches (Sample.devices 3) (Sample.endpoints 2)
              [Sample.groupMapping] in
  (length (mr_patches mr) <= length (mr_matched mr))%nat
  /\ length (mr_patches mr) = 2%nat
  /\ Forall (fun item => patch item <> ∅) (mr_patches mr).
Proof.
  intros mr.
  destruct (mapDevicesToPatches_planned (Sample.devices 3) (Sample.endpoints 2)
              [Sample.groupMapping]) as (_ & Hle & _ & Hall).
  split; [exact Hle|]. split; [vm_compute; reflexivity|].
  eapply Forall_impl; [exact Hall|]. intros item (Hne & _). exact Hne.
Defined.

Lemma stripFqdn_cuts_at_first_dot_witness :
  stripFqdn (JsStr "  Host1.corp.example.com ") = "Host1"
  /\ indexOf (stripFqdn (JsStr "  Host1.corp.example.com ")) "." = -1
  /\ stripFqdn (JsStr ".hidden.local") = ".hidden.local".
Proof.
  destruct (stripFqdn_cuts_at_first_dot (JsStr "  Host1.corp.example.com "))
    as (Hcut & _).
  destruct Hcut as (H1 & _ & H3); [vm_compute; reflexivity|].
  split; [rewrite H1; vm_compute; reflexivity|]. split; [exact H3|].
  exact (proj2 (proj2 (stripFqdn_cuts_at_first_dot (JsStr ".hidden.local")))
           "hidden.local" eq_refl).
Defined.

Lemma safetyLimits_null_iff_uncut_witness :
  let opts := normalizeOptions (Sample.options (JsBool false) (JsNum 2) (JsNum 5)) in
  let planned := mr_patches (mapDevicesToPatches (Sample.devices 3)
                               (Sample.endpoints 3) [Sample.groupMapping]) in
  0 <= maxPatchesPerJob opts
  /\ 4 <= maxTotalPatches opts
  /\ fst (safetyLimits opts 4 planned) = take 1 planned
  /\ snd (safetyLimits opts 4 planned) <> None.
Proof.
  intros opts planned.
  assert (H1 : 0 <= maxPatchesPerJob opts) by (vm_compute; discriminate).
  assert (H2 : 4 <= maxTotalPatches opts) by (vm_compute; discriminate).
  destruct (safetyLimits_null_iff_uncut opts 4 planned H1 H2) as (Hfst & _ & Hnone).
  split; [exact H1|]. split; [exact H2|]. split; [exact Hfst|].
  intros E. apply Hnone in E. vm_compute in E. destruct E as [E _]. apply E.
  reflexivity.
Defined.

Lemma runSync_result_counts_witness :
  match SampleFaults.run 3 "org-2" "id-pc-1" ["org-1"; "org-2"]
          (SampleFaults.options false false false) with
  | (inr summary, _) =>
      length (sum_results summary) = 2%nat
      /\ forall r, r ∈ sum_results summary ->
           match r with
           | JobOk d => jr_dryRun d = sum_dryRun summary /\ counts_ok d
           | JobFailed f => jf_dryRun f = sum_dryRun summary
           end
  | (inl _, _) => False
  end.
Proof.
  destruct (SampleFaults.run 3 "org-2" "id-pc-1" ["org-1"; "org-2"]
              (SampleFaults.options false false false))
    as [[err|summary] st'] eqn:Hrun.
  - vm_compute in Hrun. discriminate Hrun.
  - split.
    + vm_compute in Hrun. injection Hrun as <- _. reflexivity.
    + apply (runSync_result_counts (Sample.listDevices 3)
               (Sample.listEndpoints 3 "org-2")
               (SampleFaults.patchRefusing "id-pc-1") false Sample.getToken
               (Sample.config ["org-1"; "org-2"])
               (SampleFaults.options false false false) tt).
      unfold SampleFaults.run in Hrun. rewrite Hrun. reflexivity.
Defined.

Lemma runSync_patches_accounted_witness :
  match SampleFaults.run 3 "none" "id-pc-1" ["org-1"]
          (SampleFaults.options false false false) with
  | (inr summary, _) =>
      sum_totalAppliedPatches summary = 2
      /\ forall d, JobOk d ∈ sum_results summary ->
           accounted (normalizeOptions (SampleFaults.options false false false)) d
  | (inl _, _) => False
  end.
Proof.
  destruct (SampleFaults.run 3 "none" "id-pc-1" ["org-1"]
              (SampleFaults.options false false false))
    as [[err|summary] st'] eqn:Hrun.
  - vm_compute in Hrun. discriminate Hrun.
  - split.
    + vm_compute in Hrun. injection Hrun as <- _. reflexivity.
    + apply (runSync_patches_accounted (Sample.listDevices 3)
               (Sample.listEndpoints 3 "none")
               (SampleFaults.patchRefusing "id-pc-1") false Sample.getToken
               (Sample.config ["org-1"])
               (SampleFaults.options false false false) tt).
      unfold SampleFaults.run in Hrun. rewrite Hrun. reflexivity.
Defined.

Lemma runSync_stops_at_failure_witness :
  match SampleFaults.run 2 "org-2" "none" ["org-1"; "org-2"; "org-3"]
          (SampleFaults.options true true false) with
  | (inr summary, _) =>
      length (sum_results summary) = 2%nat
      /\ stops_at_failure
           (normalizeOptions (SampleFaults.options true true false))
           (getSyncJobs (Sample.config ["org-1"; "org-2"; "org-3"]))
           (sum_results summary)
  | (inl _, _) => False
  end.
Proof.
  destruct (SampleFaults.run 2 "org-2" "none" ["org-1"; "org-2"; "org-3"]
              (SampleFaults.options true true false))
    as [[err|summary] st'] eqn:Hrun.
  - vm_compute in Hrun. discriminate Hrun.
  - split.
    + vm_compute in Hrun. injection Hrun as <- _. reflexivity.
    + apply (runSync_stops_at_failure (Sample.listDevices 2)
               (Sample.listEndpoints 2 "org-2")
               (SampleFaults.patchRefusing "none") false Sample.getToken
               (Sample.config ["org-1"; "org-2"; "org-3"])
               (SampleFaults.options true true false) tt).
      unfold SampleFaults.run in Hrun. rewrite Hrun. reflexivity.
Defined.


Lemma runSync_patches_only_on_request_witness :
  let options := Sample.options JsNull JsUndefined JsUndefined in
  let out := Sample.run 1 "none" ["org-1"] options in
  let sent := EvPatch "org-1" (JsStr "id-pc-0")
                (<["custom:Entra Groups" := JsStr "Laptops"]> ∅) None in
  sent ∈ trace (snd out)
  /\ raw_dryRun options <> JsUndefined /\ truthy (raw_dryRun options) = false.
Proof.
  intros options out sent.
  assert (H : sent ∈ trace (snd out)).
  { vm_compute. right. right. right. left. }
  split; [exact H|].
  exact (runSync_patches_only_on_request (Sample.listDevices 1)
           (Sample.listEndpoints 1 "none") Sample.patchOk false
           Sample.getToken (Sample.config ["org-1"]) options tt _ _ _ _ H).
Defined.

Lemma runSync_limitedBy_iff_cut_witness :
  match Sample.run 3 "none" ["org-1"; "org-2"]
          (Sample.options (JsBool false) (JsNum 2) (JsNum 5)) with
  | (inr summary, _) =>
      map patchesPlanned (sum_results summary) = [Some 3; Some 3]
      /\ forall d, JobOk d ∈ sum_results summary ->
           (jr_limitedBy d = None <-> jr_patchesToProcess d = jr_patchesPlanned d)
  | (inl _, _) => False
  end.
Proof.
  destruct (Sample.run 3 "none" ["org-1"; "org-2"]
              (Sample.options (JsBool false) (JsNum 2) (JsNum 5)))
    as [[err|summary] st'] eqn:Hrun.
  - vm_compute in Hrun. discriminate Hrun.
  - split.
    + vm_compute in Hrun. injection Hrun as <- _. reflexivity.
    + apply (runSync_limitedBy_iff_cut (Sample.listDevices 3)
               (Sample.listEndpoints 3 "none") Sample.patchOk false
               Sample.getToken (Sample.config ["org-1"; "org-2"])
               (Sample.options (JsBool false) (JsNum 2) (JsNum 5)) tt).
      * vm_compute. discriminate.
      * vm_compute. discriminate.
      * unfold Sample.run in Hrun. rewrite Hrun. reflexivity.
Defined.

Lemma cliOptions_limits_witness :
  let opts := normalizeOptions (cliOptions SampleFaults.applyArgs) in
  checkNumericArgs SampleFaults.applyArgs = None
  /\ maxPatchesPerJob opts = MAX_SAFE_INTEGER
  /\ maxTotalPatches opts = MAX_SAFE_INTEGER
  /\ 0 < endpointPageSize opts.
Proof.
  intros opts.
  assert (H : checkNumericArgs SampleFaults.applyArgs = None) by reflexivity.
  destruct (cliOptions_limits SampleFaults.applyArgs H)
    as (_ & _ & Hpage & _ & HperJob & Htotal & _).
  split; [exact H|]. split; [exact (HperJob eq_refl)|].
  split; [exact (Htotal eq_refl)|exact Hpage].
Defined.

Lemma cliReport_matches_summary_witness :
  match SampleFaults.run 3 "org-2" "id-pc-1" ["org-1"; "org-2"]
          (SampleFaults.options false false false) with
  | (inr summary, _) =>
      rep_patchesPlanned (cliReport summary) = sum_totalPlannedPatches summary
      /\ rep_patchesApplied (cliReport summary) = 2
      /\ rep_jobsFailed (cliReport summary) = 1
      /\ rep_patchErrors (cliReport summary) = 1
      /\ exitCode summary = 2
  | (inl _, _) => False
  end.
Proof.
  destruct (SampleFaults.run 3 "org-2" "id-pc-1" ["org-1"; "org-2"]
              (SampleFaults.options false false false))
    as [[err|summary] st'] eqn:Hrun.
  - vm_compute in Hrun. discriminate Hrun.
  - split.
    + apply (cliReport_matches_summary (Sample.listDevices 3)
               (Sample.listEndpoints 3 "org-2")
               (SampleFaults.patchRefusing "id-pc-1") false Sample.getToken
               (Sample.config ["org-1"; "org-2"])
               (SampleFaults.options false false false) tt).
      unfold SampleFaults.run in Hrun. rewrite Hrun. reflexivity.
    + vm_compute in Hrun. injection Hrun as <- _.
      vm_compute. repeat split.
Defined.

Lemma exitCode_zero_applied_all_witness :
  match SampleFaults.run 3 "none" "none" ["org-1"; "org-2"]
          (SampleFaults.options false false true) with
  | (inr summary, _) =>
      exitCode summary = 0
      /\ sum_totalAppliedPatches summary = 6
      /\ forall r, r ∈ sum_results summary ->
           match r with
           | JobOk d =>
               jr_patchErrors d = []
               /\ jr_patchesApplied d = jr_patchesToProcess d
           | JobFailed f => jf_error f = ""
           end
  | (inl _, _) => False
  end.
Proof.
  destruct (SampleFaults.run 3 "none" "none" ["org-1"; "org-2"]
              (SampleFaults.options false false true))
    as [[err|summary] st'] eqn:Hrun.
  - vm_compute in Hrun. discriminate Hrun.
  - assert (Hexit : exitCode summary = 0)
      by (vm_compute in Hrun; injection Hrun as <- _; reflexivity).
    assert (Hdry : sum_dryRun summary = false)
      by (vm_compute in Hrun; injection Hrun as <- _; reflexivity).
    split; [exact Hexit|]. split.
    + vm_compute in Hrun. injection Hrun as <- _. reflexivity.
    + apply (exitCode_zero_applied_all (Sample.listDevices 3)
               (Sample.listEndpoints 3 "none")
               (SampleFaults.patchRefusing "none") false Sample.getToken
               (Sample.config ["org-1"; "org-2"])
               (SampleFaults.options false false true) tt);
        [|exact Hexit|exact Hdry].
      unfold SampleFaults.run in Hrun. rewrite Hrun. reflexivity.
Defined.

Lemma apply_mode_unlimited_witness :
  match SampleFaults.run 70 "none" "none" ["org-1"; "org-2"; "org-3"; "org-4"]
          (cliOptions SampleFaults.applyArgs) with
  | (inr summary, _) =>
      sum_totalPlannedPatches summary = 280
      /\ sum_dryRun summary = false
      /\ forall d, JobOk d ∈ sum_results summary ->
           jr_limitedBy d = None /\ jr_patchesToProcess d = jr_patchesPlanned d
  | (inl _, _) => False
  end.
Proof.
  destruct (SampleFaults.run 70 "none" "none" ["org-1"; "org-2"; "org-3"; "org-4"]
              (cliOptions SampleFaults.applyArgs))
    as [[err|summary] st'] eqn:Hrun.
  - vm_compute in Hrun. discriminate Hrun.
  - assert (Hplanned : sum_totalPlannedPatches summary = 280)
      by (vm_compute in Hrun; injection Hrun as <- _; reflexivity).
    split; [exact Hplanned|].
    apply (apply_mode_unlimited (Sample.listDevices 70)
             (Sample.listEndpoints 70 "none")
             (SampleFaults.patchRefusing "none") false Sample.getToken
             (Sample.config ["org-1"; "org-2"; "org-3"; "org-4"])
             SampleFaults.applyArgs tt summary eq_refl eq_refl eq_refl).
    + unfold SampleFaults.run in Hrun. rewrite Hrun. reflexivity.
    + rewrite Hplanned. unfold MAX_SAFE_INTEGER. lia.
Defined.
